(** * Queue server v2: single queue, single worker, streamed fragments

    A shallow embedding of [queue_server_v2.py].  The server runs on one
    asyncio event loop, so the code between two suspension points ([await]
    that really suspends, or a generator [yield]) runs without interleaving.
    Each such segment is one transition of [step] below; the values the
    environment supplies (the uuid4 of a new request, [datetime.now()], what
    the downstream completion call yields or raises) are carried by the
    action that labels the transition. *)

From Stdlib Require Import Ascii QArith Lqa.
From stdpp Require Import gmap strings list fin_maps.

Local Open Scope string_scope.
Local Open Scope list_scope.
Local Open Scope nat_scope.
Local Set Warnings "-register-all".

(** ** Request bodies and the pydantic models *)

(** A JSON value as FastAPI hands it to the pydantic models. *)
Inductive json : Type :=
| JNull
| JBool (b : bool)
| JInt (z : Z)
| JFloat (q : Q)
| JStr (s : string)
| JList (items : list json)
| JObj (fields : list (string * json)).

(** The annotations used by [QueueRequest] and [OpenAIChatRequest]. *)
Inductive ftype : Type :=
| TStr
| TInt
| TFloat
| TBool
| TDict                       (* dict *)
| TList (t : ftype)           (* list[t] *)
| TDictOf (t : ftype)         (* dict[str, t] *)
| TOptional (t : ftype).      (* Optional[t] *)

(** What pydantic makes of a string given for an [int], a [float] or a
    [bool] field in its default (lax) mode.  The readings of numerals and of
    truth words belong to the library and vary with its version; they are
    left open here. *)
Class Lexers : Type := {
  str_as_int : string -> option Z;
  str_as_float : string -> option Q;
  str_as_bool : string -> option bool
}.

(** One reading, for the closed examples: decimal numerals with an optional
    sign, and the truth words of the library's documentation. *)
Definition digit_of (a : Ascii.ascii) : option Z :=
  let n := Ascii.nat_of_ascii a in
  if (48 <=? n)%nat && (n <=? 57)%nat then Some (Z.of_nat (n - 48)) else None.

Fixpoint digits_value (acc : Z) (s : string) : option Z :=
  match s with
  | EmptyString => Some acc
  | String a rest => d ← digit_of a; digits_value (10 * acc + d)%Z rest
  end.

Definition unsigned_int (s : string) : option Z :=
  match s with
  | EmptyString => None
  | _ => digits_value 0 s
  end.

Definition signed (A : Type) (opp : A -> A) (unsigned : string -> option A)
    (s : string) : option A :=
  match s with
  | String "-"%char rest => opp <$> unsigned rest
  | String "+"%char rest => unsigned rest
  | _ => unsigned s
  end.

Fixpoint fraction_value (num : Z) (den : positive) (s : string) : option Q :=
  match s with
  | EmptyString => Some (num # den)
  | String a rest => d ← digit_of a; fraction_value (10 * num + d)%Z (10 * den)%positive rest
  end.

Fixpoint number_value (acc : Z) (s : string) : option Q :=
  match s with
  | EmptyString => Some (inject_Z acc)
  | String "."%char EmptyString => None
  | String "."%char rest => fraction_value acc 1 rest
  | String a rest => d ← digit_of a; number_value (10 * acc + d)%Z rest
  end.

Definition unsigned_float (s : string) : option Q :=
  match s with
  | EmptyString | String "."%char _ => None
  | _ => number_value 0 s
  end.

Definition lower (a : Ascii.ascii) : Ascii.ascii :=
  let n := Ascii.nat_of_ascii a in
  if (65 <=? n)%nat && (n <=? 90)%nat then Ascii.ascii_of_nat (n + 32) else a.

Fixpoint lowercase (s : string) : string :=
  match s with
  | EmptyString => EmptyString
  | String a rest => String (lower a) (lowercase rest)
  end.

Definition truth_word (s : string) : option bool :=
  let w := lowercase s in
  if bool_decide (w ∈ ["1"; "on"; "t"; "true"; "y"; "yes"]) then Some true
  else if bool_decide (w ∈ ["0"; "off"; "f"; "false"; "n"; "no"]) then Some false
  else None.

Definition decimal_lexers : Lexers :=
  {| str_as_int := signed Z Z.opp unsigned_int;
     str_as_float := signed Q Qopp unsigned_float;
     str_as_bool := truth_word |}.

Section Server.
Context {lexers : Lexers}.

(** A float with no fractional part. *)
Definition float_as_int (q : Q) : option Z :=
  if (Z.rem (Qnum q) (Z.pos (Qden q)) =? 0)%Z
  then Some (Z.quot (Qnum q) (Z.pos (Qden q)))
  else None.

Definition int_as_bool (z : Z) : option bool :=
  if (z =? 0)%Z then Some false else if (z =? 1)%Z then Some true else None.

Definition bool_as_int (b : bool) : Z := if b then 1%Z else 0%Z.

(** [validate_value t v]: what pydantic (version 2, default mode) makes of
    the JSON value [v] given for a field annotated [t], [None] when it
    refuses it.  A value of the annotated type is kept.  Of the others, a
    number is never taken for a string, nor anything but an array for a
    list or anything but an object for a dict; an [int] is made of a
    boolean, of a float with no fractional part and of a numeral; a [float]
    of an integer, of a boolean and of a numeral; a [bool] of the integers
    and floats 0 and 1 and of a truth word.  [null] is accepted under
    [Optional] only. *)
Fixpoint validate_value (t : ftype) (v : json) {struct t} : option json :=
  match t with
  | TStr =>
      match v with
      | JStr _ => Some v
      | _ => None
      end
  | TInt =>
      match v with
      | JInt _ => Some v
      | JBool b => Some (JInt (bool_as_int b))
      | JFloat q => JInt <$> float_as_int q
      | JStr s => JInt <$> str_as_int s
      | _ => None
      end
  | TFloat =>
      match v with
      | JFloat _ => Some v
      | JInt z => Some (JFloat (inject_Z z))
      | JBool b => Some (JFloat (inject_Z (bool_as_int b)))
      | JStr s => JFloat <$> str_as_float s
      | _ => None
      end
  | TBool =>
      match v with
      | JBool _ => Some v
      | JInt z => JBool <$> int_as_bool z
      | JFloat q => JBool <$> (float_as_int q ≫= int_as_bool)
      | JStr s => JBool <$> str_as_bool s
      | _ => None
      end
  | TDict =>
      match v with
      | JObj _ => Some v
      | _ => None
      end
  | TList t' =>
      match v with
      | JList items => JList <$> mapM (validate_value t') items
      | _ => None
      end
  | TDictOf t' =>
      match v with
      | JObj fields =>
          JObj <$> mapM (fun kv => pair (fst kv) <$> validate_value t' (snd kv)) fields
      | _ => None
      end
  | TOptional t' =>
      match v with
      | JNull => Some JNull
      | _ => validate_value t' v
      end
  end.

(** A field of a model: name, annotation, and default ([None]: required). *)
Record field : Type := Field {
  f_name : string;
  f_type : ftype;
  f_default : option json
}.

(** [class QueueRequest(BaseModel)] *)
Definition QueueRequest : list field := [
  Field "client_id" TStr None;
  Field "messages" (TList TDict) None;
  Field "model" TStr None;
  Field "temperature" TFloat (Some (JFloat (7 # 10)));
  Field "max_tokens" (TOptional TInt) (Some JNull);
  Field "top_p" TFloat (Some (JFloat 1));
  Field "top_k" (TOptional TInt) (Some JNull);
  Field "frequency_penalty" TFloat (Some (JFloat 0));
  Field "presence_penalty" TFloat (Some (JFloat 0));
  Field "repeat_penalty" (TOptional TFloat) (Some JNull);
  Field "stop" (TOptional (TList TStr)) (Some JNull);
  Field "logit_bias" (TOptional (TDictOf TFloat)) (Some JNull);
  Field "seed" (TOptional TInt) (Some JNull);
  Field "stream" TBool (Some (JBool true));
  Field "tools" (TOptional (TList TDict)) (Some JNull);
  Field "tool_choice" (TOptional TStr) (Some JNull);
  Field "user" (TOptional TStr) (Some JNull)
].

(** [class OpenAIChatRequest(BaseModel)] *)
Definition OpenAIChatRequest : list field := [
  Field "model" TStr None;
  Field "messages" (TList TDict) None;
  Field "temperature" (TOptional TFloat) (Some (JFloat (7 # 10)));
  Field "max_tokens" (TOptional TInt) (Some JNull);
  Field "top_p" (TOptional TFloat) (Some (JFloat 1));
  Field "top_k" (TOptional TInt) (Some JNull);
  Field "frequency_penalty" (TOptional TFloat) (Some (JFloat 0));
  Field "presence_penalty" (TOptional TFloat) (Some (JFloat 0));
  Field "repeat_penalty" (TOptional TFloat) (Some JNull);
  Field "stop" (TOptional (TList TStr)) (Some JNull);
  Field "logit_bias" (TOptional (TDictOf TFloat)) (Some JNull);
  Field "seed" (TOptional TInt) (Some JNull);
  Field "stream" (TOptional TBool) (Some (JBool false));
  Field "tools" (TOptional (TList TDict)) (Some JNull);
  Field "tool_choice" (TOptional TStr) (Some JNull);
  Field "user" (TOptional TStr) (Some JNull)
].

(** Python dicts with string keys whose order is kept: association lists. *)
Fixpoint dict_get (k : string) (d : list (string * json)) : option json :=
  match d with
  | [] => None
  | (k', v) :: rest => if String.eqb k k' then Some v else dict_get k rest
  end.

(** Validation of a body against a model.  The result is what [.dict()]
    gives on the validated object: every declared field, in declaration
    order, with the value as converted, or with its default when the body
    leaves it out; keys of the body that the model does not declare are
    ignored.  [None] is the
    validation error (FastAPI answers 422 and the endpoint never runs). *)
Fixpoint validate_fields (fs : list field) (body : list (string * json))
  : option (list (string * json)) :=
  match fs with
  | [] => Some []
  | f :: rest =>
      match dict_get (f_name f) body with
      | Some v =>
          v' ← validate_value (f_type f) v;
          tl ← validate_fields rest body; Some ((f_name f, v') :: tl)
      | None =>
          d ← f_default f;
          tl ← validate_fields rest body; Some ((f_name f, d) :: tl)
      end
  end.

Definition validate (model : list field) (body : json)
  : option (list (string * json)) :=
  match body with
  | JObj fields => validate_fields model fields
  | _ => None
  end.

(** ** Server state *)

(** [RequestStatus.status]: "queued" | "processing" | "complete" | "error" *)
Inductive Status : Type := Queued | Processing | Complete | Error.

Record RequestStatus : Type := mkRequestStatus {
  status : Status;
  client_id : string;
  created_at : string;
  started_at : option string;
  completed_at : option string;
  result : option string;
  error : option string;
  queue_entered_position : option nat
}.

(** An entry of [request_queue]. *)
Record QueueItem : Type := mkQueueItem {
  qi_request_id : string;
  qi_client_id : string;
  qi_request_data : list (string * json)
}.

(** What travels through a per-request [asyncio.Queue] of [stream_chunks]:
    a content string, [None] after the last one, or [{"error": msg}]. *)
Inductive Chunk : Type :=
| CText (content : string)
| CNone
| CError (msg : string).

Record QueueStats : Type := mkQueueStats {
  total_received : nat;
  total_processed : nat;
  total_errors : nat;
  current_request_id : option string
}.

(** Where the worker coroutine is suspended. *)
Inductive WorkerPc : Type :=
| WIdle                                       (* in [request_queue.get()] *)
| WCreating (rid : string)                    (* in [chat.completions.create] *)
| WStreaming (rid : string) (full_response : string).   (* in [async for] *)

(** The two streaming generators. *)
Inductive Variant : Type :=
| MinimalSSE      (* [event_generator] of /stream/{request_id} *)
| OpenAISSE.      (* [openai_stream_generator] of /v1/chat/completions *)

(** What a generator yields. *)
Inductive Event : Type :=
| EvPosition (n : nat)             (* data: {"position": n} *)
| EvChunk (text : string)          (* data: {"chunk": text} *)
| EvDone                           (* data: {"done": true} *)
| EvError (msg : option string)    (* data: {"error": msg} *)
| CmtQueueEntered (n : option nat) (* : queue_entered=n *)
| CmtQueuePosition (n : nat)       (* : queue_position=n *)
| OaiContent (text : string)       (* chat.completion.chunk with delta.content *)
| OaiFinish                        (* chunk with finish_reason "stop" *)
| OaiSentinel                      (* data: [DONE] *)
| OaiError (msg : string).         (* data: {"error": {"message": msg, ...}} *)

(** Where a streaming generator is suspended. *)
Inductive HandlerPc : Type :=
| HStart                              (* created, not yet started (OpenAISSE only) *)
| HPolling (last_position : option nat)   (* in the "queued" loop *)
| HProcessingNote                     (* at [yield ": queue_position=0\n"] *)
| HWaitRelay                          (* in [while request_id not in stream_chunks] *)
| HDraining (chunk_queue : nat)       (* in the drain loop, holding the queue *)
| HCleanup                            (* at the terminal yield of the drain loop *)
| HDone.

Record Handler : Type := mkHandler {
  h_variant : Variant;
  h_rid : string;
  h_pc : HandlerPc;
  h_out : list Event          (* everything yielded so far, oldest first *)
}.

(** The module-level objects, the [asyncio.Queue] objects created by the
    worker ([chunk_queues], addressed by position: [stream_chunks] and the
    generators' [chunk_queue] variables hold such addresses, so a generator
    keeps its queue after the dict entry is deleted), and the coroutines. *)
Record State : Type := mkState {
  request_queue : list QueueItem;
  status_tracker : gmap string RequestStatus;
  stream_chunks : gmap string nat;
  chunk_queues : list (list Chunk);
  queue_stats : QueueStats;
  worker : WorkerPc;
  handlers : list Handler
}.

Definition initial_state : State :=
  mkState [] ∅ ∅ [] (mkQueueStats 0 0 0 None) WIdle [].

(** Assignments to one module-level object. *)
Definition set_request_queue (q : list QueueItem) (s : State) : State :=
  mkState q (status_tracker s) (stream_chunks s) (chunk_queues s)
          (queue_stats s) (worker s) (handlers s).
Definition set_status_tracker (t : gmap string RequestStatus) (s : State) : State :=
  mkState (request_queue s) t (stream_chunks s) (chunk_queues s)
          (queue_stats s) (worker s) (handlers s).
Definition set_stream_chunks (m : gmap string nat) (s : State) : State :=
  mkState (request_queue s) (status_tracker s) m (chunk_queues s)
          (queue_stats s) (worker s) (handlers s).
Definition set_chunk_queues (h : list (list Chunk)) (s : State) : State :=
  mkState (request_queue s) (status_tracker s) (stream_chunks s) h
          (queue_stats s) (worker s) (handlers s).
Definition set_queue_stats (q : QueueStats) (s : State) : State :=
  mkState (request_queue s) (status_tracker s) (stream_chunks s) (chunk_queues s)
          q (worker s) (handlers s).
Definition set_worker (w : WorkerPc) (s : State) : State :=
  mkState (request_queue s) (status_tracker s) (stream_chunks s) (chunk_queues s)
          (queue_stats s) w (handlers s).
Definition set_handlers (hs : list Handler) (s : State) : State :=
  mkState (request_queue s) (status_tracker s) (stream_chunks s) (chunk_queues s)
          (queue_stats s) (worker s) hs.

(** [request_queue.qsize()] *)
Definition qsize (s : State) : nat := length (request_queue s).

(** ** Admission *)

Record QueueResponse : Type := mkQueueResponse {
  resp_status : Status;
  resp_request_id : string;
  resp_queue_position : nat
}.

(** The body shared by [add_to_queue] and the head of
    [openai_chat_completions]: position from [qsize() + 1], a new "queued"
    record, the item appended to the queue, [total_received] incremented.
    [request_id] is the fresh [uuid.uuid4()], [now] is [datetime.now()]. *)
Definition enqueue (request_id now cid : string)
    (request_data : list (string * json)) (s : State) : State * nat :=
  let queue_position := qsize s + 1 in
  let rec := mkRequestStatus Queued cid now None None None None
                             (Some queue_position) in
  let item := mkQueueItem request_id cid request_data in
  let st := queue_stats s in
  (mkState (request_queue s ++ [item])
           (<[request_id := rec]> (status_tracker s))
           (stream_chunks s) (chunk_queues s)
           (mkQueueStats (total_received st + 1) (total_processed st)
                         (total_errors st) (current_request_id st))
           (worker s) (handlers s),
   queue_position).

(** [add_to_queue(request: QueueRequest)], on a validated request. *)
Definition add_to_queue (request_id now : string)
    (request : list (string * json)) (s : State) : State * QueueResponse :=
  let cid := match dict_get "client_id" request with
             | Some (JStr c) => c
             | _ => ""
             end in
  let '(s', queue_position) := enqueue request_id now cid request s in
  (s', mkQueueResponse Queued request_id queue_position).

(** POST /queue/add: FastAPI validates the body against [QueueRequest]
    before [add_to_queue] runs; [None] is the validation error. *)
Definition post_queue_add (request_id now : string) (body : json) (s : State)
  : State * option QueueResponse :=
  match validate QueueRequest body with
  | None => (s, None)
  | Some request =>
      let '(s', r) := add_to_queue request_id now request s in (s', Some r)
  end.

(** POST /v1/chat/completions up to the [if request.stream:] test; with
    [stream] set the generator is created, and started by a later step. *)
Definition post_chat_completions (request_id now : string) (body : json)
    (s : State) : State :=
  match validate OpenAIChatRequest body with
  | None => s
  | Some request =>
      let '(s', _) := enqueue request_id now "openai_compat" request s in
      match dict_get "stream" request with
      | Some (JBool true) =>
          set_handlers (handlers s' ++ [mkHandler OpenAISSE request_id HStart []]) s'
      | _ => s'
      end
  end.

(** GET /stream/{request_id}: not-found for an unknown identifier, else a
    new [event_generator], started by a later step. *)
Definition get_stream (request_id : string) (s : State) : State :=
  match status_tracker s !! request_id with
  | None => s
  | Some _ =>
      set_handlers (handlers s ++ [mkHandler MinimalSSE request_id (HPolling None) []]) s
  end.

(** ** The worker: [queue_worker] *)

(** [await q.put(c)] on an unbounded [asyncio.Queue] at address [q]: it
    never suspends. *)
Definition put (q : nat) (c : Chunk) (s : State) : State :=
  set_chunk_queues (alter (fun l => l ++ [c]) q (chunk_queues s)) s.

(** Attribute assignments on [status_tracker[request_id]].  The worker only
    makes them after line 150 succeeded for the same identifier and entries
    are never deleted, so the subscript finds the record. *)
Definition update_record (rid : string) (f : RequestStatus -> RequestStatus)
    (s : State) : State :=
  set_status_tracker (alter f rid (status_tracker s)) s.

Definition mark_processing (now : string) (r : RequestStatus) : RequestStatus :=
  mkRequestStatus Processing (client_id r) (created_at r) (Some now)
    (completed_at r) (result r) (error r) (queue_entered_position r).

Definition mark_complete (now full_response : string) (r : RequestStatus)
  : RequestStatus :=
  mkRequestStatus Complete (client_id r) (created_at r) (started_at r)
    (Some now) (Some full_response) (error r) (queue_entered_position r).

Definition mark_error (now msg : string) (r : RequestStatus) : RequestStatus :=
  mkRequestStatus Error (client_id r) (created_at r) (started_at r)
    (Some now) (result r) (Some msg) (queue_entered_position r).

Definition set_current (c : option string) (st : QueueStats) : QueueStats :=
  mkQueueStats (total_received st) (total_processed st) (total_errors st) c.

(** Lines 140-155, up to the [await] of the completion call: dequeue, mark
    "processing", set the current identifier, create the relay queue.  An
    empty queue is the one-second timeout ([continue]).  A missing record is
    a [KeyError] at line 150, caught by the outer handler: the item is gone
    and the loop goes on. *)
Definition worker_get (now : string) (s : State) : option State :=
  match worker s with
  | WIdle =>
      match request_queue s with
      | [] => Some s
      | item :: rest =>
          let rid := qi_request_id item in
          match status_tracker s !! rid with
          | None => Some (set_request_queue rest s)
          | Some r =>
              Some (mkState rest
                      (<[rid := mark_processing now r]> (status_tracker s))
                      (<[rid := length (chunk_queues s)]> (stream_chunks s))
                      (chunk_queues s ++ [[]])
                      (set_current (Some rid) (queue_stats s))
                      (WCreating rid)
                      (handlers s))
          end
      end
  | _ => None
  end.

(** Lines 202-216, the handler of [except Exception as processing_error]
    with [msg = str(processing_error)]: the error marker is put when the
    relay entry is there, then the record and the counters are updated and
    the loop goes back to [request_queue.get()]. *)
Definition processing_error (rid msg now : string) (s : State) : State :=
  let s1 := match stream_chunks s !! rid with
            | Some q => put q (CError msg) s
            | None => s
            end in
  let s2 := update_record rid (mark_error now msg) s1 in
  let st := queue_stats s2 in
  set_worker WIdle
    (set_queue_stats (mkQueueStats (total_received st) (total_processed st)
                                   (total_errors st + 1) None) s2).

(** [str(KeyError(rid))] *)
Definition key_error (rid : string) : string := "'" +:+ rid +:+ "'".

(** Line 181 returned the stream. *)
Definition llm_created (s : State) : option State :=
  match worker s with
  | WCreating rid => Some (set_worker (WStreaming rid "") s)
  | _ => None
  end.

(** Lines 185-189, one iteration of [async for chunk in stream]; [content]
    is [chunk.choices[0].delta.content] ([None] also when there are no
    choices).  Falsy content is skipped. *)
Definition llm_chunk (content : option string) (now : string) (s : State)
  : option State :=
  match worker s with
  | WStreaming rid full_response =>
      match content with
      | None | Some "" => Some s
      | Some c =>
          match stream_chunks s !! rid with
          | Some q =>
              Some (set_worker (WStreaming rid (full_response +:+ c))
                      (put q (CText c) s))
          | None => Some (processing_error rid (key_error rid) now s)
          end
      end
  | _ => None
  end.

(** Lines 191-198, the stream ended: the [None] marker, then "complete". *)
Definition llm_finished (now : string) (s : State) : option State :=
  match worker s with
  | WStreaming rid full_response =>
      match stream_chunks s !! rid with
      | Some q =>
          let s1 := put q CNone s in
          let s2 := update_record rid (mark_complete now full_response) s1 in
          let st := queue_stats s2 in
          Some (set_worker WIdle
                  (set_queue_stats
                     (mkQueueStats (total_received st) (total_processed st + 1)
                                   (total_errors st) None) s2))
      | None => Some (processing_error rid (key_error rid) now s)
      end
  | _ => None
  end.

(** The completion call or the iteration over its stream raised. *)
Definition llm_raised (msg now : string) (s : State) : option State :=
  match worker s with
  | WCreating rid | WStreaming rid _ => Some (processing_error rid msg now s)
  | WIdle => None
  end.

(** ** The streaming generators *)

Definition emit (evs : list Event) (pc : HandlerPc) (h : Handler) : Handler :=
  mkHandler (h_variant h) (h_rid h) pc (h_out h ++ evs).

(** [status_tracker[request_id].error or "Unknown error"] *)
Definition error_or_unknown (e : option string) : string :=
  match e with
  | None | Some "" => "Unknown error"
  | Some m => m
  end.

(** Lines 318-321 and 421-424, one test of [request_id not in stream_chunks]. *)
Definition wait_relay (s : State) (h : Handler) : Handler :=
  match stream_chunks s !! h_rid h with
  | Some q => emit [] (HDraining q) h
  | None => emit [] HWaitRelay h
  end.

(** One run of a generator from where it is suspended to its next
    suspension, as a change to the generator and to the shared state.
    [None]: it cannot run (finished, or blocked in [chunk_queue.get()] on an
    empty queue).  A missing record is a [KeyError] that ends the generator. *)
Definition handler_run (h : Handler) (s : State) : option (Handler * State) :=
  match h_pc h with
  | HStart =>
      match status_tracker s !! h_rid h with
      | None => Some (emit [] HDone h, s)
      | Some r =>
          Some (emit [CmtQueueEntered (queue_entered_position r)] (HPolling None) h, s)
      end
  | HPolling last_position =>
      match status_tracker s !! h_rid h with
      | None => Some (emit [] HDone h, s)
      | Some r =>
          match h_variant h with
          | MinimalSSE =>
              match status r with
              | Queued => Some (emit [EvPosition (qsize s)] (HPolling None) h, s)
              | Error => Some (emit [EvError (error r)] HDone h, s)
              | _ => Some (wait_relay s h, s)
              end
          | OpenAISSE =>
              match status r with
              | Queued =>
                  let current_position := qsize s in
                  if decide (Some current_position = last_position)
                  then Some (emit [] (HPolling last_position) h, s)
                  else Some (emit [CmtQueuePosition current_position]
                                  (HPolling (Some current_position)) h, s)
              | _ => Some (emit [CmtQueuePosition 0] HProcessingNote h, s)
              end
          end
      end
  | HProcessingNote =>
      match status_tracker s !! h_rid h with
      | None => Some (emit [] HDone h, s)
      | Some r =>
          match status r with
          | Error => Some (emit [OaiError (error_or_unknown (error r))] HDone h, s)
          | _ => Some (wait_relay s h, s)
          end
      end
  | HWaitRelay => Some (wait_relay s h, s)
  | HDraining q =>
      match chunk_queues s !! q with
      | Some (chunk :: rest) =>
          let s' := set_chunk_queues (<[q := rest]> (chunk_queues s)) s in
          match h_variant h, chunk with
          | MinimalSSE, CNone => Some (emit [EvDone] HCleanup h, s')
          | MinimalSSE, CError m => Some (emit [EvError (Some m)] HCleanup h, s')
          | MinimalSSE, CText c => Some (emit [EvChunk c] (HDraining q) h, s')
          | OpenAISSE, CNone => Some (emit [OaiFinish; OaiSentinel] HCleanup h, s')
          | OpenAISSE, CError m => Some (emit [OaiError m] HCleanup h, s')
          | OpenAISSE, CText c => Some (emit [OaiContent c] (HDraining q) h, s')
          end
      | _ => None
      end
  | HCleanup =>
      Some (emit [] HDone h, set_stream_chunks (delete (h_rid h) (stream_chunks s)) s)
  | HDone => None
  end.

Definition stream_resume (i : nat) (s : State) : option State :=
  h ← handlers s !! i;
  '(h', s') ← handler_run h s;
  Some (set_handlers (<[i := h']> (handlers s')) s').

(** ** The transition system *)

Inductive Action : Type :=
| PostQueueAdd (request_id now : string) (body : json)
| PostChatCompletions (request_id now : string) (body : json)
| GetStream (request_id : string)
| StreamResume (i : nat)
| WorkerGet (now : string)
| LlmCreated
| LlmChunk (content : option string) (now : string)
| LlmFinished (now : string)
| LlmRaised (msg now : string).

(** [uuid.uuid4()] gives an identifier that is not in use: an admission
    with a used identifier is not a transition. *)
Definition step (a : Action) (s : State) : option State :=
  match a with
  | PostQueueAdd rid now body =>
      match status_tracker s !! rid with
      | None => Some (fst (post_queue_add rid now body s))
      | Some _ => None
      end
  | PostChatCompletions rid now body =>
      match status_tracker s !! rid with
      | None => Some (post_chat_completions rid now body s)
      | Some _ => None
      end
  | GetStream rid => Some (get_stream rid s)
  | StreamResume i => stream_resume i s
  | WorkerGet now => worker_get now s
  | LlmCreated => llm_created s
  | LlmChunk content now => llm_chunk content now s
  | LlmFinished now => llm_finished now s
  | LlmRaised msg now => llm_raised msg now s
  end.

(** Running a list of actions, first to last. *)
Fixpoint exec (acts : list Action) (s : State) : option State :=
  match acts with
  | [] => Some s
  | a :: rest => s' ← step a s; exec rest s'
  end.


(** ** The non-streaming branch of /v1/chat/completions *)

Inductive ChatResponse : Type :=
| RespTimeout                           (* {"error": {"message": "Request timed out", "type": "timeout"}} *)
| RespServerError (msg : string)        (* {"error": {"message": msg, "type": "server_error"}} *)
| RespCompletion (content : option string).   (* the chat.completion object *)

Definition timeout_seconds : Q := 300.

(** One test of the loop at line 480 with [loop.time() = now], on the
    record [status_tracker[request_id]]: [None] is [await asyncio.sleep(0.1)]
    and another test; otherwise the value returned to the caller. *)
Definition nonstream_poll (start_time now : Q) (r : RequestStatus)
  : option ChatResponse :=
  match status r with
  | Queued | Processing =>
      if Qle_bool (now - start_time) timeout_seconds then None
      else Some RespTimeout
  | Error => Some (RespServerError (error_or_unknown (error r)))
  | Complete => Some (RespCompletion (result r))
  end.

(** The loop over what it observes at its successive tests: the record and
    the clock.  [None]: still waiting after the last observation. *)
Fixpoint nonstream_wait (start_time : Q) (obs : list (RequestStatus * Q))
  : option ChatResponse :=
  match obs with
  | [] => None
  | (r, now) :: rest =>
      match nonstream_poll start_time now r with
      | Some resp => Some resp
      | None => nonstream_wait start_time rest
      end
  end.

(** [asyncio.sleep(0.1)] separates two tests: the first one is not before
    [earliest], and each later one comes a tenth of a second or more after
    the one before it. *)
Fixpoint paced (earliest : Q) (obs : list (RequestStatus * Q)) : bool :=
  match obs with
  | [] => true
  | (_, now) :: rest => Qle_bool earliest now && paced (now + (1 # 10)) rest
  end.

(** ** Notions used by the properties *)

Definition worker_rid (w : WorkerPc) : option string :=
  match w with
  | WIdle => None
  | WCreating rid | WStreaming rid _ => Some rid
  end.

Definition worker_acc (w : WorkerPc) : string :=
  match w with
  | WStreaming _ full_response => full_response
  | _ => ""
  end.

Definition terminal_status (st : Status) : Prop := st = Complete \/ st = Error.

(** The terminal events of the two protocols: done / finish, or error. *)
Definition is_terminal (ev : Event) : bool :=
  match ev with
  | EvDone | EvError _ | OaiFinish | OaiError _ => true
  | _ => false
  end.

Definition count_terminal (out : list Event) : nat :=
  length (filter (fun ev => is_terminal ev = true) out).

(** The texts of the chunk events of a stream, in order. *)
Fixpoint chunk_texts (out : list Event) : list string :=
  match out with
  | [] => []
  | EvChunk t :: rest | OaiContent t :: rest => t :: chunk_texts rest
  | _ :: rest => chunk_texts rest
  end.

(** Concatenation of a list of strings, in order. *)
Definition join (l : list string) : string := foldr String.append "" l.

(** The request identifiers admitted by an action, and by a run. *)
Definition admits (a : Action) : list string :=
  match a with
  | PostQueueAdd rid _ body =>
      match validate QueueRequest body with Some _ => [rid] | None => [] end
  | PostChatCompletions rid _ body =>
      match validate OpenAIChatRequest body with Some _ => [rid] | None => [] end
  | _ => []
  end.

Definition admission_order (acts : list Action) : list string :=
  concat (admits <$> acts).

(** No streaming generator was created for [rid]. *)
Definition unattended (s : State) (rid : string) : Prop :=
  forall i h, handlers s !! i = Some h -> h_rid h <> rid.

(** At most one streaming generator was created for [rid]. *)
Definition sole_reader (s : State) (rid : string) : Prop :=
  forall i j hi hj,
    handlers s !! i = Some hi -> handlers s !! j = Some hj ->
    h_rid hi = rid -> h_rid hj = rid -> i = j.

(** How many times the generator [i] is resumed in a run. *)
Fixpoint resumptions (i : nat) (acts : list Action) : nat :=
  match acts with
  | [] => 0
  | StreamResume j :: rest =>
      (if decide (i = j) then 1 else 0) + resumptions i rest
  | _ :: rest => resumptions i rest
  end.

(** What a stream has of a done / finish event. *)
Definition is_done (ev : Event) : bool :=
  match ev with
  | EvDone | OaiFinish => true
  | _ => false
  end.

(** What the body gives for the field [f] passes validation: a value that
    converts to the annotation, or no value when the field has a default. *)
Definition field_ok (fields : list (string * json)) (f : field) : Prop :=
  match dict_get (f_name f) fields with
  | Some v => is_Some (validate_value (f_type f) v)
  | None => is_Some (f_default f)
  end.

(** The generator has not yet made its test for an "error" record (line 314
    of [event_generator], line 412 of [openai_stream_generator]). *)
Definition before_error_check (pc : HandlerPc) : bool :=
  match pc with
  | HStart | HPolling _ | HProcessingNote => true
  | _ => false
  end.

(** How many resumptions take a generator to the end of that test when the
    record is in "error". *)
Definition checks_left (pc : HandlerPc) : nat :=
  match pc with
  | HStart => 3
  | HPolling _ => 2
  | HProcessingNote => 1
  | _ => 0
  end.

(** ** Invariants *)

(** A generator that holds a queue holds the one of its request, or one
    that is no longer in [stream_chunks] once the request is over; a
    generator past its terminal yield belongs to a request that is over and
    has yielded a terminal event. *)
Definition handler_ok (s : State) (h : Handler) : Prop :=
  exists r,
    status_tracker s !! h_rid h = Some r /\
    match h_pc h with
    | HDraining q =>
        q < length (chunk_queues s) /\
        (stream_chunks s !! h_rid h = Some q \/
         ((forall rid, stream_chunks s !! rid <> Some q) /\
          terminal_status (status r)))
    | HCleanup => terminal_status (status r) /\ 1 <= count_terminal (h_out h)
    | _ => True
    end.

Record inv (s : State) : Prop := mkInv {
  inv_queue_records :
    forall item, item ∈ request_queue s ->
      exists r, status_tracker s !! qi_request_id item = Some r /\
                status r = Queued;
  inv_queue_nodup : NoDup (qi_request_id <$> request_queue s);
  inv_current :
    current_request_id (queue_stats s) = worker_rid (worker s);
  inv_busy :
    forall rid, worker_rid (worker s) = Some rid ->
      exists r q l,
        status_tracker s !! rid = Some r /\ status r = Processing /\
        stream_chunks s !! rid = Some q /\
        chunk_queues s !! q = Some (CText <$> l);
  inv_processing :
    forall rid r, status_tracker s !! rid = Some r ->
      status r = Processing -> worker_rid (worker s) = Some rid;
  inv_chunks_range :
    forall rid q, stream_chunks s !! rid = Some q ->
      q < length (chunk_queues s);
  inv_chunks_inj :
    forall rid1 rid2 q, stream_chunks s !! rid1 = Some q ->
      stream_chunks s !! rid2 = Some q -> rid1 = rid2;
  inv_chunks_status :
    forall rid q, stream_chunks s !! rid = Some q ->
      exists r, status_tracker s !! rid = Some r /\ status r <> Queued;
  inv_handlers :
    forall i h, handlers s !! i = Some h -> handler_ok s h
}.

(** The relay of [rid] as a reader that has drained the texts [dr] and that
    no other reader shares finds it: what is left in the queue completes
    [dr] to what the worker has accumulated, and the terminal marker is at
    the end once the request is over. *)
Definition relay_shape (s : State) (rid : string) (r : RequestStatus)
    (dr : list string) : Prop :=
  match status r with
  | Queued => True
  | Processing =>
      exists q rest,
        stream_chunks s !! rid = Some q /\
        chunk_queues s !! q = Some (CText <$> rest) /\
        worker_acc (worker s) = join (dr ++ rest)
  | Complete =>
      exists q rest,
        stream_chunks s !! rid = Some q /\
        chunk_queues s !! q = Some ((CText <$> rest) ++ [CNone]) /\
        result r = Some (join (dr ++ rest))
  | Error =>
      exists q rest msg,
        stream_chunks s !! rid = Some q /\
        chunk_queues s !! q = Some ((CText <$> rest) ++ [CError msg]) /\
        error r = Some msg
  end.

(** The generator is past its terminal yield. *)
Definition finished (pc : HandlerPc) : bool :=
  match pc with
  | HCleanup | HDone => true
  | _ => false
  end.

(** A generator has yielded one terminal event when it is past its terminal
    yield, and none before. *)
Definition terminal_once (s : State) : Prop :=
  forall i h, handlers s !! i = Some h ->
    count_terminal (h_out h) = if finished (h_pc h) then 1 else 0.

(** The generator [i] waits for a relay entry that is gone for good: its
    request is complete, nothing is under its identifier in [stream_chunks],
    and the generator is in its "queued" loop or in the loop of lines
    318-319 / 421-422 with no terminal event yielded. *)
Definition waits_in_vain (i : nat) (rid : string) (s : State) : Prop :=
  (exists r, status_tracker s !! rid = Some r /\ status r = Complete) /\
  stream_chunks s !! rid = None /\
  exists h, handlers s !! i = Some h /\ h_rid h = rid /\
            h_variant h = MinimalSSE /\
            (h_pc h = HPolling None \/ h_pc h = HWaitRelay) /\
            h_out h = [].

Definition reader_shape (s : State) (h : Handler) (r : RequestStatus) : Prop :=
  if finished (h_pc h) then
    terminal_status (status r) /\
    count_terminal (h_out h) = 1 /\
    (status r = Complete -> result r = Some (join (chunk_texts (h_out h)))) /\
    (status r = Error -> Forall (fun ev => is_done ev = false) (h_out h))
  else
    count_terminal (h_out h) = 0 /\
    relay_shape s (h_rid h) r (chunk_texts (h_out h)) /\
    (forall q, h_pc h = HDraining q -> stream_chunks s !! h_rid h = Some q) /\
    (status r = Queued -> chunk_texts (h_out h) = []).

(** The request [rid] as long as at most one generator reads its relay. *)
Definition shaped (s : State) (rid : string) : Prop :=
  (forall r, status_tracker s !! rid = Some r ->
             unattended s rid -> relay_shape s rid r []) /\
  (forall i h r, handlers s !! i = Some h -> h_rid h = rid ->
                 status_tracker s !! rid = Some r ->
                 sole_reader s rid -> reader_shape s h r).

Definition inv_sole (s : State) : Prop := forall rid, shaped s rid.

(** The request an action works on. *)
Definition touched (a : Action) (s : State) : option string :=
  match a with
  | PostQueueAdd rid _ _ | PostChatCompletions rid _ _ | GetStream rid => Some rid
  | StreamResume i => h_rid <$> handlers s !! i
  | WorkerGet _ => qi_request_id <$> head (request_queue s)
  | LlmCreated | LlmChunk _ _ | LlmFinished _ | LlmRaised _ _ =>
      worker_rid (worker s)
  end.

(** Between [s] and [s'] nothing happened to the request [rid]: its record,
    its relay entry and queue, its generators, and the accumulator of the
    worker when it is the request in hand. *)
Definition untouched (s s' : State) (rid : string) : Prop :=
  status_tracker s' !! rid = status_tracker s !! rid /\
  stream_chunks s' !! rid = stream_chunks s !! rid /\
  (forall q, stream_chunks s !! rid = Some q ->
             chunk_queues s' !! q = chunk_queues s !! q) /\
  (forall r, status_tracker s !! rid = Some r -> status r = Processing ->
             worker_acc (worker s') = worker_acc (worker s)) /\
  (forall i h, h_rid h = rid ->
               (handlers s' !! i = Some h <-> handlers s !! i = Some h)).

(** How many chunks wait in the relay of [rid]. *)
Definition relay_backlog (s : State) (rid : string) : nat :=
  match stream_chunks s !! rid with
  | Some q => length (default [] (chunk_queues s !! q))
  | None => 0
  end.

(** A bound on the resumptions a generator needs to finish once its request
    is over and it reads alone. *)
Definition remaining (s : State) (h : Handler) : nat :=
  match h_pc h with
  | HStart => 5 + relay_backlog s (h_rid h)
  | HPolling _ => 4 + relay_backlog s (h_rid h)
  | HProcessingNote => 3 + relay_backlog s (h_rid h)
  | HWaitRelay => 2 + relay_backlog s (h_rid h)
  | HDraining q => 1 + length (default [] (chunk_queues s !! q))
  | HCleanup => 1
  | HDone => 0
  end.

(** The admission order as the state holds it: the requests that are over,
    then the one the worker has, then the queue. *)
Definition fifo_shape (order : list string) (s : State) : Prop :=
  exists served,
    order = served ++ option_list (worker_rid (worker s))
                   ++ (qi_request_id <$> request_queue s) /\
    Forall (fun x => exists r, status_tracker s !! x = Some r /\
                               terminal_status (status r)) served.

(** The generator [i] is [h], blocked for good: it holds the queue [q],
    which is empty and which no entry of [stream_chunks] names any more. *)
Definition stuck_reader (i : nat) (h : Handler) (q : nat) (s : State) : Prop :=
  handlers s !! i = Some h /\
  h_pc h = HDraining q /\
  chunk_queues s !! q = Some [] /\
  forall rid, stream_chunks s !! rid <> Some q.

(** What a step from [s] to [s'] added at the end of the queue [q]. *)
Definition appended (s s' : State) (q : nat) : list Chunk :=
  drop (length (default [] (chunk_queues s !! q)))
       (default [] (chunk_queues s' !! q)).

(** What the worker publishes to the relay of [rid] in the step [a] from
    [s]: what that step adds to the relay queue of the request the worker
    has in hand. *)
Definition published_by (a : Action) (s : State) (rid : string) : list Chunk :=
  match a with
  | LlmChunk _ _ | LlmFinished _ | LlmRaised _ _ =>
      if decide (worker_rid (worker s) = Some rid) then
        match stream_chunks s !! rid, step a s with
        | Some q, Some s' => appended s s' q
        | _, _ => []
        end
      else []
  | _ => []
  end.

(** Everything published to the relay of [rid] in a run from [s]. *)
Fixpoint published (acts : list Action) (s : State) (rid : string) : list Chunk :=
  match acts with
  | [] => []
  | a :: rest =>
      match step a s with
      | Some s' => published_by a s rid ++ published rest s' rid
      | None => []
      end
  end.

(** The text fragments among published chunks, in order. *)
Fixpoint fragments (cs : list Chunk) : list string :=
  match cs with
  | [] => []
  | CText c :: rest => c :: fragments rest
  | _ :: rest => fragments rest
  end.

(** What has been published for [rid] so far, [p], against its record. *)
Definition published_shape (p : list Chunk) (s : State) (rid : string) : Prop :=
  match status_tracker s !! rid with
  | None => p = []
  | Some r =>
      match status r with
      | Queued => p = []
      | Processing =>
          worker_rid (worker s) = Some rid /\
          exists l, p = CText <$> l /\ worker_acc (worker s) = join l
      | Complete =>
          exists l, p = (CText <$> l) ++ [CNone] /\ result r = Some (join l)
      | Error => True
      end
  end.

(** Position of an identifier in the admission order of a run. *)
Definition admitted_before (acts : list Action) (a b : string) : Prop :=
  exists l1 l2 l3, admission_order acts = l1 ++ a :: l2 ++ b :: l3.

(** ** Concrete requests and runs *)

Definition body_of (cid : string) (messages : list json) : json :=
  JObj [("client_id", JStr cid); ("messages", JList messages); ("model", JStr "m")].

Definition hello_message : json :=
  JObj [("role", JStr "user"); ("content", JStr "Hello")].

(** A body with an empty message list and one whose message has none of the
    usual keys. *)
Definition body_empty_messages : json := body_of "ui" [].
Definition body_odd_message : json := body_of "ui" [JObj [("foo", JInt 1)]].

(** An OpenAI-shaped body asking for a stream. *)
Definition body_openai_stream : json :=
  JObj [("model", JStr "m"); ("messages", JList [hello_message]);
        ("stream", JBool true)].

(** One request in the worker's hands and a second one waiting behind it;
    a generator of /stream on the second one makes two tests of its
    "queued" loop, the queue depth being 1 at both. *)
Definition run_two_polls : list Action :=
  [PostQueueAdd "a" "t0" (body_of "ui" [hello_message]);
   WorkerGet "t1";
   PostQueueAdd "b" "t2" (body_of "ui" [hello_message]);
   GetStream "b"; StreamResume 0; StreamResume 0].

(** One request, two generators of /stream on it; the worker publishes
    "Hello" and " world" and completes; the first generator takes "Hello",
    the second takes " world" and the end marker and removes the entry. *)
Definition run_two_readers : list Action :=
  [PostQueueAdd "a" "t0" (body_of "ui" [hello_message]);
   GetStream "a"; GetStream "a";
   WorkerGet "t1";
   StreamResume 0; StreamResume 1;
   LlmCreated;
   LlmChunk (Some "Hello") "t2"; StreamResume 0;
   LlmChunk (Some " world") "t3"; LlmFinished "t4";
   StreamResume 1; StreamResume 1; StreamResume 1].

Definition state_after (acts : list Action) : State :=
  default initial_state (exec acts initial_state).

(** The record stays "queued" while the clock passes 300 seconds. *)
Definition queued_record : RequestStatus :=
  mkRequestStatus Queued "openai_compat" "t0" None None None None (Some 1).

Definition stuck_queued (n : nat) : list (RequestStatus * Q) :=
  (fun k => (queued_record, inject_Z (Z.of_nat k) * (1 # 10))%Q) <$> seq 0 n.

(** One request taken by the worker, the completion call in flight. *)
Definition run_in_flight : list Action :=
  [PostQueueAdd "a" "t0" (body_of "ui" [hello_message]);
   PostQueueAdd "b" "t1" (body_of "ui" [hello_message]);
   WorkerGet "t2"].

(** One request served to the end ("Hello", " world") with no stream opened
    on it. *)
Definition run_unattended : list Action :=
  [PostQueueAdd "a" "t0" (body_of "ui" [hello_message]);
   WorkerGet "t1"; LlmCreated;
   LlmChunk (Some "Hello") "t2"; LlmChunk (Some " world") "t3";
   LlmFinished "t4"].

(** The same with one stream opened once the request is complete. *)
Definition run_late_reader : list Action :=
  run_unattended ++ [GetStream "a"].

(** Resumptions of that stream, with other traffic in between. *)
Definition run_late_reader_drains : list Action :=
  [StreamResume 0; PostQueueAdd "b" "t5" (body_of "ui" [hello_message]);
   StreamResume 0; WorkerGet "t6"; StreamResume 0; StreamResume 0;
   LlmCreated; StreamResume 0].

(** One request, two generators of /stream on it that are still in their
    "queued" loop when the completion call raises. *)
Definition run_two_readers_error : list Action :=
  [PostQueueAdd "a" "t0" (body_of "ui" [hello_message]);
   GetStream "a"; GetStream "a";
   WorkerGet "t1"; LlmRaised "boom" "t2"].

(** Resumptions of the two, with other traffic in between. *)
Definition run_two_readers_error_end : list Action :=
  [StreamResume 1; PostQueueAdd "b" "t3" (body_of "ui" [hello_message]);
   StreamResume 0; WorkerGet "t4"].

(** After [run_two_readers] a third generator of /stream is opened on the
    request, which is complete and whose relay entry the second generator
    has removed. *)
Definition run_late_second_reader : list Action :=
  run_two_readers ++ [GetStream "a"].

(** Bodies for /queue/add: a client tag that is a number; a temperature that
    is [null]; numerals and 1 given for an integer, a float and a boolean,
    with a message of no known key and a key the model does not declare. *)
Definition body_number_tag : json :=
  JObj [("client_id", JInt 5); ("messages", JList [hello_message]);
        ("model", JStr "m")].

Definition body_null_temperature : json :=
  JObj [("client_id", JStr "ui"); ("messages", JList [hello_message]);
        ("model", JStr "m"); ("temperature", JNull)].

Definition body_converted : json :=
  JObj [("client_id", JStr "ui"); ("messages", JList [JObj [("foo", JInt 1)]]);
        ("model", JStr "m"); ("max_tokens", JStr "100");
        ("temperature", JStr "0.5"); ("stream", JInt 1);
        ("seed", JFloat 7); ("note", JNull)].

(** ** The arguments of the completion call *)

(** [d.get(k, default)] *)
Definition dict_get_default (k : string) (d : list (string * json))
    (default : json) : json :=
  match dict_get k d with
  | Some v => v
  | None => default
  end.

(** [d[k] = v]: the value is replaced where the key is, else the pair is
    added at the end. *)
Fixpoint dict_set (k : string) (v : json) (d : list (string * json))
  : list (string * json) :=
  match d with
  | [] => [(k, v)]
  | (k', v') :: rest =>
      if String.eqb k k' then (k, v) :: rest else (k', v') :: dict_set k v rest
  end.

(** [optional_params] of [queue_worker]. *)
Definition optional_params : list string :=
  ["max_tokens"; "top_k"; "repeat_penalty"; "stop";
   "logit_bias"; "seed"; "tools"; "tool_choice"].

(** Lines 157-179 of [queue_worker]: [llm_kwargs] from the request data of
    the dequeued item.  [request_data.get(param)] is [None] for a missing key
    as for a key holding [None]. *)
Definition build_llm_kwargs (request_data : list (string * json))
  : list (string * json) :=
  let messages := dict_get_default "messages" request_data (JList []) in
  let model := dict_get_default "model" request_data JNull in
  let llm_kwargs :=
    [("model", model);
     ("messages", messages);
     ("stream", JBool true);
     ("temperature", dict_get_default "temperature" request_data (JFloat (7 # 10)));
     ("top_p", dict_get_default "top_p" request_data (JFloat 1));
     ("frequency_penalty", dict_get_default "frequency_penalty" request_data (JFloat 0));
     ("presence_penalty", dict_get_default "presence_penalty" request_data (JFloat 0))] in
  foldl (fun kwargs param =>
           match dict_get_default param request_data JNull with
           | JNull => kwargs
           | value => dict_set param value kwargs
           end)
        llm_kwargs optional_params.

(** The keys [llm_kwargs] starts with. *)
Definition base_params : list string :=
  ["model"; "messages"; "stream"; "temperature"; "top_p";
   "frequency_penalty"; "presence_penalty"].

(** No two fields of a model share a name. *)
Definition distinct_names (model : list field) : Prop :=
  NoDup (f_name <$> model).

(** A body with an output cap, and what validation makes of it. *)
Definition body_with_cap : json :=
  JObj [("client_id", JStr "ui"); ("messages", JList [hello_message]);
        ("model", JStr "m"); ("max_tokens", JInt 100); ("seed", JNull)].

Definition data_with_cap : list (string * json) :=
  default [] (validate QueueRequest body_with_cap).

(** ** What the status endpoints read *)



(** GET /request/{request_id}: [None] is the not-found answer. *)
Definition get_request_status (request_id : string) (s : State)
  : option RequestStatus :=
  status_tracker s !! request_id.


(** The order in which a record goes through its states. *)
Definition status_le (a b : Status) : bool :=
  match a, b with
  | Queued, _ => true
  | Processing, (Processing | Complete | Error) => true
  | Complete, Complete => true
  | Error, Error => true
  | _, _ => false
  end.


(** The fields of a record that go with each state. *)
Definition record_shape (r : RequestStatus) : Prop :=
  is_Some (queue_entered_position r) /\
  match status r with
  | Queued =>
      started_at r = None /\ completed_at r = None /\
      result r = None /\ error r = None
  | Processing =>
      is_Some (started_at r) /\ completed_at r = None /\
      result r = None /\ error r = None
  | Complete =>
      is_Some (started_at r) /\ is_Some (completed_at r) /\
      is_Some (result r) /\ error r = None
  | Error =>
      is_Some (started_at r) /\ is_Some (completed_at r) /\
      result r = None /\ is_Some (error r)
  end.




(** ** The batch runner: [pages/batch_runner.py] *)

(** The truth value Python gives a JSON value in [if v:]. *)
Definition truthy (v : json) : bool :=
  match v with
  | JNull => false
  | JBool b => b
  | JInt z => negb (z =? 0)%Z
  | JFloat q => negb (Qeq_bool q 0)
  | JStr s => negb (String.eqb s "")
  | JList items => match items with [] => false | _ => true end
  | JObj fields => match fields with [] => false | _ => true end
  end.

Definition is_number (v : json) : bool :=
  match v with
  | JInt _ | JFloat _ => true
  | _ => false
  end.

(** [submit_to_queue]: the payload it posts to /queue/add. *)
Definition submit_payload (model_id : string) (params : list (string * json))
    (system_prompt content : string) : list (string * json) :=
  let messages :=
    JList [JObj [("role", JStr "system"); ("content", JStr system_prompt)];
           JObj [("role", JStr "user"); ("content", JStr content)]] in
  let payload :=
    [("client_id", JStr "tlc_playground_batch_runner");
     ("model", JStr model_id);
     ("messages", messages);
     ("temperature", dict_get_default "temperature" params (JFloat (7 # 10)));
     ("top_p", dict_get_default "top_p" params (JFloat 1));
     ("frequency_penalty", dict_get_default "frequency_penalty" params (JFloat 0));
     ("presence_penalty", dict_get_default "presence_penalty" params (JFloat 0))] in
  let max_tokens := dict_get_default "max_tokens" params JNull in
  if truthy max_tokens then dict_set "max_tokens" max_tokens payload else payload.

(** [submit_to_queue], with the server in the state [s]: the answer of
    /queue/add when the status is 200, else [None]. *)
Definition submit_to_queue (request_id now model_id : string)
    (params : list (string * json)) (system_prompt content : string) (s : State)
  : State * option QueueResponse :=
  post_queue_add request_id now
    (JObj (submit_payload model_id params system_prompt content)) s.

(** [stream_from_queue]: the loop over the data lines of /stream/{id}, each
    line decoded to the event the server encoded in it ([json.loads] of what
    [json.dumps] wrote).  A "chunk" is added to [full_content] and counted,
    "done" ends the loop, "error" is the [None] return, any other object is
    passed over; when the lines run out the loop ends as on "done". *)
Fixpoint stream_from_queue (events : list Event) (full_content : string)
    (token_count : nat) : option (string * nat) :=
  match events with
  | [] => Some (full_content, token_count)
  | EvChunk c :: rest => stream_from_queue rest (full_content +:+ c) (token_count + 1)
  | EvDone :: _ => Some (full_content, token_count)
  | EvError _ :: _ => None
  | _ :: rest => stream_from_queue rest full_content token_count
  end.

(** The events of /stream/{id} before the terminal one. *)
Definition plain (ev : Event) : bool :=
  match ev with
  | EvPosition _ | EvChunk _ => true
  | _ => false
  end.

(** What a generator of /stream/{id} has yielded: positions and chunks,
    then, once it is past its terminal yield, one done or error event. *)
Definition minimal_shape (h : Handler) : Prop :=
  h_pc h <> HStart /\ h_pc h <> HProcessingNote /\
  if finished (h_pc h)
  then exists pre ev, h_out h = pre ++ [ev] /\ Forall (fun e => plain e = true) pre /\
                      (ev = EvDone \/ exists m, ev = EvError m)
  else Forall (fun e => plain e = true) (h_out h).

Definition is_error_event (ev : Event) : bool :=
  match ev with
  | EvError _ | OaiError _ => true
  | _ => false
  end.

(** The only stream of a request that is "complete" has yielded no error
    event. *)
Definition no_error_on_complete (s : State) : Prop :=
  forall i h r,
    handlers s !! i = Some h -> status_tracker s !! h_rid h = Some r ->
    sole_reader s (h_rid h) -> status r = Complete ->
    Forall (fun ev => is_error_event ev = false) (h_out h).

(** * Properties *)

(** Case analysis on every [match] scrutinee left in a hypothesis. *)
Ltac destruct_matches H :=
  repeat match type of H with
         | context [match ?x with _ => _ end] => destruct x
         end.

(** ** Admission: queue position *)

Section Admission.
Variables (rid now cid : string) (data : list (string * json)) (s : State).

Lemma enqueue_position : snd (enqueue rid now cid data s) = qsize s + 1.
Proof. reflexivity. Qed.

Lemma enqueue_qsize : qsize (fst (enqueue rid now cid data s)) = qsize s + 1.
Proof. unfold qsize. simpl. rewrite length_app. reflexivity. Qed.

Lemma enqueue_record :
  status_tracker (fst (enqueue rid now cid data s)) !! rid
  = Some (mkRequestStatus Queued cid now None None None None (Some (qsize s + 1))).
Proof. simpl. apply lookup_insert_eq. Qed.
End Admission.

Lemma validate_fields_cons f rest fields request :
  validate_fields (f :: rest) fields = Some request ->
  exists v tl,
    request = (f_name f, v) :: tl /\
    validate_fields rest fields = Some tl /\
    ((exists v0, dict_get (f_name f) fields = Some v0 /\
                 validate_value (f_type f) v0 = Some v) \/
     (dict_get (f_name f) fields = None /\ f_default f = Some v)).
Proof.
  cbn [validate_fields].
  destruct (dict_get (f_name f) fields) as [v0|] eqn:Hg.
  - destruct (validate_value (f_type f) v0) as [v|] eqn:Ht; [|discriminate].
    destruct (validate_fields rest fields) as [tl|]; [|discriminate].
    cbn. intros [= <-]. exists v, tl.
    split; [reflexivity|]. split; [reflexivity|]. left. exists v0. auto.
  - destruct (f_default f) as [d|]; [|discriminate].
    destruct (validate_fields rest fields) as [tl|]; [|discriminate].
    cbn. intros [= <-]. exists d, tl. auto.
Qed.

(** Only a string passes for a [str] field, and it is kept. *)
Lemma validate_value_TStr v v' :
  validate_value TStr v = Some v' <-> exists c, v = JStr c /\ v' = JStr c.
Proof.
  split.
  - destruct v; cbn; try discriminate. intros [= <-]. eauto.
  - intros (c & -> & ->). reflexivity.
Qed.

Lemma validate_QueueRequest_client_id fields request :
  validate_fields QueueRequest fields = Some request ->
  exists c, dict_get "client_id" request = Some (JStr c).
Proof.
  unfold QueueRequest. intros H.
  apply validate_fields_cons in H as (v & tl & -> & _ & [(v0 & _ & Ht)|[_ Hd]]).
  - cbn [f_type] in Ht. apply validate_value_TStr in Ht as (c & _ & ->).
    exists c. reflexivity.
  - discriminate.
Qed.

Lemma post_queue_add_accepted rid now body s request :
  validate QueueRequest body = Some request ->
  exists c,
    dict_get "client_id" request = Some (JStr c) /\
    post_queue_add rid now body s =
      (fst (enqueue rid now c request s),
       Some (mkQueueResponse Queued rid (qsize s + 1))).
Proof.
  intros Hv. unfold post_queue_add. rewrite Hv.
  destruct body; try discriminate. simpl in Hv.
  destruct (validate_QueueRequest_client_id _ _ Hv) as [c Hc].
  exists c. split; [exact Hc|]. unfold add_to_queue. rewrite Hc. reflexivity.
Qed.

(** C8: an accepted /queue/add returns the queue depth measured before the
    insertion plus one and stores that value in the new record; three
    admissions in a row, with nothing dequeued in between, starting from an
    empty queue return 1, 2 and 3 in submission order. *)
Theorem C8_admission_position :
  (forall rid now body s resp,
      snd (post_queue_add rid now body s) = Some resp ->
      resp_queue_position resp = qsize s + 1 /\
      resp_request_id resp = rid /\
      exists r,
        status_tracker (fst (post_queue_add rid now body s)) !! rid = Some r /\
        status r = Queued /\
        queue_entered_position r = Some (qsize s + 1)) /\
  (forall r1 n1 b1 r2 n2 b2 r3 n3 b3 s p1 p2 p3,
      qsize s = 0 ->
      let s1 := fst (post_queue_add r1 n1 b1 s) in
      let s2 := fst (post_queue_add r2 n2 b2 s1) in
      snd (post_queue_add r1 n1 b1 s) = Some p1 ->
      snd (post_queue_add r2 n2 b2 s1) = Some p2 ->
      snd (post_queue_add r3 n3 b3 s2) = Some p3 ->
      resp_queue_position p1 = 1 /\
      resp_queue_position p2 = 2 /\
      resp_queue_position p3 = 3).
Proof.
  assert (Hone : forall rid now body s resp,
      snd (post_queue_add rid now body s) = Some resp ->
      resp_queue_position resp = qsize s + 1 /\
      resp_request_id resp = rid /\
      qsize (fst (post_queue_add rid now body s)) = qsize s + 1 /\
      exists r,
        status_tracker (fst (post_queue_add rid now body s)) !! rid = Some r /\
        status r = Queued /\
        queue_entered_position r = Some (qsize s + 1)).
  { intros rid now body s resp H.
    destruct (validate QueueRequest body) as [request|] eqn:Hv.
    - destruct (post_queue_add_accepted rid now body s request Hv) as (c & _ & E).
      rewrite E in *. simpl in H. inversion H; subst; clear H. simpl.
      repeat split.
      + unfold qsize. simpl. rewrite length_app. reflexivity.
      + eexists. split; [apply lookup_insert_eq|]. simpl. auto.
    - unfold post_queue_add in H. rewrite Hv in H. discriminate. }
  split.
  - intros rid now body s resp H.
    destruct (Hone _ _ _ _ _ H) as (? & ? & _ & ?). auto.
  - intros r1 n1 b1 r2 n2 b2 r3 n3 b3 s p1 p2 p3 H0 s1 s2 H1 H2 H3.
    destruct (Hone _ _ _ _ _ H1) as (E1 & _ & Q1 & _).
    destruct (Hone _ _ _ _ _ H2) as (E2 & _ & Q2 & _).
    destruct (Hone _ _ _ _ _ H3) as (E3 & _ & _ & _).
    fold s1 in Q1. fold s2 in Q2. rewrite E1, E2, E3, Q2, Q1, H0. auto.
Qed.

(** ** Admission: validation *)

Lemma validate_fields_reject fs fields f :
  f ∈ fs -> ~ field_ok fields f -> validate_fields fs fields = None.
Proof.
  unfold field_ok. induction fs as [|g fs IH]; intros Hin Hbad.
  - inversion Hin.
  - cbn [validate_fields]. apply elem_of_cons in Hin as [->|Hin].
    + destruct (dict_get (f_name g) fields) as [v|].
      * destruct (validate_value (f_type g) v); [|reflexivity].
        exfalso. apply Hbad. eauto.
      * destruct (f_default g); [|reflexivity]. exfalso. apply Hbad. eauto.
    + rewrite (IH Hin Hbad).
      destruct (dict_get (f_name g) fields) as [v|].
      * destruct (validate_value (f_type g) v); reflexivity.
      * destruct (f_default g); reflexivity.
Qed.

Lemma validate_fields_accept fs fields :
  (forall f, f ∈ fs -> field_ok fields f) -> is_Some (validate_fields fs fields).
Proof.
  unfold field_ok. induction fs as [|g fs IH]; intros Hok.
  - cbn. eauto.
  - cbn [validate_fields].
    destruct IH as [tl ->]; [intros f Hf; apply Hok; right; exact Hf|].
    pose proof (Hok g ltac:(left)) as Hg.
    destruct (dict_get (f_name g) fields) as [v|]; destruct Hg as [x ->];
      cbn; eauto.
Qed.

Lemma validate_fields_rejected fs fields :
  validate_fields fs fields = None -> exists f, f ∈ fs /\ ~ field_ok fields f.
Proof.
  unfold field_ok. induction fs as [|g fs IH]; [discriminate|].
  cbn [validate_fields]. intros H.
  destruct (validate_fields fs fields) as [tl|] eqn:Htl.
  - exists g. split; [left|].
    destruct (dict_get (f_name g) fields) as [v|].
    + destruct (validate_value (f_type g) v); [discriminate|].
      intros [x Hx]. discriminate.
    + destruct (f_default g); [discriminate|]. intros [x Hx]. discriminate.
  - destruct (IH eq_refl) as (f & Hin & Hbad). exists f. split; [right|]; assumption.
Qed.

(** A list of objects passes for [list[dict]] as it is, whatever the objects
    hold, and nothing else passes. *)
Lemma mapM_objects (objs : list (list (string * json))) :
  mapM (validate_value TDict) (JObj <$> objs) = Some (JObj <$> objs).
Proof.
  apply mapM_Some_2. induction objs as [|o objs IH]; constructor; auto.
Qed.

Lemma validate_value_objects (objs : list (list (string * json))) :
  validate_value (TList TDict) (JList (JObj <$> objs))
  = Some (JList (JObj <$> objs)).
Proof.
  cbn [validate_value]. rewrite mapM_objects. reflexivity.
Qed.

Lemma validate_value_list_of_dict v :
  is_Some (validate_value (TList TDict) v) ->
  exists objs, v = JList (JObj <$> objs).
Proof.
  destruct v as [| | | | |items|]; cbn [validate_value];
    try (intros [x Hx]; discriminate).
  rewrite fmap_is_Some, mapM_is_Some. intros Hall.
  induction Hall as [|it items Hit _ [objs Ho]].
  - exists []. reflexivity.
  - destruct it as [| | | | | |o]; try (destruct Hit as [x Hx]; discriminate).
    inversion Ho; subst. exists (o :: objs). reflexivity.
Qed.

(** C5 (as the code has it): /queue/add answers with the validation error,
    and leaves the queue, the status tracker and the counters as they were,
    exactly when the body is not an object or gives for some field of
    [QueueRequest] no value though the field is required, or a value that
    does not convert to the annotation.  So it does when the client tag, the
    message list or the model name is absent, when the client tag or the
    model name is not a string, and when the message list is not a list of
    objects.  A body with a string client tag, a string model name and a
    list of message objects, whose other declared fields are left out or
    convert, is admitted whatever the message objects contain, an empty
    message list included. *)
Theorem C5_validation :
  (forall rid now body s,
      post_queue_add rid now body s = (s, None) <->
      match body with
      | JObj fields => exists f, f ∈ QueueRequest /\ ~ field_ok fields f
      | _ => True
      end) /\
  (forall rid now fields s,
      dict_get "client_id" fields = None \/
      dict_get "messages" fields = None \/
      dict_get "model" fields = None \/
      (exists v, dict_get "client_id" fields = Some v /\ forall c, v <> JStr c) \/
      (exists v, dict_get "model" fields = Some v /\ forall m, v <> JStr m) \/
      (exists v, dict_get "messages" fields = Some v /\
                 forall objs, v <> JList (JObj <$> objs)) ->
      post_queue_add rid now (JObj fields) s = (s, None)) /\
  (forall rid now fields c m (objs : list (list (string * json))) s,
      dict_get "client_id" fields = Some (JStr c) ->
      dict_get "messages" fields = Some (JList (JObj <$> objs)) ->
      dict_get "model" fields = Some (JStr m) ->
      (forall f, f ∈ QueueRequest -> is_Some (f_default f) -> field_ok fields f) ->
      snd (post_queue_add rid now (JObj fields) s)
      = Some (mkQueueResponse Queued rid (qsize s + 1))).
Proof.
  assert (Hrej : forall rid now fields s f,
             f ∈ QueueRequest -> ~ field_ok fields f ->
             post_queue_add rid now (JObj fields) s = (s, None)).
  { intros rid now fields s f Hin Hbad. unfold post_queue_add, validate.
    rewrite (validate_fields_reject _ _ f Hin Hbad). reflexivity. }
  assert (Hcid : Field "client_id" TStr None ∈ QueueRequest).
  { unfold QueueRequest. left. }
  assert (Hmsg : Field "messages" (TList TDict) None ∈ QueueRequest).
  { unfold QueueRequest. right. left. }
  assert (Hmod : Field "model" TStr None ∈ QueueRequest).
  { unfold QueueRequest. right. right. left. }
  split; [|split].
  - intros rid now body s. split.
    + intros H. destruct body; try exact Logic.I.
      unfold post_queue_add, validate in H.
      destruct (validate_fields QueueRequest fields) as [request|] eqn:Hv.
      * destruct (add_to_queue rid now request s). discriminate.
      * apply validate_fields_rejected. assumption.
    + destruct body; try reflexivity. intros (f & Hin & Hbad). eauto.
  - intros rid now fields s H.
    destruct H as [H|[H|[H|[(v & H & Hv)|[(v & H & Hv)|(v & H & Hv)]]]]].
    + apply (Hrej _ _ _ _ _ Hcid). unfold field_ok. cbn [f_name f_default].
      rewrite H. intros [x Hx]. discriminate.
    + apply (Hrej _ _ _ _ _ Hmsg). unfold field_ok. cbn [f_name f_default].
      rewrite H. intros [x Hx]. discriminate.
    + apply (Hrej _ _ _ _ _ Hmod). unfold field_ok. cbn [f_name f_default].
      rewrite H. intros [x Hx]. discriminate.
    + apply (Hrej _ _ _ _ _ Hcid). unfold field_ok. cbn [f_name f_type].
      rewrite H. intros [x Hx]. apply validate_value_TStr in Hx as (c & -> & _).
      apply (Hv c). reflexivity.
    + apply (Hrej _ _ _ _ _ Hmod). unfold field_ok. cbn [f_name f_type].
      rewrite H. intros [x Hx]. apply validate_value_TStr in Hx as (c & -> & _).
      apply (Hv c). reflexivity.
    + apply (Hrej _ _ _ _ _ Hmsg). unfold field_ok. cbn [f_name f_type].
      rewrite H. intros Hx. apply validate_value_list_of_dict in Hx as [objs ->].
      apply (Hv objs). reflexivity.
  - intros rid now fields c m objs s Hc Hm Hmo Hrest.
    destruct (validate_fields_accept QueueRequest fields) as [request Hv].
    { intros f Hin. destruct (f_default f) as [d|] eqn:Hd.
      - apply Hrest; [assumption|]. rewrite Hd. eauto.
      - unfold QueueRequest in Hin.
        repeat (apply elem_of_cons in Hin as [->|Hin]); try discriminate Hd;
          try (inversion Hin; fail); unfold field_ok; cbn [f_name f_type].
        + rewrite Hc. cbn. eauto.
        + rewrite Hm, validate_value_objects. eauto.
        + rewrite Hmo. cbn. eauto. }
    destruct (post_queue_add_accepted rid now (JObj fields) s request Hv)
      as (c' & _ & E).
    rewrite E. reflexivity.
Qed.

(** ** Position feedback while queued *)

Lemma emit_nothing h : emit [] (h_pc h) h = h.
Proof. destruct h. unfold emit. simpl. rewrite app_nil_r. reflexivity. Qed.

(** C7 (as the code has it): while the record is "queued", a test of the
    loop of the OpenAI-compatible generator yields a position comment with
    the current queue depth when that depth differs from the last one it
    sent, and yields nothing when it is the same; a test of the loop of the
    /stream generator yields a position event with the current queue depth
    every time. *)
Theorem C7_position_updates :
  forall h s r last,
    h_pc h = HPolling last ->
    status_tracker s !! h_rid h = Some r ->
    status r = Queued ->
    (h_variant h = OpenAISSE ->
       (last = Some (qsize s) -> handler_run h s = Some (h, s)) /\
       (last <> Some (qsize s) ->
          handler_run h s =
            Some (emit [CmtQueuePosition (qsize s)] (HPolling (Some (qsize s))) h, s))) /\
    (h_variant h = MinimalSSE ->
       handler_run h s = Some (emit [EvPosition (qsize s)] (HPolling None) h, s)).
Proof.
  intros h s r last Hpc Hr Hq. unfold handler_run. rewrite Hpc, Hr, Hq.
  split; intros ->.
  - split; intros Hl.
    + subst last. rewrite decide_True by reflexivity.
      rewrite <- Hpc. rewrite emit_nothing. reflexivity.
    + rewrite decide_False by congruence. reflexivity.
  - reflexivity.
Qed.


(** ** The non-streaming wait *)

Lemma nonstream_poll_waits start now r :
  nonstream_poll start now r = None ->
  (status r = Queued \/ status r = Processing) /\ (now - start <= timeout_seconds)%Q.
Proof.
  unfold nonstream_poll.
  destruct (status r); try discriminate;
    (destruct (Qle_bool (now - start) timeout_seconds) eqn:E; [|discriminate]);
    intros _; apply Qle_bool_iff in E; auto.
Qed.

Lemma nonstream_poll_returns start now r resp :
  nonstream_poll start now r = Some resp ->
  ((status r = Queued \/ status r = Processing) /\
     (timeout_seconds < now - start)%Q /\ resp = RespTimeout) \/
  (status r = Error /\ resp = RespServerError (error_or_unknown (error r))) \/
  (status r = Complete /\ resp = RespCompletion (result r)).
Proof.
  unfold nonstream_poll.
  destruct (status r) eqn:Hs;
    try (destruct (Qle_bool (now - start) timeout_seconds) eqn:E; [discriminate|]);
    intros [= <-]; auto.
  all: left; split; [auto|]; split; [|reflexivity].
  all: apply Qnot_le_lt; intros Hle; apply Qle_bool_iff in Hle; congruence.
Qed.

Lemma inject_nat_succ (k : nat) :
  (inject_Z (Z.of_nat (S k)) == inject_Z (Z.of_nat k) + 1)%Q.
Proof. rewrite Nat2Z.inj_succ. unfold Z.succ. rewrite inject_Z_plus. reflexivity. Qed.

Lemma nonstream_wait_returns_within start obs :
  forall (k : nat) lo,
    (start + inject_Z (Z.of_nat k) * (1 # 10) <= lo)%Q ->
    paced lo obs = true ->
    k <= 3001 ->
    3002 <= length obs + k ->
    exists resp, nonstream_wait start obs = Some resp.
Proof.
  induction obs as [|[r now] rest IH]; intros k lo Hlo Hp Hk Hlen.
  - simpl in Hlen. lia.
  - simpl in Hp. apply andb_prop in Hp as [Hnow Hrest].
    apply Qle_bool_iff in Hnow. simpl.
    destruct (nonstream_poll start now r) as [resp|] eqn:Hpoll; [eauto|].
    apply nonstream_poll_waits in Hpoll as [_ Hle].
    unfold timeout_seconds in Hle.
    assert (Hk' : k <= 3000).
    { destruct (le_gt_dec k 3000) as [|Hgt]; [assumption|exfalso].
      assert (Hz : (3001 <= Z.of_nat k)%Z) by lia.
      rewrite Zle_Qle in Hz. change (inject_Z 3001) with (3001 # 1)%Q in Hz. lra. }
    apply (IH (S k) (now + (1 # 10))%Q).
    + rewrite inject_nat_succ. lra.
    + exact Hrest.
    + lia.
    + simpl in Hlen. lia.
Qed.

Lemma nonstream_wait_first start obs resp :
  nonstream_wait start obs = Some resp ->
  exists before r now after,
    obs = before ++ (r, now) :: after /\
    Forall (fun o => nonstream_poll start (snd o) (fst o) = None) before /\
    nonstream_poll start now r = Some resp.
Proof.
  induction obs as [|[r now] rest IH]; [discriminate|]. simpl.
  destruct (nonstream_poll start now r) as [resp'|] eqn:Hpoll.
  - intros [= ->]. exists [], r, now, rest. auto.
  - intros H. destruct (IH H) as (before & r' & now' & after & -> & Hb & Hr).
    exists ((r, now) :: before), r', now', after. split; [reflexivity|].
    split; [constructor; assumption|assumption].
Qed.

(** C9: the non-streaming call tests the record about every tenth of a
    second; it answers at the first test that finds the record out of
    "queued"/"processing" (the assembled completion, or the error object on
    "error") or that finds more than 300 seconds elapsed (the timeout error
    object); all tests before that one found the record waiting within the
    300 seconds.  With the clock advancing by the sleep between tests, it
    answers by the 3002nd test whatever the record does. *)
Theorem C9_nonstreaming_wait :
  (forall start obs resp,
      nonstream_wait start obs = Some resp ->
      exists before r now after,
        obs = before ++ (r, now) :: after /\
        Forall (fun o => (status (fst o) = Queued \/ status (fst o) = Processing) /\
                         (snd o - start <= timeout_seconds)%Q) before /\
        (((status r = Queued \/ status r = Processing) /\
            (timeout_seconds < now - start)%Q /\ resp = RespTimeout) \/
         (status r = Error /\ resp = RespServerError (error_or_unknown (error r))) \/
         (status r = Complete /\ resp = RespCompletion (result r)))) /\
  (forall start obs,
      paced start obs = true ->
      3002 <= length obs ->
      exists resp, nonstream_wait start obs = Some resp).
Proof.
  split.
  - intros start obs resp H.
    destruct (nonstream_wait_first _ _ _ H) as (before & r & now & after & -> & Hb & Hr).
    exists before, r, now, after. split; [reflexivity|]. split.
    + eapply Forall_impl; [exact Hb|]. intros [r' now'] Hp. simpl in *.
      apply nonstream_poll_waits in Hp. exact Hp.
    + apply nonstream_poll_returns. exact Hr.
  - intros start obs Hp Hlen.
    apply (nonstream_wait_returns_within start obs 0 start); [|exact Hp|lia|lia].
    change (inject_Z (Z.of_nat 0)) with (0 # 1)%Q. lra.
Qed.

(** ** The base invariant *)

Lemma handler_ok_frame s s' h :
  status_tracker s' = status_tracker s ->
  stream_chunks s' = stream_chunks s ->
  length (chunk_queues s') = length (chunk_queues s) ->
  handler_ok s h -> handler_ok s' h.
Proof.
  intros Ht Hc Hl (r & Hr & Hpc). exists r. rewrite Ht, Hc, Hl. auto.
Qed.

Lemma inv_initial : inv initial_state.
Proof.
  constructor; simpl; try (intros; simplify_map_eq; fail).
  all: try (intros ? H; inversion H; fail).
  - constructor.
  - reflexivity.
Qed.

Lemma inv_enqueue rid now cid data s :
  inv s -> status_tracker s !! rid = None ->
  inv (fst (enqueue rid now cid data s)).
Proof.
  intros I Hfresh. 
  assert (Hne : forall rid' r, status_tracker s !! rid' = Some r -> rid' <> rid)
    by (intros ? ? ? ->; congruence).
  constructor; simpl.
  - intros item Hin. apply elem_of_app in Hin as [Hin|Hin].
    + destruct (inv_queue_records s I item Hin) as (r & Hr & Hq).
      exists r. rewrite lookup_insert_ne by (apply not_eq_sym; eauto). auto.
    + apply list_elem_of_singleton in Hin as ->. simpl.
      rewrite lookup_insert_eq. eauto.
  - rewrite fmap_app. simpl. apply NoDup_app. split; [apply I|]. split.
    + intros x Hx Hx'. apply list_elem_of_singleton in Hx' as ->.
      apply list_elem_of_fmap in Hx as (item & -> & Hin).
      destruct (inv_queue_records s I item Hin) as (r & Hr & _). congruence.
    + apply NoDup_singleton.
  - apply I.
  - intros rid' Hw. destruct (inv_busy s I rid' Hw) as (r & q & l & Hr & ?).
    exists r, q, l. rewrite lookup_insert_ne by (apply not_eq_sym; eauto). auto.
  - intros rid' r Hr Hp. destruct (decide (rid = rid')) as [->|Hd].
    + rewrite lookup_insert_eq in Hr. inversion Hr; subst. discriminate.
    + rewrite lookup_insert_ne in Hr by assumption. eapply inv_processing; eauto.
  - apply I.
  - apply I.
  - intros rid' q Hq. destruct (inv_chunks_status s I rid' q Hq) as (r & Hr & ?).
    exists r. rewrite lookup_insert_ne by (apply not_eq_sym; eauto). auto.
  - intros i h Hh. destruct (inv_handlers s I i h Hh) as (r & Hr & Hpc).
    exists r. simpl. rewrite lookup_insert_ne by (apply not_eq_sym; eauto).
    auto.
Qed.

Lemma inv_new_handler s v rid pc :
  inv s -> is_Some (status_tracker s !! rid) ->
  (pc = HStart \/ pc = HPolling None) ->
  inv (set_handlers (handlers s ++ [mkHandler v rid pc []]) s).
Proof.
  intros I [r Hr] Hpc. constructor; simpl; try apply I.
  intros i h Hh. apply lookup_app_Some in Hh as [Hh|[_ Hh]].
  - eapply handler_ok_frame; [..|eapply (inv_handlers s I); eauto]; reflexivity.
  - apply list_lookup_singleton_Some in Hh as [_ <-].
    exists r. simpl. split; [assumption|]. destruct Hpc as [->| ->]; trivial.
Qed.

Lemma inv_post_queue_add rid now body s :
  inv s -> status_tracker s !! rid = None ->
  inv (fst (post_queue_add rid now body s)).
Proof.
  intros I Hf. unfold post_queue_add.
  destruct (validate QueueRequest body) as [request|]; [|exact I].
  unfold add_to_queue.
  pose proof (inv_enqueue rid now
    match dict_get "client_id" request with Some (JStr c) => c | _ => "" end
    request s I Hf) as H.
  destruct (enqueue _ _ _ _ _) as [s' p]. exact H.
Qed.

Lemma inv_post_chat_completions rid now body s :
  inv s -> status_tracker s !! rid = None ->
  inv (post_chat_completions rid now body s).
Proof.
  intros I Hf. unfold post_chat_completions.
  destruct (validate OpenAIChatRequest body) as [request|]; [|exact I].
  pose proof (inv_enqueue rid now "openai_compat" request s I Hf) as H.
  pose proof (enqueue_record rid now "openai_compat" request s) as Hr.
  destruct (enqueue _ _ _ _ _) as [s' p]. simpl in H, Hr.
  destruct (dict_get "stream" request) as [[| [|] | | | | |]|]; try exact H.
  apply inv_new_handler; eauto.
Qed.

Lemma inv_get_stream rid s : inv s -> inv (get_stream rid s).
Proof.
  intros I. unfold get_stream.
  destruct (status_tracker s !! rid) eqn:E; [|exact I].
  apply inv_new_handler; eauto.
Qed.

Lemma inv_worker_get now s s' :
  inv s -> worker_get now s = Some s' -> inv s'.
Proof.
  intros I. unfold worker_get.
  destruct (worker s) eqn:Hw; try discriminate.
  destruct (request_queue s) as [|item rest] eqn:Hq; [intros [= <-]; exact I|].
  destruct (inv_queue_records s I item) as (r & Hr & Hst);
    [rewrite Hq; left|].
  rewrite Hr. intros [= <-].
  pose proof (inv_queue_nodup s I) as Hnd. rewrite Hq in Hnd.
  simpl in Hnd. apply NoDup_cons in Hnd as [Hnotin Hnd].
  assert (Hidle : forall rid r0, status_tracker s !! rid = Some r0 ->
                                 status r0 <> Processing).
  { intros rid r0 H0 Hp. pose proof (inv_processing s I rid r0 H0 Hp) as Hb.
    rewrite Hw in Hb. discriminate. }
  constructor; simpl.
  - intros item' Hin.
    destruct (inv_queue_records s I item') as (r' & Hr' & Hst');
      [rewrite Hq; right; exact Hin|].
    exists r'. rewrite lookup_insert_ne; [auto|].
    intros E. apply Hnotin. rewrite E. apply list_elem_of_fmap. eauto.
  - exact Hnd.
  - reflexivity.
  - intros rid [= <-]. exists (mark_processing now r), (length (chunk_queues s)), [].
    rewrite !lookup_insert_eq. repeat split.
    rewrite lookup_app_r by lia. rewrite Nat.sub_diag. reflexivity.
  - intros rid r0 H0 Hp. destruct (decide (qi_request_id item = rid)) as [<-|Hd].
    + reflexivity.
    + rewrite lookup_insert_ne in H0 by assumption. exfalso. eapply Hidle; eauto.
  - intros rid q H0. rewrite length_app. simpl.
    destruct (decide (qi_request_id item = rid)) as [<-|Hd].
    + rewrite lookup_insert_eq in H0. inversion H0. lia.
    + rewrite lookup_insert_ne in H0 by assumption.
      pose proof (inv_chunks_range s I _ _ H0). lia.
  - intros rid1 rid2 q H1 H2.
    destruct (decide (qi_request_id item = rid1)) as [E1|D1];
      destruct (decide (qi_request_id item = rid2)) as [E2|D2]; try congruence.
    + subst rid1. rewrite lookup_insert_eq in H1. rewrite lookup_insert_ne in H2 by assumption.
      inversion H1; subst. pose proof (inv_chunks_range s I _ _ H2). lia.
    + subst rid2. rewrite lookup_insert_eq in H2. rewrite lookup_insert_ne in H1 by assumption.
      inversion H2; subst. pose proof (inv_chunks_range s I _ _ H1). lia.
    + rewrite lookup_insert_ne in H1, H2 by assumption.
      eapply inv_chunks_inj; eauto.
  - intros rid q H0. destruct (decide (qi_request_id item = rid)) as [<-|Hd].
    + exists (mark_processing now r). rewrite lookup_insert_eq. split; [reflexivity|].
      simpl. discriminate.
    + rewrite lookup_insert_ne in H0 by assumption.
      rewrite lookup_insert_ne by assumption. eapply inv_chunks_status; eauto.
  - intros i h Hh. destruct (inv_handlers s I i h Hh) as (r' & Hr' & Hpc).
    unfold handler_ok. simpl. rewrite length_app. simpl.
    destruct (decide (qi_request_id item = h_rid h)) as [E|Hd].
    + rewrite <- E in *. rewrite Hr in Hr'. inversion Hr'; subst r'.
      exists (mark_processing now r). rewrite lookup_insert_eq. split; [reflexivity|].
      destruct (h_pc h); auto.
      * exfalso. destruct Hpc as [_ [Hc|[_ [Ht|Ht]]]]; try congruence.
        destruct (inv_chunks_status s I _ _ Hc) as (r2 & Hr2 & Hn). congruence.
      * exfalso. destruct Hpc as [[Ht|Ht] _]; congruence.
    + exists r'. rewrite !lookup_insert_ne by assumption. split; [assumption|].
      destruct (h_pc h); auto. destruct Hpc as [Hlt Hd']. split; [lia|].
      destruct Hd' as [Hc|[Hnr Ht]]; [auto|right]. split; [|assumption].
      intros rid. destruct (decide (qi_request_id item = rid)) as [<-|Hd2].
      * rewrite lookup_insert_eq. intros [= ?]. lia.
      * rewrite lookup_insert_ne by assumption. apply Hnr.
Qed.

Lemma inv_set_worker s w :
  inv s -> worker_rid w = worker_rid (worker s) -> inv (set_worker w s).
Proof.
  intros Hinv Hw. constructor; simpl; try rewrite Hw; apply Hinv.
Qed.

Lemma inv_put_text s rid q c :
  inv s -> worker_rid (worker s) = Some rid ->
  stream_chunks s !! rid = Some q ->
  inv (put q (CText c) s).
Proof.
  intros Hinv Hw Hq. constructor; simpl; try apply Hinv.
  - intros rid' Hw'. rewrite Hw in Hw'. inversion Hw'; subst rid'.
    destruct (inv_busy s Hinv rid Hw) as (r & q' & l & Hr & Hst & Hq' & Hl).
    rewrite Hq in Hq'. inversion Hq'; subst q'.
    exists r, q, (l ++ [c]). repeat split; try assumption.
    rewrite list_lookup_alter_eq, Hl. simpl. rewrite fmap_app. reflexivity.
  - intros rid' q' H. rewrite length_alter. eapply inv_chunks_range; eauto.
  - intros i h Hh. eapply handler_ok_frame; [..|eapply (inv_handlers s Hinv); eauto];
      try reflexivity. simpl. apply length_alter.
Qed.

Lemma inv_terminate s rid f hq st' :
  inv s -> worker_rid (worker s) = Some rid ->
  (forall r, terminal_status (status (f r))) ->
  current_request_id st' = None ->
  length hq = length (chunk_queues s) ->
  inv (set_worker WIdle
         (set_queue_stats st' (update_record rid f (set_chunk_queues hq s)))).
Proof.
  intros Hinv Hw Hf Hcur Hlen.
  destruct (inv_busy s Hinv rid Hw) as (rb & qb & lb & Hrb & Hstb & Hqb & Hlb).
  constructor; simpl.
  - intros item Hin. destruct (inv_queue_records s Hinv item Hin) as (r & Hr & Hst).
    exists r. rewrite lookup_alter_ne; [auto|]. intros E. rewrite <- E in Hr. congruence.
  - apply Hinv.
  - exact Hcur.
  - discriminate.
  - intros rid' r Hr Hp. exfalso.
    destruct (decide (rid = rid')) as [<-|Hd].
    + rewrite lookup_alter_eq, Hrb in Hr. simpl in Hr. inversion Hr; subst r.
      destruct (Hf rb); congruence.
    + rewrite lookup_alter_ne in Hr by assumption.
      pose proof (inv_processing s Hinv rid' r Hr Hp). congruence.
  - intros rid' q H. rewrite Hlen. eapply inv_chunks_range; eauto.
  - apply Hinv.
  - intros rid' q H. destruct (decide (rid = rid')) as [<-|Hd].
    + exists (f rb). rewrite lookup_alter_eq, Hrb. split; [reflexivity|].
      destruct (Hf rb); congruence.
    + rewrite lookup_alter_ne by assumption. eapply inv_chunks_status; eauto.
  - intros i h Hh. destruct (inv_handlers s Hinv i h Hh) as (r & Hr & Hpc).
    unfold handler_ok. simpl. rewrite Hlen.
    destruct (decide (rid = h_rid h)) as [E|Hd].
    + rewrite <- E in *. rewrite Hrb in Hr. inversion Hr; subst r.
      exists (f rb). rewrite lookup_alter_eq, Hrb. split; [reflexivity|].
      destruct (h_pc h); auto.
      * destruct Hpc as [Hlt [Hc|[_ [Ht|Ht]]]]; try congruence. auto.
      * destruct Hpc as [[Ht|Ht] _]; congruence.
    + exists r. rewrite lookup_alter_ne by assumption. auto.
Qed.

Lemma inv_processing_error s rid msg now :
  inv s -> worker_rid (worker s) = Some rid ->
  inv (processing_error rid msg now s).
Proof.
  intros Hinv Hw. unfold processing_error.
  destruct (stream_chunks s !! rid) as [q|] eqn:Hq.
  - apply (inv_terminate s rid (mark_error now msg)
             (alter (fun l => l ++ [CError msg]) q (chunk_queues s))); auto.
    + intros r. right. reflexivity.
    + apply length_alter.
  - apply (inv_terminate s rid (mark_error now msg) (chunk_queues s)); auto.
    intros r. right. reflexivity.
Qed.

Lemma inv_llm s s' a :
  inv s ->
  match a with
  | LlmCreated | LlmChunk _ _ | LlmFinished _ | LlmRaised _ _ => True
  | _ => False
  end ->
  step a s = Some s' -> inv s'.
Proof.
  intros Hinv Ha. destruct a; try contradiction; simpl.
  - unfold llm_created. destruct (worker s) eqn:Hw; try discriminate.
    intros [= <-]. apply inv_set_worker; [assumption|]. rewrite Hw. reflexivity.
  - unfold llm_chunk. destruct (worker s) eqn:Hw; try discriminate.
    assert (Hb : worker_rid (worker s) = Some rid) by (rewrite Hw; reflexivity).
    destruct content as [c|]; [|intros [= <-]; assumption].
    destruct (stream_chunks s !! rid) as [q|] eqn:Hq.
    + destruct c as [|a0 c0]; intros [= <-]; [assumption|].
      apply inv_set_worker; [eapply inv_put_text; eauto|].
      simpl. rewrite Hw. reflexivity.
    + destruct c; intros [= <-]; [assumption|].
      apply inv_processing_error; assumption.
  - unfold llm_finished. destruct (worker s) eqn:Hw; try discriminate.
    assert (Hb : worker_rid (worker s) = Some rid) by (rewrite Hw; reflexivity).
    destruct (stream_chunks s !! rid) as [q|] eqn:Hq; intros [= <-].
    + apply (inv_terminate s rid (mark_complete now full_response)
               (alter (fun l => l ++ [CNone]) q (chunk_queues s))); auto.
      * intros r. left. reflexivity.
      * apply length_alter.
    + apply inv_processing_error; assumption.
  - unfold llm_raised. destruct (worker s) eqn:Hw; try discriminate;
      intros [= <-]; (apply inv_processing_error; [assumption|rewrite Hw; reflexivity]).
Qed.

Lemma inv_update_handler s i h' :
  inv s -> handler_ok s h' -> inv (set_handlers (<[i := h']> (handlers s)) s).
Proof.
  intros Hinv Hok. constructor; simpl; try apply Hinv.
  intros j h Hh. apply list_lookup_insert_Some in Hh as [(-> & -> & _)|[_ Hh]].
  - exact Hok.
  - eapply (inv_handlers s Hinv); eauto.
Qed.

Lemma handler_ok_emit s h evs pc :
  handler_ok s h ->
  match pc with HDraining _ | HCleanup => False | _ => True end ->
  handler_ok s (emit evs pc h).
Proof.
  intros (r & Hr & _) Hpc. exists r. simpl. split; [assumption|].
  destruct pc; solve [auto | contradiction].
Qed.

Lemma handler_ok_wait_relay s h :
  inv s -> handler_ok s h -> handler_ok s (wait_relay s h).
Proof.
  intros Hinv Hok. unfold wait_relay.
  destruct (stream_chunks s !! h_rid h) as [q|] eqn:Hq.
  - destruct Hok as (r & Hr & _). exists r. simpl. split; [assumption|].
    split; [eapply inv_chunks_range; eauto|auto].
  - apply handler_ok_emit; simpl; auto.
Qed.

Lemma fmap_CText_cons (l : list string) c rest :
  CText <$> l = c :: rest -> exists c0 l0, l = c0 :: l0 /\ c = CText c0 /\ rest = CText <$> l0.
Proof. destruct l as [|c0 l0]; [discriminate|]. intros [= <- <-]. eauto. Qed.

(** Taking the first chunk of a queue. *)
Lemma inv_pop s q c rest :
  inv s -> chunk_queues s !! q = Some (c :: rest) ->
  inv (set_chunk_queues (<[q := rest]> (chunk_queues s)) s).
Proof.
  intros Hinv Hq. constructor; simpl; try apply Hinv.
  - intros rid Hw. destruct (inv_busy s Hinv rid Hw) as (r & q' & l & Hr & Hst & Hq' & Hl).
    destruct (decide (q = q')) as [<-|Hd].
    + rewrite Hq in Hl. inversion Hl as [Hl'].
      symmetry in Hl'. apply fmap_CText_cons in Hl' as (c0 & l0 & -> & -> & ->).
      exists r, q, l0. repeat split; try assumption.
      apply list_lookup_insert_eq. eapply lookup_lt_Some; eauto.
    + exists r, q', l. rewrite list_lookup_insert_ne by assumption. auto.
  - intros rid q' H. rewrite length_insert. eapply inv_chunks_range; eauto.
  - intros i h Hh. eapply handler_ok_frame; [..|eapply (inv_handlers s Hinv); eauto];
      try reflexivity. simpl. apply length_insert.
Qed.

Lemma handler_ok_pop_text s h q rest evs :
  handler_ok s h -> h_pc h = HDraining q ->
  handler_ok (set_chunk_queues (<[q := rest]> (chunk_queues s)) s)
             (emit evs (HDraining q) h).
Proof.
  intros (r & Hr & Hpc) Hd. rewrite Hd in Hpc. exists r. simpl.
  rewrite length_insert. auto.
Qed.

Lemma handler_ok_pop_terminal s h q c rest evs :
  inv s -> handler_ok s h -> h_pc h = HDraining q ->
  chunk_queues s !! q = Some (c :: rest) ->
  (forall t, c <> CText t) ->
  1 <= count_terminal evs ->
  handler_ok (set_chunk_queues (<[q := rest]> (chunk_queues s)) s)
             (emit evs HCleanup h).
Proof.
  intros Hinv (r & Hr & Hpc) Hd Hq Hc Hev. rewrite Hd in Hpc. exists r. simpl.
  split; [assumption|]. split.
  - destruct Hpc as [_ [Hsc|[_ Ht]]]; [|assumption].
    destruct (inv_chunks_status s Hinv _ _ Hsc) as (r' & Hr' & Hnq).
    rewrite Hr in Hr'. inversion Hr'; subst r'.
    destruct (status r) eqn:Hst; [congruence| |left; reflexivity|right; reflexivity].
    exfalso. pose proof (inv_processing s Hinv _ _ Hr Hst) as Hb.
    destruct (inv_busy s Hinv _ Hb) as (_ & q' & l & _ & _ & Hq' & Hl).
    rewrite Hsc in Hq'. inversion Hq'; subst q'. rewrite Hq in Hl.
    inversion Hl as [Hl']. symmetry in Hl'.
    apply fmap_CText_cons in Hl' as (c0 & _ & _ & -> & _). eapply Hc; eauto.
  - unfold count_terminal in *. rewrite filter_app, length_app. lia.
Qed.

Lemma inv_cleanup s i h :
  inv s -> handlers s !! i = Some h -> h_pc h = HCleanup ->
  inv (set_stream_chunks (delete (h_rid h) (stream_chunks s)) s).
Proof.
  intros Hinv Hh Hpc.
  destruct (inv_handlers s Hinv i h Hh) as (r & Hr & Hok). rewrite Hpc in Hok.
  destruct Hok as [Hterm _].
  constructor; simpl; try apply Hinv.
  - intros rid Hw. destruct (inv_busy s Hinv rid Hw) as (rb & q & l & Hrb & Hst & Hq & Hl).
    exists rb, q, l. rewrite lookup_delete_ne; [auto|].
    intros E. rewrite E in Hr. rewrite Hr in Hrb. inversion Hrb; subst.
    destruct Hterm; congruence.
  - intros rid q H. apply lookup_delete_Some in H as [_ H].
    eapply inv_chunks_range; eauto.
  - intros rid1 rid2 q H1 H2. apply lookup_delete_Some in H1 as [_ H1].
    apply lookup_delete_Some in H2 as [_ H2]. eapply inv_chunks_inj; eauto.
  - intros rid q H. apply lookup_delete_Some in H as [_ H].
    eapply inv_chunks_status; eauto.
  - intros j h' Hh'. destruct (inv_handlers s Hinv j h' Hh') as (r' & Hr' & Hok').
    exists r'. simpl. split; [assumption|]. destruct (h_pc h'); auto.
    destruct Hok' as [Hlt Hcase]. split; [assumption|].
    destruct (decide (h_rid h = h_rid h')) as [E|Hd].
    + right. split.
      * intros rid H. apply lookup_delete_Some in H as [Hne H].
        destruct Hcase as [Hc|[Hn _]]; [|eapply Hn; eauto].
        apply Hne. rewrite E. eapply inv_chunks_inj; eauto.
      * rewrite <- E in Hr'. rewrite Hr in Hr'. inversion Hr'; subst. assumption.
    + destruct Hcase as [Hc|[Hn Ht]].
      * left. rewrite lookup_delete_ne by assumption. assumption.
      * right. split; [|assumption]. intros rid H.
        apply lookup_delete_Some in H as [_ H]. eapply Hn; eauto.
Qed.

Lemma handler_ok_after_cleanup s h :
  handler_ok s h ->
  handler_ok (set_stream_chunks (delete (h_rid h) (stream_chunks s)) s)
             (emit [] HDone h).
Proof. intros (r & Hr & _). exists r. simpl. auto. Qed.

Lemma inv_stream_resume i s s' :
  inv s -> stream_resume i s = Some s' -> inv s'.
Proof.
  intros Hinv. unfold stream_resume.
  destruct (handlers s !! i) as [h|] eqn:Hh; [|discriminate]. simpl.
  destruct (handler_run h s) as [[h' s1]|] eqn:Hrun; [|discriminate]. simpl.
  intros [= <-].
  pose proof (inv_handlers s Hinv i h Hh) as Hok.
  assert (inv s1 /\ handler_ok s1 h') as [H1 H2];
    [|exact (inv_update_handler s1 i h' H1 H2)].
  unfold handler_run in Hrun.
  destruct (h_pc h) eqn:Hpc.
  - destruct Hok as (r & Hr & _). rewrite Hr in Hrun. inversion Hrun; subst.
    split; [assumption|]. apply handler_ok_emit; simpl; eauto. exists r; rewrite Hpc; auto.
  - pose proof Hok as (r & Hr & _). rewrite Hr in Hrun.
    destruct (h_variant h); destruct (status r);
      try (destruct (decide _)); inversion Hrun; subst;
      (split; [assumption|]);
      first [apply handler_ok_wait_relay; assumption
            |apply handler_ok_emit; simpl; auto].
  - pose proof Hok as (r & Hr & _). rewrite Hr in Hrun.
    destruct (status r); inversion Hrun; subst;
      (split; [assumption|]);
      first [apply handler_ok_wait_relay; assumption
            |apply handler_ok_emit; simpl; auto].
  - inversion Hrun; subst. split; [assumption|].
    apply handler_ok_wait_relay; assumption.
  - destruct (chunk_queues s !! chunk_queue) as [[|c rest]|] eqn:Hq; try discriminate.
    destruct (h_variant h); destruct c; inversion Hrun; subst;
      (split; [eapply inv_pop; eauto|]);
      first [apply handler_ok_pop_text; assumption
            |eapply handler_ok_pop_terminal;
             [exact Hinv|exact Hok|exact Hpc|exact Hq
             |intros t; discriminate|vm_compute; lia]].
  - inversion Hrun; subst. split; [eapply inv_cleanup; eauto|].
    apply handler_ok_after_cleanup; assumption.
  - discriminate.
Qed.

Lemma inv_step a s s' : inv s -> step a s = Some s' -> inv s'.
Proof.
  intros Hinv Hs. destruct a; try (eapply inv_llm; eauto; exact Logic.I); simpl in Hs.
  - destruct (status_tracker s !! request_id) eqn:E; [discriminate|].
    inversion Hs; subst. apply inv_post_queue_add; assumption.
  - destruct (status_tracker s !! request_id) eqn:E; [discriminate|].
    inversion Hs; subst. apply inv_post_chat_completions; assumption.
  - inversion Hs; subst. apply inv_get_stream; assumption.
  - eapply inv_stream_resume; eauto.
  - eapply inv_worker_get; eauto.
Qed.

Lemma exec_app acts1 acts2 s :
  exec (acts1 ++ acts2) s = exec acts1 s ≫= exec acts2.
Proof.
  revert s. induction acts1 as [|a acts1 IH]; intros s; simpl; [reflexivity|].
  destruct (step a s); simpl; auto.
Qed.

Lemma inv_exec acts s s' : inv s -> exec acts s = Some s' -> inv s'.
Proof.
  revert s. induction acts as [|a acts IH]; intros s Hinv; simpl.
  - intros [= <-]. assumption.
  - destruct (step a s) as [s1|] eqn:Hs; [|discriminate]. simpl.
    apply IH. eapply inv_step; eauto.
Qed.

(** ** One request in flight *)

(** C1: in every state the server reaches, at most one record is
    "processing"; the current-request identifier of the queue stats, when
    set, names a "processing" record; a "processing" record is the one the
    current-request identifier names; and the identifier is cleared when no
    record is "processing". *)
Theorem C1_single_processing acts s :
  exec acts initial_state = Some s ->
  (forall rid1 rid2 r1 r2,
      status_tracker s !! rid1 = Some r1 -> status_tracker s !! rid2 = Some r2 ->
      status r1 = Processing -> status r2 = Processing -> rid1 = rid2) /\
  (forall rid, current_request_id (queue_stats s) = Some rid ->
      exists r, status_tracker s !! rid = Some r /\ status r = Processing) /\
  (forall rid r, status_tracker s !! rid = Some r -> status r = Processing ->
      current_request_id (queue_stats s) = Some rid) /\
  ((forall rid r, status_tracker s !! rid = Some r -> status r <> Processing) ->
      current_request_id (queue_stats s) = None).
Proof.
  intros Hex. pose proof (inv_exec _ _ _ inv_initial Hex) as Hinv.
  repeat split.
  - intros rid1 rid2 r1 r2 H1 H2 P1 P2.
    pose proof (inv_processing s Hinv _ _ H1 P1) as E1.
    pose proof (inv_processing s Hinv _ _ H2 P2) as E2. congruence.
  - intros rid Hc. rewrite (inv_current s Hinv) in Hc.
    destruct (inv_busy s Hinv rid Hc) as (r & _ & _ & Hr & Hp & _). eauto.
  - intros rid r Hr Hp. rewrite (inv_current s Hinv).
    eapply inv_processing; eauto.
  - intros Hnone. rewrite (inv_current s Hinv).
    destruct (worker_rid (worker s)) as [rid|] eqn:Hw; [|reflexivity].
    destruct (inv_busy s Hinv rid Hw) as (r & _ & _ & Hr & Hp & _).
    exfalso. eapply Hnone; eauto.
Qed.

(** ** Failures of the completion call *)

(** C4: whenever the worker has a request in hand (the completion call or
    the iteration over its stream is in flight) and that raises with message
    [msg], the transition exists: it appends the error marker with [msg] to
    the relay queue of the request, sets the record to "error" with [msg]
    and the completion time, adds one to the errors counter, clears the
    current-request identifier, and leaves the worker waiting on the queue,
    whose content is unchanged, so that the next dequeue is possible. *)
Theorem C4_completion_failure acts s rid msg now :
  exec acts initial_state = Some s ->
  worker_rid (worker s) = Some rid ->
  exists s' q l r,
    step (LlmRaised msg now) s = Some s' /\
    stream_chunks s !! rid = Some q /\
    chunk_queues s !! q = Some l /\
    chunk_queues s' !! q = Some (l ++ [CError msg]) /\
    status_tracker s' !! rid = Some r /\
    status r = Error /\ error r = Some msg /\ completed_at r = Some now /\
    total_errors (queue_stats s') = total_errors (queue_stats s) + 1 /\
    current_request_id (queue_stats s') = None /\
    worker s' = WIdle /\
    request_queue s' = request_queue s /\
    (forall now', is_Some (step (WorkerGet now') s')).
Proof.
  intros Hex Hw. pose proof (inv_exec _ _ _ inv_initial Hex) as Hinv.
  destruct (inv_busy s Hinv rid Hw) as (r0 & q & l & Hr0 & Hst & Hq & Hl).
  exists (processing_error rid msg now s), q, (CText <$> l), (mark_error now msg r0).
  assert (Hstep : step (LlmRaised msg now) s = Some (processing_error rid msg now s)).
  { simpl. unfold llm_raised. destruct (worker s); inversion Hw; subst; reflexivity. }
  split; [exact Hstep|]. split; [exact Hq|]. split; [exact Hl|].
  unfold processing_error. rewrite Hq. simpl.
  split; [rewrite list_lookup_alter_eq, Hl; reflexivity|].
  split; [rewrite lookup_alter_eq, Hr0; reflexivity|].
  repeat split.
  intros now'. unfold worker_get. simpl.
  destruct (request_queue s) as [|item rest]; [eauto|].
  destruct (alter _ _ _ !! _); eauto.
Qed.

(** ** First in, first out *)

Lemma admission_order_snoc acts a :
  admission_order (acts ++ [a]) = admission_order acts ++ admits a.
Proof.
  unfold admission_order. rewrite fmap_app, concat_app. simpl.
  rewrite app_nil_r. reflexivity.
Qed.

Lemma fifo_shape_frame order s s' :
  worker_rid (worker s') = worker_rid (worker s) ->
  request_queue s' = request_queue s ->
  status_tracker s' = status_tracker s ->
  fifo_shape order s -> fifo_shape order s'.
Proof.
  intros Hw Hq Ht (served & Ho & Hs). exists served. rewrite Hw, Hq, Ht. auto.
Qed.

Lemma handler_run_frame h s h' s' :
  handler_run h s = Some (h', s') ->
  request_queue s' = request_queue s /\
  status_tracker s' = status_tracker s /\
  queue_stats s' = queue_stats s /\
  worker s' = worker s /\
  handlers s' = handlers s.
Proof.
  unfold handler_run. intros H.
  destruct_matches H;
    inversion H; subst; auto.
Qed.

Lemma stream_resume_frame i s s' :
  stream_resume i s = Some s' ->
  request_queue s' = request_queue s /\
  status_tracker s' = status_tracker s /\
  queue_stats s' = queue_stats s /\
  worker s' = worker s.
Proof.
  unfold stream_resume.
  destruct (handlers s !! i) as [h|]; [|discriminate]. simpl.
  destruct (handler_run h s) as [[h' s1]|] eqn:Hrun; [|discriminate]. simpl.
  intros [= <-]. apply handler_run_frame in Hrun as (? & ? & ? & ? & _). auto.
Qed.

Lemma fifo_shape_enqueue order rid now cid data s :
  inv s -> status_tracker s !! rid = None ->
  fifo_shape order s ->
  fifo_shape (order ++ [rid]) (fst (enqueue rid now cid data s)).
Proof.
  intros Hinv Hf (served & -> & Hs). exists served. simpl. split.
  - rewrite fmap_app. simpl. rewrite <- !app_assoc. reflexivity.
  - eapply Forall_impl; [exact Hs|]. intros x (r & Hr & Ht). exists r.
    rewrite lookup_insert_ne; [auto|]. intros ->. congruence.
Qed.

Lemma fifo_shape_terminate order s rid f hq st' :
  inv s -> worker_rid (worker s) = Some rid ->
  (forall r, terminal_status (status (f r))) ->
  fifo_shape order s ->
  fifo_shape order
    (set_worker WIdle
       (set_queue_stats st' (update_record rid f (set_chunk_queues hq s)))).
Proof.
  intros Hinv Hw Hf (served & -> & Hs).
  destruct (inv_busy s Hinv rid Hw) as (rb & _ & _ & Hrb & _).
  exists (served ++ [rid]). simpl. rewrite Hw. simpl. split.
  - rewrite <- app_assoc. reflexivity.
  - apply Forall_app. split.
    + eapply Forall_impl; [exact Hs|]. intros x (r & Hr & Ht).
      destruct (decide (rid = x)) as [<-|Hd].
      * exists (f rb). rewrite lookup_alter_eq, Hrb. split; [reflexivity|apply Hf].
      * exists r. rewrite lookup_alter_ne by assumption. auto.
    + constructor; [|constructor]. exists (f rb).
      rewrite lookup_alter_eq, Hrb. split; [reflexivity|apply Hf].
Qed.

Lemma fifo_shape_processing_error order s rid msg now :
  inv s -> worker_rid (worker s) = Some rid ->
  fifo_shape order s -> fifo_shape order (processing_error rid msg now s).
Proof.
  intros Hinv Hw Hf. unfold processing_error.
  destruct (stream_chunks s !! rid) as [q|].
  - apply (fifo_shape_terminate order s rid (mark_error now msg)
             (alter (fun l => l ++ [CError msg]) q (chunk_queues s))); auto.
    intros r. right. reflexivity.
  - apply (fifo_shape_terminate order s rid (mark_error now msg) (chunk_queues s)); auto.
    intros r. right. reflexivity.
Qed.

Lemma fifo_shape_step order a s s' :
  inv s -> fifo_shape order s -> step a s = Some s' ->
  fifo_shape (order ++ admits a) s'.
Proof.
  intros Hinv Hf Hs. destruct a; simpl in Hs |- *; rewrite ?app_nil_r.
  - destruct (status_tracker s !! request_id) eqn:E; [discriminate|].
    inversion Hs; subst. unfold post_queue_add.
    destruct (validate QueueRequest body) as [request|];
      [|rewrite app_nil_r; assumption].
    exact (fifo_shape_enqueue order request_id now
      match dict_get "client_id" request with Some (JStr c) => c | _ => "" end
      request s Hinv E Hf).
  - destruct (status_tracker s !! request_id) eqn:E; [discriminate|].
    inversion Hs; subst. unfold post_chat_completions.
    destruct (validate OpenAIChatRequest body) as [request|];
      [|rewrite app_nil_r; assumption].
    pose proof (fifo_shape_enqueue order request_id now "openai_compat"
                  request s Hinv E Hf) as H.
    destruct (dict_get "stream" request) as [[| [|] | | | | |]|]; exact H.
  - inversion Hs; subst. unfold get_stream.
    destruct (status_tracker s !! request_id); [|assumption].
    eapply fifo_shape_frame; [..|exact Hf]; reflexivity.
  - apply stream_resume_frame in Hs as (Hq & Ht & _ & Hw).
    eapply fifo_shape_frame; [..|exact Hf]; congruence.
  - unfold worker_get in Hs. destruct (worker s) eqn:Hw; try discriminate.
    destruct (request_queue s) as [|item rest] eqn:Hq;
      [inversion Hs; subst; assumption|].
    destruct (inv_queue_records s Hinv item) as (r & Hr & Hst);
      [rewrite Hq; left|].
    rewrite Hr in Hs. inversion Hs; subst; clear Hs.
    destruct Hf as (served & -> & Hsv). exists served. simpl.
    rewrite Hw, Hq. simpl. split; [reflexivity|].
    eapply Forall_impl; [exact Hsv|]. intros x (r' & Hr' & Ht). exists r'.
    rewrite lookup_insert_ne; [auto|]. intros E. rewrite E in Hr.
    rewrite Hr in Hr'. inversion Hr'; subst. destruct Ht; congruence.
  - unfold llm_created in Hs. destruct (worker s) eqn:Hw; try discriminate.
    inversion Hs; subst. eapply fifo_shape_frame; [..|exact Hf]; try reflexivity.
    simpl. rewrite Hw. reflexivity.
  - unfold llm_chunk in Hs. destruct (worker s) eqn:Hw; try discriminate.
    assert (Hb : worker_rid (worker s) = Some rid) by (rewrite Hw; reflexivity).
    destruct content as [c|]; [|inversion Hs; subst; assumption].
    destruct (stream_chunks s !! rid) as [q|];
      (destruct c; inversion Hs; subst; [assumption|]).
    + eapply fifo_shape_frame; [..|exact Hf]; try reflexivity.
      simpl. rewrite Hw. reflexivity.
    + apply fifo_shape_processing_error; assumption.
  - unfold llm_finished in Hs. destruct (worker s) eqn:Hw; try discriminate.
    assert (Hb : worker_rid (worker s) = Some rid) by (rewrite Hw; reflexivity).
    destruct (stream_chunks s !! rid) as [q|]; inversion Hs; subst.
    + apply (fifo_shape_terminate order s rid (mark_complete now full_response)
               (alter (fun l => l ++ [CNone]) q (chunk_queues s))); auto.
      intros r. left. reflexivity.
    + apply fifo_shape_processing_error; assumption.
  - unfold llm_raised in Hs. destruct (worker s) eqn:Hw; try discriminate;
      inversion Hs; subst;
      (apply fifo_shape_processing_error; [assumption|rewrite Hw; reflexivity|assumption]).
Qed.

Lemma fifo_shape_exec acts :
  forall s, exec acts initial_state = Some s ->
            fifo_shape (admission_order acts) s.
Proof.
  induction acts as [|a acts IH] using rev_ind; intros s Hex.
  - inversion Hex; subst. exists []. split; [reflexivity|constructor].
  - rewrite exec_app in Hex.
    destruct (exec acts initial_state) as [s0|] eqn:E0; [|discriminate].
    simpl in Hex. destruct (step a s0) as [s1|] eqn:Hs; [|discriminate].
    simpl in Hex. inversion Hex; subst.
    rewrite admission_order_snoc.
    eapply fifo_shape_step; eauto. eapply inv_exec; [apply inv_initial|eauto].
Qed.

(** C2: in every state the server reaches, if [a] was admitted before [b]
    (through /queue/add or /v1/chat/completions) and the record of [b] is no
    longer "queued", then the record of [a] is "complete" or "error": [a]
    reached its terminal state before [b] left the queue. *)
Theorem C2_fifo acts s a b rb :
  exec acts initial_state = Some s ->
  admitted_before acts a b ->
  status_tracker s !! b = Some rb ->
  status rb <> Queued ->
  exists ra, status_tracker s !! a = Some ra /\
             (status ra = Complete \/ status ra = Error).
Proof.
  intros Hex (l1 & l2 & l3 & Ho) Hb Hnq.
  pose proof (inv_exec _ _ _ inv_initial Hex) as Hinv.
  destruct (fifo_shape_exec acts s Hex) as (served & Hs & Hall).
  rewrite Ho in Hs.
  assert (Hqueued : b ∉ qi_request_id <$> request_queue s).
  { intros Hin. apply list_elem_of_fmap in Hin as (item & -> & Hin).
    destruct (inv_queue_records s Hinv item Hin) as (r & Hr & Hq). congruence. }
  assert (Ha : a ∈ served).
  { change (l1 ++ a :: l2 ++ b :: l3) with (l1 ++ [a] ++ (l2 ++ b :: l3)) in Hs.
    rewrite app_assoc in Hs.
    apply app_eq_inv in Hs as [(k & Hk1 & Hk2)|(k & Hk1 & Hk2)].
    - destruct k as [|x k].
      + rewrite app_nil_r in Hk1. subst served. set_solver.
      + exfalso. apply Hqueued.
        destruct (worker_rid (worker s)); simpl in Hk2.
        * inversion Hk2 as [[Hx Hk]]. rewrite Hk. set_solver.
        * rewrite Hk2. set_solver.
    - subst served. set_solver. }
  rewrite Forall_forall in Hall. exact (Hall a Ha).
Qed.

(** ** Requests a step leaves alone *)

Lemma untouched_refl s rid : untouched s s rid.
Proof. repeat split; auto. Qed.

Lemma untouched_enqueue rid0 now cid data s rid :
  rid0 <> rid -> untouched s (fst (enqueue rid0 now cid data s)) rid.
Proof.
  intros Hne. repeat split; simpl; auto.
  rewrite lookup_insert_ne by assumption. reflexivity.
Qed.

Lemma untouched_new_handler s s0 v rid0 pc rid :
  rid0 <> rid -> untouched s0 s rid ->
  untouched s0 (set_handlers (handlers s ++ [mkHandler v rid0 pc []]) s) rid.
Proof.
  intros Hne (H1 & H2 & H3 & H4 & H5). repeat split; simpl; auto.
  - intros Hl. apply H5; [assumption|].
    apply lookup_app_Some in Hl as [Hl|[_ Hl]]; [assumption|].
    apply list_lookup_singleton_Some in Hl as [_ <-]. simpl in *. congruence.
  - intros Hl. apply lookup_app_l_Some. apply H5; assumption.
Qed.

Lemma handler_run_rid h s h' s' :
  handler_run h s = Some (h', s') -> h_rid h' = h_rid h.
Proof.
  unfold handler_run, wait_relay. intros H.
  destruct_matches H;
    inversion H; subst; reflexivity.
Qed.

Lemma untouched_update_handler s0 s i h h' rid :
  handlers s !! i = Some h -> h_rid h <> rid -> h_rid h' = h_rid h ->
  handlers s0 = handlers s ->
  untouched s0 s rid ->
  untouched s0 (set_handlers (<[i := h']> (handlers s)) s) rid.
Proof.
  intros Hh Hne Hrid Hhs (H1 & H2 & H3 & H4 & H5). repeat split; simpl; auto.
  - intros Hl. apply list_lookup_insert_Some in Hl as [(-> & -> & _)|[Hij Hl]].
    + congruence.
    + rewrite Hhs. assumption.
  - intros Hl. rewrite Hhs in Hl. destruct (decide (i = i0)) as [->|Hij].
    + congruence.
    + rewrite list_lookup_insert_ne by assumption. assumption.
Qed.

Lemma handler_queue_other s h q rid q' :
  inv s -> handler_ok s h -> h_pc h = HDraining q -> h_rid h <> rid ->
  stream_chunks s !! rid = Some q' -> q <> q'.
Proof.
  intros Hinv (r & _ & Hok) Hpc Hne Hq' ->. rewrite Hpc in Hok.
  destruct Hok as [_ [Hc|[Hn _]]].
  - apply Hne. eapply inv_chunks_inj; eauto.
  - eapply Hn; eauto.
Qed.

Lemma untouched_handler_run s h h' s' rid :
  inv s -> handler_ok s h -> h_rid h <> rid ->
  handler_run h s = Some (h', s') ->
  untouched s s' rid /\ handlers s' = handlers s.
Proof.
  intros Hinv Hok Hne Hrun. unfold handler_run in Hrun.
  destruct (h_pc h) eqn:Hpc.
  1-4: assert (s' = s) as -> by
      (destruct_matches Hrun; inversion Hrun; reflexivity);
    split; [apply untouched_refl|reflexivity].
  - destruct (chunk_queues s !! chunk_queue) as [[|c rest]|] eqn:Hq; try discriminate.
    assert (s' = set_chunk_queues (<[chunk_queue := rest]> (chunk_queues s)) s) as ->
      by (destruct (h_variant h), c; inversion Hrun; reflexivity).
    split; [|reflexivity]. repeat split; simpl; auto.
    intros q' Hq'. apply list_lookup_insert_ne.
    eapply handler_queue_other; eauto.
  - inversion Hrun; subst. split; [|reflexivity]. repeat split; simpl; auto.
    apply lookup_delete_ne. assumption.
  - discriminate.
Qed.

Lemma untouched_terminate s rid0 f hq st' rid :
  inv s -> worker_rid (worker s) = Some rid0 -> rid0 <> rid ->
  (forall q, stream_chunks s !! rid = Some q -> hq !! q = chunk_queues s !! q) ->
  untouched s
    (set_worker WIdle
       (set_queue_stats st' (update_record rid0 f (set_chunk_queues hq s)))) rid.
Proof.
  intros Hinv Hw Hne Hhq. repeat split; simpl; auto.
  - apply lookup_alter_ne. assumption.
  - intros r Hr Hp. pose proof (inv_processing s Hinv rid r Hr Hp). congruence.
Qed.

Lemma alter_other_queue s rid0 q0 rid q (f : list Chunk -> list Chunk) :
  inv s -> rid0 <> rid -> stream_chunks s !! rid0 = Some q0 ->
  stream_chunks s !! rid = Some q ->
  alter f q0 (chunk_queues s) !! q = chunk_queues s !! q.
Proof.
  intros Hinv Hne H0 H. apply list_lookup_alter_ne. intros ->.
  apply Hne. eapply inv_chunks_inj; eauto.
Qed.

Lemma untouched_processing_error s rid0 msg now rid :
  inv s -> worker_rid (worker s) = Some rid0 -> rid0 <> rid ->
  untouched s (processing_error rid0 msg now s) rid.
Proof.
  intros Hinv Hw Hne. unfold processing_error.
  destruct (stream_chunks s !! rid0) as [q0|] eqn:H0.
  - apply (untouched_terminate s rid0 (mark_error now msg)
             (alter (fun l => l ++ [CError msg]) q0 (chunk_queues s))); auto.
    intros q Hq. eapply alter_other_queue; eauto.
  - apply (untouched_terminate s rid0 (mark_error now msg) (chunk_queues s)); auto.
Qed.

Lemma step_untouched a s s' rid :
  inv s -> step a s = Some s' -> touched a s <> Some rid ->
  untouched s s' rid.
Proof.
  intros Hinv Hs Ht. destruct a; simpl in Hs, Ht.
  - destruct (status_tracker s !! request_id); [discriminate|].
    inversion Hs; subst. unfold post_queue_add.
    destruct (validate QueueRequest body) as [request|]; [|apply untouched_refl].
    apply (untouched_enqueue request_id now
      match dict_get "client_id" request with Some (JStr c) => c | _ => "" end
      request s rid). congruence.
  - destruct (status_tracker s !! request_id); [discriminate|].
    inversion Hs; subst. unfold post_chat_completions.
    destruct (validate OpenAIChatRequest body) as [request|]; [|apply untouched_refl].
    assert (Hne : request_id <> rid) by congruence.
    pose proof (untouched_enqueue request_id now "openai_compat" request s rid Hne) as H.
    destruct (dict_get "stream" request) as [[| [|] | | | | |]|]; try exact H.
    apply (untouched_new_handler _ s OpenAISSE request_id HStart rid Hne) in H.
    exact H.
  - inversion Hs; subst. unfold get_stream.
    destruct (status_tracker s !! request_id); [|apply untouched_refl].
    apply untouched_new_handler; [congruence|apply untouched_refl].
  - unfold stream_resume in Hs.
    destruct (handlers s !! i) as [h|] eqn:Hh; [|discriminate]. simpl in Hs, Ht.
    destruct (handler_run h s) as [[h' s1]|] eqn:Hrun; [|discriminate].
    simpl in Hs. inversion Hs; subst.
    assert (Hne : h_rid h <> rid) by congruence.
    destruct (untouched_handler_run s h h' s1 rid Hinv
                (inv_handlers s Hinv i h Hh) Hne Hrun) as [Hu Hhs].
    eapply untouched_update_handler; eauto.
    + rewrite Hhs. exact Hh.
    + eapply handler_run_rid; eauto.
  - unfold worker_get in Hs. destruct (worker s) eqn:Hw; try discriminate.
    destruct (request_queue s) as [|item rest] eqn:Hq;
      [inversion Hs; subst; apply untouched_refl|].
    simpl in Ht.
    destruct (status_tracker s !! qi_request_id item) as [r|];
      inversion Hs; subst; [|repeat split; simpl; auto].
    assert (Hne : qi_request_id item <> rid) by congruence.
    repeat split; simpl; auto.
    + apply lookup_insert_ne. assumption.
    + apply lookup_insert_ne. assumption.
    + intros q H. apply lookup_app_l. eapply inv_chunks_range; eauto.
    + rewrite Hw. reflexivity.
  - unfold llm_created in Hs. destruct (worker s) eqn:Hw; try discriminate.
    inversion Hs; subst. repeat split; simpl; auto. rewrite Hw. reflexivity.
  - unfold llm_chunk in Hs. destruct (worker s) eqn:Hw; try discriminate.
    simpl in Ht. assert (Hne : rid0 <> rid) by congruence.
    assert (Hb : worker_rid (worker s) = Some rid0) by (rewrite Hw; reflexivity).
    destruct content as [c|]; [|inversion Hs; subst; apply untouched_refl].
    destruct (stream_chunks s !! rid0) as [q0|] eqn:H0;
      (destruct c; inversion Hs; subst; [apply untouched_refl|]).
    + repeat split; simpl; auto.
      * intros q Hq. eapply alter_other_queue; eauto.
      * intros r Hr Hp. pose proof (inv_processing s Hinv rid r Hr Hp). congruence.
    + apply untouched_processing_error; assumption.
  - unfold llm_finished in Hs. destruct (worker s) eqn:Hw; try discriminate.
    simpl in Ht. assert (Hne : rid0 <> rid) by congruence.
    assert (Hb : worker_rid (worker s) = Some rid0) by (rewrite Hw; reflexivity).
    destruct (stream_chunks s !! rid0) as [q0|] eqn:H0; inversion Hs; subst.
    + apply (untouched_terminate s rid0 (mark_complete now full_response)
               (alter (fun l => l ++ [CNone]) q0 (chunk_queues s))); auto.
      intros q Hq. eapply alter_other_queue; eauto.
    + apply untouched_processing_error; assumption.
  - unfold llm_raised in Hs. destruct (worker s) eqn:Hw; try discriminate;
      simpl in Ht; inversion Hs; subst;
      (apply untouched_processing_error;
       [assumption|rewrite Hw; reflexivity|congruence]).
Qed.

(** ** The relay with at most one reader *)

Lemma append_cons x (a b : string) : String x a +:+ b = String x (a +:+ b).
Proof. reflexivity. Qed.

Lemma append_nil_r (a : string) : a +:+ "" = a.
Proof.
  induction a as [|x a IH]; [reflexivity|]. rewrite append_cons, IH. reflexivity.
Qed.

Lemma append_assoc (a b c : string) : (a +:+ b) +:+ c = a +:+ (b +:+ c).
Proof.
  induction a as [|x a IH]; [reflexivity|]. rewrite !append_cons, IH. reflexivity.
Qed.

Lemma join_snoc l c : join (l ++ [c]) = join l +:+ c.
Proof.
  induction l as [|x l IH]; simpl.
  - apply append_nil_r.
  - rewrite IH. symmetry. apply append_assoc.
Qed.

Lemma count_terminal_app o1 o2 :
  count_terminal (o1 ++ o2) = count_terminal o1 + count_terminal o2.
Proof. unfold count_terminal. rewrite filter_app, length_app. reflexivity. Qed.

Lemma chunk_texts_app o1 o2 :
  chunk_texts (o1 ++ o2) = chunk_texts o1 ++ chunk_texts o2.
Proof.
  induction o1 as [|ev o1 IH]; [reflexivity|].
  destruct ev; simpl; rewrite ?IH; reflexivity.
Qed.

Lemma count_terminal_none_done out :
  count_terminal out = 0 -> Forall (fun ev => is_done ev = false) out.
Proof.
  induction out as [|ev out IH]; [constructor|].
  unfold count_terminal. rewrite filter_cons.
  destruct (decide (is_terminal ev = true)) as [Ht|Ht]; [discriminate|].
  intros H. constructor; [|apply IH; exact H].
  destruct ev; simpl in *; congruence.
Qed.

Lemma unattended_untouched s s' rid :
  untouched s s' rid -> unattended s' rid -> unattended s rid.
Proof.
  intros (_ & _ & _ & _ & H5) Hu i h Hh Hr. apply (Hu i h); [|assumption].
  apply H5; assumption.
Qed.

Lemma sole_reader_untouched s s' rid :
  untouched s s' rid -> sole_reader s' rid -> sole_reader s rid.
Proof.
  intros (_ & _ & _ & _ & H5) Hs i j hi hj Hi Hj Ri Rj.
  apply (Hs i j hi hj); try assumption; apply H5; assumption.
Qed.

Lemma relay_shape_untouched s s' rid r dr :
  untouched s s' rid -> status_tracker s !! rid = Some r ->
  relay_shape s rid r dr -> relay_shape s' rid r dr.
Proof.
  intros (H1 & H2 & H3 & H4 & _) Hr. unfold relay_shape.
  destruct (status r) eqn:Hst; auto.
  - intros (q & rest & Hq & Hl & Hacc). exists q, rest.
    rewrite H2, (H3 q Hq), (H4 r Hr Hst). auto.
  - intros (q & rest & Hq & Hl & Hres). exists q, rest.
    rewrite H2, (H3 q Hq). auto.
  - intros (q & rest & msg & Hq & Hl & He). exists q, rest, msg.
    rewrite H2, (H3 q Hq). auto.
Qed.

Lemma reader_shape_untouched s s' h r :
  untouched s s' (h_rid h) -> status_tracker s !! h_rid h = Some r ->
  reader_shape s h r -> reader_shape s' h r.
Proof.
  intros Hu Hr. pose proof Hu as (_ & H2 & _). unfold reader_shape.
  destruct (finished (h_pc h)); [auto|].
  intros (Hc & Hrel & Hd & Hq).
  split; [assumption|]. split; [eapply relay_shape_untouched; eauto|].
  split; [|assumption]. intros q Hpc. rewrite H2. auto.
Qed.

Lemma shaped_untouched s s' rid :
  untouched s s' rid -> shaped s rid -> shaped s' rid.
Proof.
  intros Hu [Hun Hrd]. pose proof Hu as (H1 & _ & _ & _ & H5). split.
  - intros r Hr Hua. rewrite H1 in Hr.
    eapply relay_shape_untouched; eauto.
    apply Hun; [assumption|]. eapply unattended_untouched; eauto.
  - intros i h r Hh Hrid Hr Hs. rewrite H1 in Hr. subst rid.
    eapply reader_shape_untouched; eauto.
    apply (Hrd i h r);
      [apply H5; auto|reflexivity|assumption|eapply sole_reader_untouched; eauto].
Qed.

Lemma shaped_new_handler s v rid pc :
  shaped s rid -> (pc = HStart \/ pc = HPolling None) ->
  shaped (set_handlers (handlers s ++ [mkHandler v rid pc []]) s) rid.
Proof.
  intros [Hun Hrd] Hpc.
  assert (Hnew : (handlers s ++ [mkHandler v rid pc []]) !! length (handlers s)
                 = Some (mkHandler v rid pc [])).
  { rewrite lookup_app_r by lia. rewrite Nat.sub_diag. reflexivity. }
  split.
  - intros r Hr Hu. exfalso. eapply (Hu (length (handlers s))); [exact Hnew|reflexivity].
  - intros i h r Hh Hrid Hr Hs. simpl in *.
    assert (Hi : i = length (handlers s)) by (eapply Hs; eauto).
    subst i. rewrite Hnew in Hh. inversion Hh; subst h; clear Hh.
    assert (Hu : unattended s rid).
    { intros j hj Hj Hrj. pose proof (lookup_lt_Some _ _ _ Hj) as Hlt.
      assert (j = length (handlers s)); [|lia].
      eapply (Hs j (length (handlers s))); eauto.
      apply lookup_app_l_Some. exact Hj. }
    pose proof (Hun r Hr Hu) as Hrel. unfold reader_shape. simpl.
    destruct Hpc as [-> | ->]; simpl; repeat split; auto; discriminate.
Qed.

Lemma shaped_enqueue_fresh rid now cid data s :
  inv s -> status_tracker s !! rid = None ->
  shaped (fst (enqueue rid now cid data s)) rid.
Proof.
  intros Hinv Hf. split.
  - intros r Hr _. simpl in Hr. rewrite lookup_insert_eq in Hr.
    inversion Hr; subst. exact Logic.I.
  - intros i h r Hh Hrid _ _. simpl in Hh. exfalso.
    destruct (inv_handlers s Hinv i h Hh) as (r' & Hr' & _). congruence.
Qed.

Lemma shaped_dequeue s rid r now rest :
  inv s -> shaped s rid -> worker s = WIdle ->
  status_tracker s !! rid = Some r -> status r = Queued ->
  shaped (mkState rest
            (<[rid := mark_processing now r]> (status_tracker s))
            (<[rid := length (chunk_queues s)]> (stream_chunks s))
            (chunk_queues s ++ [[]])
            (set_current (Some rid) (queue_stats s))
            (WCreating rid)
            (handlers s)) rid.
Proof.
  intros Hinv [Hun Hrd] Hw Hr Hst.
  assert (Hrel : relay_shape
            (mkState rest
               (<[rid := mark_processing now r]> (status_tracker s))
               (<[rid := length (chunk_queues s)]> (stream_chunks s))
               (chunk_queues s ++ [[]])
               (set_current (Some rid) (queue_stats s))
               (WCreating rid)
               (handlers s)) rid (mark_processing now r) []).
  { unfold relay_shape. simpl. exists (length (chunk_queues s)), [].
    rewrite lookup_insert_eq. rewrite lookup_app_r by lia.
    rewrite Nat.sub_diag. auto. }
  split.
  - intros r' Hr' _. simpl in Hr'. rewrite lookup_insert_eq in Hr'.
    inversion Hr'; subst. exact Hrel.
  - intros i h r' Hh Hrid Hr' Hs. simpl in Hh, Hr'.
    rewrite lookup_insert_eq in Hr'. inversion Hr'; subst r'; clear Hr'.
    pose proof (Hrd i h r Hh Hrid Hr Hs) as Hshape.
    unfold reader_shape in *. simpl.
    destruct (finished (h_pc h));
      [destruct Hshape as [[Ht|Ht] _]; congruence|].
    destruct Hshape as (Hc & _ & Hd & Hq). rewrite (Hq Hst).
    split; [assumption|]. split; [rewrite Hrid; exact Hrel|].
    split; [|discriminate].
    intros q Hq'. exfalso. rewrite Hrid in Hd.
    destruct (inv_chunks_status s Hinv rid q (Hd q Hq')) as (r2 & Hr2 & Hn).
    congruence.
Qed.

Lemma shaped_relay_change s s' rid r r' :
  handlers s' = handlers s ->
  stream_chunks s' !! rid = stream_chunks s !! rid ->
  status_tracker s !! rid = Some r -> status_tracker s' !! rid = Some r' ->
  status r = Processing -> status r' <> Queued ->
  (forall dr, relay_shape s rid r dr -> relay_shape s' rid r' dr) ->
  shaped s rid -> shaped s' rid.
Proof.
  intros Hhs Hsc Hr Hr' Hst Hst' Hrel [Hun Hrd]. split.
  - intros r0 Hr0 Hu. rewrite Hr' in Hr0. inversion Hr0; subst r0.
    apply Hrel. apply Hun; [assumption|].
    intros i h Hh. apply (Hu i h). rewrite Hhs. assumption.
  - intros i h r0 Hh Hrid Hr0 Hs. rewrite Hr' in Hr0. inversion Hr0; subst r0.
    rewrite Hhs in Hh.
    assert (Hs0 : sole_reader s rid).
    { intros a b ha hb Ha Hb. apply Hs; rewrite Hhs; assumption. }
    pose proof (Hrd i h r Hh Hrid Hr Hs0) as Hshape.
    unfold reader_shape in *.
    destruct (finished (h_pc h));
      [destruct Hshape as [[Ht|Ht] _]; congruence|].
    destruct Hshape as (Hc & Hre & Hd & Hq). rewrite Hrid in *.
    split; [assumption|]. split; [apply Hrel; assumption|].
    split; [|intros; congruence].
    intros q Hq'. rewrite Hsc. apply Hd. assumption.
Qed.

Lemma shaped_put s rid acc q c :
  inv s -> worker s = WStreaming rid acc ->
  stream_chunks s !! rid = Some q ->
  shaped s rid ->
  shaped (set_worker (WStreaming rid (acc +:+ c)) (put q (CText c) s)) rid.
Proof.
  intros Hinv Hw Hq.
  destruct (inv_busy s Hinv rid) as (r & q' & l & Hr & Hst & Hq' & Hl);
    [rewrite Hw; reflexivity|].
  apply (shaped_relay_change s _ rid r r);
    [reflexivity|reflexivity|exact Hr|exact Hr|exact Hst|congruence|].
  intros dr. unfold relay_shape. rewrite Hst. simpl.
  intros (q0 & rest & Hq0 & Hl0 & Hacc). rewrite Hq in Hq0. inversion Hq0; subst q0.
  exists q, (rest ++ [c]). split; [assumption|]. split.
  - rewrite list_lookup_alter_eq, Hl0. simpl. rewrite fmap_app. reflexivity.
  - rewrite Hw in Hacc. simpl in Hacc. rewrite app_assoc, join_snoc, Hacc.
    reflexivity.
Qed.

Lemma shaped_complete s rid acc q now st' :
  inv s -> worker s = WStreaming rid acc ->
  stream_chunks s !! rid = Some q ->
  shaped s rid ->
  shaped (set_worker WIdle
            (set_queue_stats st'
               (update_record rid (mark_complete now acc) (put q CNone s)))) rid.
Proof.
  intros Hinv Hw Hq.
  destruct (inv_busy s Hinv rid) as (r & q' & l & Hr & Hst & Hq' & Hl);
    [rewrite Hw; reflexivity|].
  apply (shaped_relay_change s _ rid r (mark_complete now acc r));
    [reflexivity|reflexivity|exact Hr| |exact Hst| |].
  - simpl. rewrite lookup_alter_eq, Hr. reflexivity.
  - simpl. discriminate.
  - intros dr. unfold relay_shape. rewrite Hst. simpl.
    intros (q0 & rest & Hq0 & Hl0 & Hacc). rewrite Hq in Hq0. inversion Hq0; subst q0.
    exists q, rest. split; [assumption|]. split.
    + rewrite list_lookup_alter_eq, Hl0. reflexivity.
    + rewrite Hw in Hacc. simpl in Hacc. congruence.
Qed.

Lemma shaped_processing_error s rid msg now :
  inv s -> worker_rid (worker s) = Some rid ->
  shaped s rid -> shaped (processing_error rid msg now s) rid.
Proof.
  intros Hinv Hw.
  destruct (inv_busy s Hinv rid Hw) as (r & q & l & Hr & Hst & Hq & Hl).
  unfold processing_error. rewrite Hq.
  apply (shaped_relay_change s _ rid r (mark_error now msg r));
    [reflexivity|reflexivity|exact Hr| |exact Hst| |].
  - simpl. rewrite lookup_alter_eq, Hr. reflexivity.
  - simpl. discriminate.
  - intros dr. unfold relay_shape. rewrite Hst. simpl.
    intros (q0 & rest & Hq0 & Hl0 & Hacc). rewrite Hq in Hq0. inversion Hq0; subst q0.
    exists q, rest, msg. split; [assumption|]. split; [|reflexivity].
    rewrite list_lookup_alter_eq, Hl0. reflexivity.
Qed.

Lemma reader_shape_emit s h r evs pc :
  reader_shape s h r -> finished (h_pc h) = false ->
  finished pc = false -> (forall q, pc <> HDraining q) ->
  count_terminal evs = 0 -> chunk_texts evs = [] ->
  reader_shape s (emit evs pc h) r.
Proof.
  unfold reader_shape. intros Hsh Hf Hf' Hnd Hc Ht. rewrite Hf in Hsh. simpl.
  rewrite Hf'. destruct Hsh as (H1 & H2 & H3 & H4).
  rewrite count_terminal_app, chunk_texts_app, Ht, app_nil_r, H1, Hc.
  repeat split; auto. intros q Hq. exfalso. eapply Hnd; eauto.
Qed.

Lemma reader_shape_wait_relay s h r :
  reader_shape s h r -> finished (h_pc h) = false ->
  reader_shape s (wait_relay s h) r.
Proof.
  intros Hsh Hf. unfold wait_relay.
  destruct (stream_chunks s !! h_rid h) as [q|] eqn:Hq.
  - unfold reader_shape in *. rewrite Hf in Hsh. simpl.
    destruct Hsh as (H1 & H2 & H3 & H4). rewrite app_nil_r.
    repeat split; auto. intros q' [= <-]. assumption.
  - apply reader_shape_emit; auto; discriminate.
Qed.

Lemma reader_shape_error_status s h r evs :
  reader_shape s h r -> finished (h_pc h) = false -> status r = Error ->
  count_terminal evs = 1 -> Forall (fun ev => is_done ev = false) evs ->
  reader_shape s (emit evs HDone h) r.
Proof.
  unfold reader_shape. intros Hsh Hf Hst Hc Hnd. rewrite Hf in Hsh. simpl.
  destruct Hsh as (H1 & _). rewrite count_terminal_app, H1, Hc.
  split; [right; assumption|]. split; [reflexivity|]. split; [congruence|].
  intros _. apply Forall_app. split; [|assumption].
  apply count_terminal_none_done. assumption.
Qed.

Lemma app_singleton_cons {A} (l : list A) x c rest :
  l ++ [x] = c :: rest ->
  (l = [] /\ c = x /\ rest = []) \/ (exists l0, l = c :: l0 /\ rest = l0 ++ [x]).
Proof.
  destruct l as [|y l0]; simpl; intros [= -> <-]; [left|right]; eauto.
Qed.

Lemma relay_shape_pop s rid r dr q c rest :
  inv s -> status_tracker s !! rid = Some r ->
  stream_chunks s !! rid = Some q ->
  chunk_queues s !! q = Some (c :: rest) ->
  relay_shape s rid r dr ->
  match c with
  | CText c0 =>
      relay_shape (set_chunk_queues (<[q := rest]> (chunk_queues s)) s) rid r
                  (dr ++ [c0])
  | CNone => status r = Complete /\ result r = Some (join dr)
  | CError m => status r = Error
  end.
Proof.
  intros Hinv Hr Hq Hl. unfold relay_shape.
  assert (Hlt : q < length (chunk_queues s)) by (eapply lookup_lt_Some; eauto).
  destruct (status r) eqn:Hst.
  - destruct (inv_chunks_status s Hinv rid q Hq) as (r' & Hr' & Hn). congruence.
  - intros (q0 & l & Hq0 & Hl0 & Hacc). rewrite Hq in Hq0. inversion Hq0; subst q0.
    rewrite Hl in Hl0. inversion Hl0 as [Hl']. symmetry in Hl'.
    apply fmap_CText_cons in Hl' as (c0 & l0 & -> & -> & ->).
    simpl. exists q, l0. rewrite list_lookup_insert_eq by assumption.
    rewrite <- app_assoc. auto.
  - intros (q0 & l & Hq0 & Hl0 & Hres). rewrite Hq in Hq0. inversion Hq0; subst q0.
    rewrite Hl in Hl0. inversion Hl0 as [Hl']. symmetry in Hl'.
    apply app_singleton_cons in Hl' as [(Hnil & -> & ->)|(l1 & Hl1 & ->)].
    + apply fmap_nil_inv in Hnil. subst l. rewrite app_nil_r in Hres. auto.
    + apply fmap_CText_cons in Hl1 as (c0 & l0 & -> & -> & ->).
      simpl. exists q, l0. rewrite list_lookup_insert_eq by assumption.
      rewrite <- app_assoc. auto.
  - intros (q0 & l & msg & Hq0 & Hl0 & He). rewrite Hq in Hq0. inversion Hq0; subst q0.
    rewrite Hl in Hl0. inversion Hl0 as [Hl']. symmetry in Hl'.
    apply app_singleton_cons in Hl' as [(Hnil & -> & ->)|(l1 & Hl1 & ->)].
    + reflexivity.
    + apply fmap_CText_cons in Hl1 as (c0 & l0 & -> & -> & ->).
      simpl. exists q, l0, msg. rewrite list_lookup_insert_eq by assumption. auto.
Qed.

Lemma reader_shape_pop s h r q c rest evs pc :
  inv s -> status_tracker s !! h_rid h = Some r ->
  reader_shape s h r -> h_pc h = HDraining q ->
  chunk_queues s !! q = Some (c :: rest) ->
  match c with
  | CText c0 => pc = HDraining q /\ count_terminal evs = 0 /\ chunk_texts evs = [c0]
  | CNone => pc = HCleanup /\ count_terminal evs = 1 /\ chunk_texts evs = []
  | CError _ => pc = HCleanup /\ count_terminal evs = 1 /\ chunk_texts evs = [] /\
                Forall (fun ev => is_done ev = false) evs
  end ->
  reader_shape (set_chunk_queues (<[q := rest]> (chunk_queues s)) s)
               (emit evs pc h) r.
Proof.
  intros Hinv Hr Hsh Hpc Hl Hc. unfold reader_shape in Hsh. rewrite Hpc in Hsh.
  simpl in Hsh. destruct Hsh as (H1 & H2 & H3 & H4).
  pose proof (H3 q eq_refl) as Hq.
  pose proof (relay_shape_pop s _ r _ q c rest Hinv Hr Hq Hl H2) as Hpop.
  unfold reader_shape. simpl. rewrite count_terminal_app, chunk_texts_app, H1.
  destruct c.
  - destruct Hc as (-> & -> & ->). simpl. repeat split; auto.
    intros Hst. exfalso.
    destruct (inv_chunks_status s Hinv _ q Hq) as (r' & Hr' & Hn). congruence.
  - destruct Hc as (-> & -> & ->). simpl. destruct Hpop as [Hst Hres].
    rewrite app_nil_r. repeat split; auto; try congruence. left. assumption.
  - destruct Hc as (-> & -> & -> & Hnd). simpl.
    repeat split; auto; try congruence; [right; assumption|].
    intros _. apply Forall_app. split; [|assumption].
    apply count_terminal_none_done. assumption.
Qed.

Lemma reader_shape_run s h h' s' r :
  inv s -> status_tracker s !! h_rid h = Some r ->
  reader_shape s h r -> handler_run h s = Some (h', s') ->
  reader_shape s' h' r.
Proof.
  intros Hinv Hr Hsh Hrun. unfold handler_run in Hrun. rewrite ?Hr in Hrun.
  destruct (h_pc h) eqn:Hpc.
  - inversion Hrun; subst.
    apply reader_shape_emit; auto; try (rewrite Hpc; reflexivity); discriminate.
  - destruct (h_variant h); destruct (status r) eqn:Hst;
      try (destruct (decide _)); inversion Hrun; subst;
      first [apply reader_shape_wait_relay; [assumption|rewrite Hpc; reflexivity]
            |apply reader_shape_error_status; auto;
             solve [rewrite Hpc; reflexivity|repeat constructor]
            |apply reader_shape_emit; auto;
             solve [rewrite Hpc; reflexivity|discriminate]].
  - destruct (status r) eqn:Hst; inversion Hrun; subst;
      first [apply reader_shape_wait_relay; [assumption|rewrite Hpc; reflexivity]
            |apply reader_shape_error_status; auto;
             solve [rewrite Hpc; reflexivity|repeat constructor]].
  - inversion Hrun; subst.
    apply reader_shape_wait_relay; [assumption|rewrite Hpc; reflexivity].
  - destruct (chunk_queues s !! chunk_queue) as [[|c rest]|] eqn:Hq; try discriminate.
    destruct (h_variant h); destruct c; inversion Hrun; subst;
      (eapply reader_shape_pop; eauto; simpl; repeat split; auto;
       repeat constructor).
  - inversion Hrun; subst. unfold reader_shape in *. rewrite Hpc in Hsh.
    simpl in *. rewrite app_nil_r. assumption.
  - discriminate.
Qed.

Lemma shaped_stream_resume i s s' h :
  inv s -> handlers s !! i = Some h -> shaped s (h_rid h) ->
  stream_resume i s = Some s' -> shaped s' (h_rid h).
Proof.
  intros Hinv Hh [Hun Hrd]. unfold stream_resume. rewrite Hh. simpl.
  destruct (handler_run h s) as [[h' s1]|] eqn:Hrun; [|discriminate]. simpl.
  intros [= <-].
  pose proof (handler_run_rid _ _ _ _ Hrun) as Hrid.
  pose proof (handler_run_frame _ _ _ _ Hrun) as (_ & Hst & _ & _ & Hhs).
  pose proof (lookup_lt_Some _ _ _ Hh) as Hlt.
  assert (Hnew : <[i := h']> (handlers s1) !! i = Some h').
  { apply list_lookup_insert_eq. rewrite Hhs. assumption. }
  split.
  - intros r Hr Hu. exfalso. eapply (Hu i h'); [exact Hnew|assumption].
  - intros j hj r Hj Hrj Hr Hs. simpl in Hj, Hr.
    assert (j = i) by (eapply (Hs j i); eauto). subst j.
    rewrite Hnew in Hj. inversion Hj; subst hj; clear Hj.
    rewrite Hst in Hr.
    assert (Hs0 : sole_reader s (h_rid h)).
    { intros a b ha hb Ha Hb Ra Rb.
      assert (Hlift : forall k hk, handlers s !! k = Some hk -> h_rid hk = h_rid h ->
                exists hk', <[i := h']> (handlers s1) !! k = Some hk' /\
                            h_rid hk' = h_rid h).
      { intros k hk Hk Rk. destruct (decide (i = k)) as [<-|Hik].
        - exists h'. split; [exact Hnew|assumption].
        - exists hk. rewrite list_lookup_insert_ne by assumption.
          rewrite Hhs. auto. }
      destruct (Hlift a ha Ha Ra) as (ha' & Ha' & Ra').
      destruct (Hlift b hb Hb Rb) as (hb' & Hb' & Rb').
      eapply (Hs a b); eauto. }
    pose proof (Hrd i h r Hh eq_refl Hr Hs0) as Hshape.
    rewrite <- Hrid in Hr.
    pose proof (reader_shape_run s h h' s1 r Hinv) as Hnext.
    rewrite Hrid in Hr. specialize (Hnext Hr Hshape Hrun). exact Hnext.
Qed.

Lemma inv_sole_initial : inv_sole initial_state.
Proof.
  intros rid. split.
  - intros r Hr. simpl in Hr. rewrite lookup_empty in Hr. discriminate.
  - intros i h r Hh. simpl in Hh. rewrite lookup_nil in Hh. discriminate.
Qed.

Lemma inv_sole_step a s s' :
  inv s -> inv_sole s -> step a s = Some s' -> inv_sole s'.
Proof.
  intros Hinv Hsole Hs rid.
  destruct (decide (touched a s = Some rid)) as [Ht|Ht];
    [|eapply shaped_untouched; [eapply step_untouched; eauto|apply Hsole]].
  pose proof (Hsole rid) as Hsh.
  destruct a; simpl in Hs, Ht.
  - inversion Ht; subst request_id.
    destruct (status_tracker s !! rid) eqn:E; [discriminate|].
    inversion Hs; subst. unfold post_queue_add.
    destruct (validate QueueRequest body) as [request|]; [|exact Hsh].
    exact (shaped_enqueue_fresh rid now
      match dict_get "client_id" request with Some (JStr c) => c | _ => "" end
      request s Hinv E).
  - inversion Ht; subst request_id.
    destruct (status_tracker s !! rid) eqn:E; [discriminate|].
    inversion Hs; subst. unfold post_chat_completions.
    destruct (validate OpenAIChatRequest body) as [request|]; [|exact Hsh].
    pose proof (shaped_enqueue_fresh rid now "openai_compat" request s Hinv E) as H.
    destruct (dict_get "stream" request) as [[| [|] | | | | |]|]; try exact H.
    apply (shaped_new_handler _ OpenAISSE rid HStart H). auto.
  - inversion Ht; subst request_id. inversion Hs; subst. unfold get_stream.
    destruct (status_tracker s !! rid); [|exact Hsh].
    apply shaped_new_handler; auto.
  - destruct (handlers s !! i) as [h|] eqn:Hh; [|discriminate].
    simpl in Ht. inversion Ht; subst rid.
    eapply shaped_stream_resume; eauto.
  - unfold worker_get in Hs. destruct (worker s) eqn:Hw; try discriminate.
    destruct (request_queue s) as [|item rest] eqn:Hq; [discriminate|].
    simpl in Ht. inversion Ht; subst rid.
    destruct (inv_queue_records s Hinv item) as (r & Hr & Hst);
      [rewrite Hq; left|].
    rewrite Hr in Hs. inversion Hs; subst.
    apply shaped_dequeue; assumption.
  - unfold llm_created in Hs. destruct (worker s) eqn:Hw; try discriminate.
    inversion Hs; subst. eapply shaped_untouched; [|exact Hsh].
    repeat split; simpl; auto. rewrite Hw. reflexivity.
  - unfold llm_chunk in Hs. destruct (worker s) eqn:Hw; try discriminate.
    simpl in Ht. inversion Ht; subst rid0.
    assert (Hb : worker_rid (worker s) = Some rid) by (rewrite Hw; reflexivity).
    destruct content as [c|]; [|inversion Hs; subst; exact Hsh].
    destruct (stream_chunks s !! rid) as [q0|] eqn:H0;
      (destruct c as [|x c]; inversion Hs; subst; [exact Hsh|]).
    + apply shaped_put; assumption.
    + apply shaped_processing_error; assumption.
  - unfold llm_finished in Hs. destruct (worker s) eqn:Hw; try discriminate.
    simpl in Ht. inversion Ht; subst rid0.
    assert (Hb : worker_rid (worker s) = Some rid) by (rewrite Hw; reflexivity).
    destruct (stream_chunks s !! rid) as [q0|] eqn:H0; inversion Hs; subst.
    + apply shaped_complete; assumption.
    + apply shaped_processing_error; assumption.
  - unfold llm_raised in Hs. destruct (worker s) eqn:Hw; try discriminate;
      simpl in Ht; inversion Ht; subst rid0; inversion Hs; subst;
      (apply shaped_processing_error; [assumption|rewrite Hw; reflexivity|assumption]).
Qed.

Lemma invs_exec acts s s' :
  inv s -> inv_sole s -> exec acts s = Some s' -> inv s' /\ inv_sole s'.
Proof.
  revert s. induction acts as [|a acts IH]; intros s Hinv Hsole; simpl.
  - intros [= <-]. auto.
  - destruct (step a s) as [s1|] eqn:Hs; [|discriminate]. simpl.
    apply IH; [eapply inv_step|eapply inv_sole_step]; eauto.
Qed.

(** ** Relay entries are removed by generators only *)

Lemma handler_run_stream_chunks h s h' s' rid q :
  handler_run h s = Some (h', s') ->
  stream_chunks s !! rid = Some q -> stream_chunks s' !! rid = None ->
  h_rid h = rid /\ h_pc h = HCleanup.
Proof.
  unfold handler_run. intros H Hq Hn.
  destruct (h_pc h) eqn:Hpc; try discriminate.
  1-5: exfalso;
    destruct_matches H; inversion H; subst; simpl in Hn; congruence.
  inversion H; subst. simpl in Hn. split; [|reflexivity].
  destruct (decide (h_rid h = rid)) as [|Hne]; [assumption|].
  rewrite lookup_delete_ne in Hn by assumption. congruence.
Qed.

Lemma processing_error_stream_chunks rid msg now s :
  stream_chunks (processing_error rid msg now s) = stream_chunks s.
Proof. unfold processing_error. destruct (stream_chunks s !! rid); reflexivity. Qed.

Lemma step_stream_chunks a s s' rid q :
  step a s = Some s' ->
  stream_chunks s !! rid = Some q -> stream_chunks s' !! rid = None ->
  exists i h, a = StreamResume i /\ handlers s !! i = Some h /\
              h_rid h = rid /\ h_pc h = HCleanup.
Proof.
  intros Hs Hq Hn. destruct a; simpl in Hs.
  - exfalso. destruct (status_tracker s !! request_id); [discriminate|].
    inversion Hs; subst. unfold post_queue_add in Hn.
    destruct (validate QueueRequest body); simpl in Hn; congruence.
  - exfalso. destruct (status_tracker s !! request_id); [discriminate|].
    inversion Hs; subst. unfold post_chat_completions in Hn.
    destruct (validate OpenAIChatRequest body) as [request|]; [|congruence].
    destruct (dict_get "stream" request) as [[| [|] | | | | |]|];
      simpl in Hn; congruence.
  - exfalso. inversion Hs; subst. unfold get_stream in Hn.
    destruct (status_tracker s !! request_id); simpl in Hn; congruence.
  - unfold stream_resume in Hs.
    destruct (handlers s !! i) as [h|] eqn:Hh; [|discriminate]. simpl in Hs.
    destruct (handler_run h s) as [[h' s1]|] eqn:Hrun; [|discriminate].
    simpl in Hs. inversion Hs; subst. simpl in Hn.
    destruct (handler_run_stream_chunks _ _ _ _ _ _ Hrun Hq Hn) as [Hr Hp].
    exists i, h. auto.
  - exfalso. unfold worker_get in Hs. destruct (worker s); try discriminate.
    destruct (request_queue s) as [|item rest]; [inversion Hs; subst; congruence|].
    destruct (status_tracker s !! qi_request_id item);
      inversion Hs; subst; simpl in Hn; [|congruence].
    destruct (decide (qi_request_id item = rid)) as [E|Hne].
    + rewrite E, lookup_insert_eq in Hn. discriminate.
    + rewrite lookup_insert_ne in Hn by assumption. congruence.
  - exfalso. unfold llm_created in Hs. destruct (worker s); try discriminate.
    inversion Hs; subst. simpl in Hn. congruence.
  - exfalso. unfold llm_chunk in Hs. destruct (worker s); try discriminate.
    destruct content as [[|x c]|]; try (inversion Hs; subst; congruence).
    destruct (stream_chunks s !! rid0); inversion Hs; subst.
    + simpl in Hn. congruence.
    + rewrite processing_error_stream_chunks in Hn. congruence.
  - exfalso. unfold llm_finished in Hs. destruct (worker s); try discriminate.
    destruct (stream_chunks s !! rid0); inversion Hs; subst.
    + simpl in Hn. congruence.
    + rewrite processing_error_stream_chunks in Hn. congruence.
  - exfalso. unfold llm_raised in Hs.
    destruct (worker s); try discriminate; inversion Hs; subst;
      rewrite processing_error_stream_chunks in Hn; congruence.
Qed.

Lemma step_handlers_stable a s s' i h :
  step a s = Some s' -> handlers s !! i = Some h ->
  exists h', handlers s' !! i = Some h' /\ h_rid h' = h_rid h.
Proof.
  intros Hs Hh. destruct a; simpl in Hs.
  - destruct (status_tracker s !! request_id); [discriminate|].
    inversion Hs; subst. exists h. split; [|reflexivity]. unfold post_queue_add.
    destruct (validate QueueRequest body); assumption.
  - destruct (status_tracker s !! request_id); [discriminate|].
    inversion Hs; subst. exists h. split; [|reflexivity].
    unfold post_chat_completions.
    destruct (validate OpenAIChatRequest body) as [request|]; [|assumption].
    destruct (dict_get "stream" request) as [[| [|] | | | | |]|];
      simpl; try assumption.
    apply lookup_app_l_Some. assumption.
  - inversion Hs; subst. exists h. split; [|reflexivity]. unfold get_stream.
    destruct (status_tracker s !! request_id); simpl; [|assumption].
    apply lookup_app_l_Some. assumption.
  - unfold stream_resume in Hs.
    destruct (handlers s !! i0) as [h0|] eqn:Hh0; [|discriminate]. simpl in Hs.
    destruct (handler_run h0 s) as [[h0' s1]|] eqn:Hrun; [|discriminate].
    simpl in Hs. inversion Hs; subst. simpl.
    pose proof (handler_run_frame _ _ _ _ Hrun) as (_ & _ & _ & _ & Hhs).
    rewrite Hhs. destruct (decide (i0 = i)) as [->|Hne].
    + exists h0'. rewrite list_lookup_insert_eq by (eapply lookup_lt_Some; eauto).
      split; [reflexivity|]. rewrite Hh in Hh0. inversion Hh0; subst.
      eapply handler_run_rid; eauto.
    + exists h. rewrite list_lookup_insert_ne by assumption. auto.
  - exists h. split; [|reflexivity]. unfold worker_get in Hs.
    destruct (worker s); try discriminate.
    destruct (request_queue s) as [|item rest]; [inversion Hs; subst; assumption|].
    destruct (status_tracker s !! qi_request_id item);
      inversion Hs; subst; assumption.
  - exists h. split; [|reflexivity]. unfold llm_created in Hs.
    destruct (worker s); try discriminate. inversion Hs; subst. assumption.
  - exists h. split; [|reflexivity]. unfold llm_chunk in Hs.
    destruct (worker s); try discriminate.
    destruct content as [[|x c]|]; try (inversion Hs; subst; assumption).
    unfold processing_error in Hs.
    destruct (stream_chunks s !! rid); inversion Hs; subst; assumption.
  - exists h. split; [|reflexivity]. unfold llm_finished, processing_error in Hs.
    destruct (worker s); try discriminate.
    destruct (stream_chunks s !! rid); inversion Hs; subst; assumption.
  - exists h. split; [|reflexivity]. unfold llm_raised, processing_error in Hs.
    destruct (worker s); try discriminate;
      destruct (stream_chunks s !! rid); inversion Hs; subst; assumption.
Qed.

(** C10: an entry of the relay map disappears only in a step of a streaming
    generator of that request which is past its terminal yield (so never in
    a step of the worker or of an admission), generators are never
    forgotten, and in every state the server reaches a request that is
    "complete" or "error" and for which no generator was ever created still
    has its entry. *)
Theorem C10_relay_entry_lifetime :
  (forall acts s a s' rid q,
      exec acts initial_state = Some s -> step a s = Some s' ->
      stream_chunks s !! rid = Some q -> stream_chunks s' !! rid = None ->
      exists i h, a = StreamResume i /\ handlers s !! i = Some h /\
                  h_rid h = rid /\ h_pc h = HCleanup /\
                  1 <= count_terminal (h_out h)) /\
  (forall a s s' i h,
      step a s = Some s' -> handlers s !! i = Some h ->
      exists h', handlers s' !! i = Some h' /\ h_rid h' = h_rid h) /\
  (forall acts s rid r,
      exec acts initial_state = Some s ->
      status_tracker s !! rid = Some r -> terminal_status (status r) ->
      unattended s rid ->
      is_Some (stream_chunks s !! rid)).
Proof.
  split; [|split].
  - intros acts s a s' rid q Hex Hs Hq Hn.
    destruct (step_stream_chunks a s s' rid q Hs Hq Hn) as (i & h & -> & Hh & Hr & Hp).
    exists i, h. repeat split; auto.
    pose proof (inv_exec _ _ _ inv_initial Hex) as Hinv.
    destruct (inv_handlers s Hinv i h Hh) as (r & _ & Hok).
    rewrite Hp in Hok. apply Hok.
  - intros a s s' i h. apply step_handlers_stable.
  - intros acts s rid r Hex Hr Ht Hu.
    destruct (invs_exec _ _ _ inv_initial inv_sole_initial Hex) as [_ Hsole].
    destruct (Hsole rid) as [Hun _]. specialize (Hun r Hr Hu).
    unfold relay_shape in Hun.
    destruct Ht as [Ht|Ht]; rewrite Ht in Hun.
    + destruct Hun as (q & _ & Hq & _). eauto.
    + destruct Hun as (q & _ & _ & Hq & _). eauto.
Qed.

(** ** What the worker publishes *)

Lemma published_snoc acts a s0 s rid :
  exec acts s0 = Some s ->
  published (acts ++ [a]) s0 rid =
    published acts s0 rid ++
    match step a s with Some _ => published_by a s rid | None => [] end.
Proof.
  revert s0. induction acts as [|b acts IH]; intros s0; simpl.
  - intros [= ->]. destruct (step a s); rewrite ?app_nil_r; reflexivity.
  - destruct (step b s0) as [s1|] eqn:Hb; [|discriminate]. simpl.
    intros Hex. rewrite (IH s1 Hex), app_assoc. reflexivity.
Qed.

Lemma appended_same s q : appended s s q = [].
Proof. unfold appended. apply drop_all. Qed.

Lemma appended_put s s' q l c :
  chunk_queues s !! q = Some l ->
  chunk_queues s' !! q = Some (l ++ [c]) ->
  appended s s' q = [c].
Proof.
  intros Hl Hs'. unfold appended. rewrite Hs', Hl. simpl.
  rewrite drop_app_length. reflexivity.
Qed.

Lemma fragments_CText l : fragments (CText <$> l) = l.
Proof.
  induction l as [|c l IH]; [reflexivity|].
  rewrite fmap_cons. simpl. f_equal. exact IH.
Qed.

Lemma fragments_complete l : fragments ((CText <$> l) ++ [CNone]) = l.
Proof.
  induction l as [|c l IH]; [reflexivity|].
  rewrite fmap_cons. simpl. f_equal. exact IH.
Qed.

Lemma published_by_other a s rid :
  worker_rid (worker s) <> Some rid -> published_by a s rid = [].
Proof.
  intros Hne. unfold published_by.
  destruct a; try reflexivity; rewrite decide_False by assumption; reflexivity.
Qed.

Lemma published_shape_frame p s s' rid :
  status_tracker s' !! rid = status_tracker s !! rid ->
  (forall r, status_tracker s !! rid = Some r -> status r = Processing ->
             worker_rid (worker s') = worker_rid (worker s) /\
             worker_acc (worker s') = worker_acc (worker s)) ->
  published_shape p s rid -> published_shape p s' rid.
Proof.
  unfold published_shape. intros Hst Hw. rewrite Hst.
  destruct (status_tracker s !! rid) as [r|]; [|auto].
  destruct (status r) eqn:Hs; auto.
  destruct (Hw r eq_refl Hs) as [-> ->]. auto.
Qed.

Lemma published_shape_idle p s s' rid :
  inv s -> worker_rid (worker s) <> Some rid ->
  status_tracker s' !! rid = status_tracker s !! rid ->
  published_shape p s rid -> published_shape p s' rid.
Proof.
  intros Hinv Hne Hst. apply published_shape_frame; [assumption|].
  intros r Hr Hp. exfalso. apply Hne. eapply inv_processing; eauto.
Qed.

Lemma published_shape_terminate_other p s rid0 f hq st' rid :
  inv s -> worker_rid (worker s) = Some rid0 -> rid0 <> rid ->
  published_shape p s rid ->
  published_shape p
    (set_worker WIdle
       (set_queue_stats st' (update_record rid0 f (set_chunk_queues hq s)))) rid.
Proof.
  intros Hinv Hw Hne. apply published_shape_idle; [assumption|congruence|].
  simpl. apply lookup_alter_ne. assumption.
Qed.

Lemma published_shape_processing_error p p' s rid0 msg now rid :
  inv s -> worker_rid (worker s) = Some rid0 ->
  (rid0 <> rid -> p' = p) ->
  published_shape p s rid ->
  published_shape p' (processing_error rid0 msg now s) rid.
Proof.
  intros Hinv Hw Hp Hsh. destruct (decide (rid0 = rid)) as [<-|Hne].
  - destruct (inv_busy s Hinv rid0 Hw) as (r & _ & _ & Hr & _).
    unfold published_shape, processing_error.
    destruct (stream_chunks s !! rid0); simpl;
      rewrite lookup_alter_eq, Hr; simpl; exact Logic.I.
  - rewrite (Hp Hne). unfold processing_error.
    destruct (stream_chunks s !! rid0);
      apply published_shape_terminate_other; assumption.
Qed.

Lemma published_shape_step p a s s' rid :
  inv s -> published_shape p s rid -> step a s = Some s' ->
  published_shape (p ++ published_by a s rid) s' rid.
Proof.
  intros Hinv Hsh Hs. destruct a; simpl in Hs; simpl published_by;
    rewrite ?app_nil_r.
  - destruct (status_tracker s !! request_id) eqn:E; [discriminate|].
    inversion Hs; subst. unfold post_queue_add.
    destruct (validate QueueRequest body) as [request|]; [|assumption].
    unfold published_shape in *. simpl.
    destruct (decide (request_id = rid)) as [<-|Hne].
    + rewrite lookup_insert_eq. simpl. rewrite E in Hsh. assumption.
    + rewrite lookup_insert_ne by assumption. assumption.
  - destruct (status_tracker s !! request_id) eqn:E; [discriminate|].
    inversion Hs; subst. unfold post_chat_completions.
    destruct (validate OpenAIChatRequest body) as [request|]; [|assumption].
    assert (H : published_shape p
                  (fst (enqueue request_id now "openai_compat" request s)) rid).
    { unfold published_shape in *. simpl.
      destruct (decide (request_id = rid)) as [<-|Hne].
      - rewrite lookup_insert_eq. simpl. rewrite E in Hsh. assumption.
      - rewrite lookup_insert_ne by assumption. assumption. }
    destruct (dict_get "stream" request) as [[| [|] | | | | |]|]; exact H.
  - inversion Hs; subst. unfold get_stream.
    destruct (status_tracker s !! request_id); assumption.
  - apply stream_resume_frame in Hs as (_ & Hst & _ & Hw).
    apply (published_shape_frame p s _ rid); [rewrite Hst; reflexivity| |exact Hsh].
    intros. rewrite Hw. auto.
  - unfold worker_get in Hs. destruct (worker s) eqn:Hw; try discriminate.
    destruct (request_queue s) as [|item rest] eqn:Hq;
      [inversion Hs; subst; assumption|].
    destruct (inv_queue_records s Hinv item) as (r & Hr & Hst);
      [rewrite Hq; left|].
    rewrite Hr in Hs. inversion Hs; subst; clear Hs.
    destruct (decide (qi_request_id item = rid)) as [<-|Hne].
    + unfold published_shape in *. simpl. rewrite lookup_insert_eq. simpl.
      rewrite Hr, Hst in Hsh. subst p. split; [reflexivity|]. exists []. auto.
    + apply (published_shape_idle p s _ rid); [exact Hinv| | |exact Hsh].
      * rewrite Hw. discriminate.
      * simpl. apply lookup_insert_ne. assumption.
  - unfold llm_created in Hs. destruct (worker s) eqn:Hw; try discriminate.
    inversion Hs; subst.
    apply (published_shape_frame p s _ rid); [reflexivity| |exact Hsh].
    intros. simpl. rewrite Hw. auto.
  - unfold llm_chunk in Hs. destruct (worker s) eqn:Hw; try discriminate.
    assert (Hb : worker_rid (worker s) = Some rid0) by (rewrite Hw; reflexivity).
    destruct (inv_busy s Hinv rid0 Hb) as (r & q & lq & Hr & Hst & Hq & Hl).
    rewrite Hq in Hs. simpl worker_rid.
    destruct (decide (Some rid0 = Some rid)) as [[= <-]|Hne].
    + unfold step, llm_chunk. rewrite Hw, Hq.
      unfold published_shape in Hsh. rewrite Hr, Hst in Hsh.
      destruct Hsh as (_ & l & -> & Hacc). rewrite Hw in Hacc. simpl in Hacc.
      destruct content as [[|x c]|]; inversion Hs; subst; clear Hs;
        rewrite ?appended_same, ?app_nil_r.
      * unfold published_shape. rewrite Hr, Hst. split; [assumption|].
        exists l. rewrite Hw. auto.
      * erewrite appended_put;
          [|exact Hl|simpl; rewrite list_lookup_alter_eq, Hl; reflexivity].
        unfold published_shape. simpl. rewrite Hr, Hst. split; [reflexivity|].
        exists (l ++ [String x c]). rewrite fmap_app, join_snoc. auto.
      * unfold published_shape. rewrite Hr, Hst. split; [assumption|].
        exists l. rewrite Hw. auto.
    + rewrite app_nil_r.
      destruct content as [[|x c]|]; inversion Hs; subst; clear Hs; try assumption.
      apply (published_shape_idle p s _ rid);
        [exact Hinv|congruence|reflexivity|exact Hsh].
  - unfold llm_finished in Hs. destruct (worker s) eqn:Hw; try discriminate.
    assert (Hb : worker_rid (worker s) = Some rid0) by (rewrite Hw; reflexivity).
    destruct (inv_busy s Hinv rid0 Hb) as (r & q & lq & Hr & Hst & Hq & Hl).
    rewrite Hq in Hs. inversion Hs; subst; clear Hs. simpl worker_rid.
    destruct (decide (Some rid0 = Some rid)) as [[= <-]|Hne].
    + unfold step, llm_finished. rewrite Hw, Hq.
      erewrite appended_put;
        [|exact Hl|simpl; rewrite list_lookup_alter_eq, Hl; reflexivity].
      unfold published_shape in *. rewrite Hr, Hst in Hsh. simpl.
      rewrite lookup_alter_eq, Hr. simpl.
      destruct Hsh as (_ & l & -> & Hacc). rewrite Hw in Hacc. simpl in Hacc.
      exists l. split; [reflexivity|]. congruence.
    + rewrite app_nil_r.
      apply (published_shape_terminate_other p s rid0
               (mark_complete now full_response)
               (alter (fun l => l ++ [CNone]) q (chunk_queues s))); auto.
      congruence.
  - unfold llm_raised in Hs.
    destruct (worker s) eqn:Hw; try discriminate; inversion Hs; subst; clear Hs;
      (apply (published_shape_processing_error p);
       [assumption|rewrite Hw; reflexivity| |assumption]);
      intros Hne; simpl worker_rid;
      rewrite decide_False by congruence; apply app_nil_r.
Qed.

Lemma published_shape_exec acts :
  forall s rid, exec acts initial_state = Some s ->
                published_shape (published acts initial_state rid) s rid.
Proof.
  induction acts as [|a acts IH] using rev_ind; intros s rid Hex.
  - inversion Hex; subst. unfold published_shape. simpl.
    rewrite lookup_empty. reflexivity.
  - rewrite exec_app in Hex.
    destruct (exec acts initial_state) as [s0|] eqn:E0; [|discriminate].
    simpl in Hex. destruct (step a s0) as [s1|] eqn:Hs; [|discriminate].
    simpl in Hex. inversion Hex; subst.
    rewrite (published_snoc acts a initial_state s0 rid E0), Hs.
    eapply published_shape_step; eauto.
    eapply inv_exec; [apply inv_initial|eauto].
Qed.

(** ** Fragments and the stored result *)

Lemma done_event_counts out :
  Exists (fun ev => is_done ev = true) out -> 1 <= count_terminal out.
Proof.
  induction 1 as [ev out Hd|ev out _ IH]; unfold count_terminal in *;
    rewrite filter_cons; destruct (decide (is_terminal ev = true)) as [Ht|Ht];
    simpl; try lia.
  exfalso. apply Ht. destruct ev; simpl in *; congruence.
Qed.

(** C6 (as the code has it): for a request that is "complete", the stored
    result is the concatenation, in order, of the text fragments the worker
    published to its relay queue; and when only one stream was opened on
    the request, the texts of the chunk events it has yielded, followed by
    the fragments still waiting in the queue, concatenate to the result, so
    that once this stream has yielded its done / finish event its chunk
    events concatenate to the result. *)
Theorem C6_fragments_concatenate acts s rid r :
  exec acts initial_state = Some s ->
  status_tracker s !! rid = Some r ->
  status r = Complete ->
  result r = Some (join (fragments (published acts initial_state rid))) /\
  (forall i h,
      handlers s !! i = Some h -> h_rid h = rid -> sole_reader s rid ->
      (Exists (fun ev => is_done ev = true) (h_out h) ->
         result r = Some (join (chunk_texts (h_out h)))) /\
      (count_terminal (h_out h) = 0 ->
         exists q rest,
           stream_chunks s !! rid = Some q /\
           chunk_queues s !! q = Some ((CText <$> rest) ++ [CNone]) /\
           result r = Some (join (chunk_texts (h_out h) ++ rest)))).
Proof.
  intros Hex Hr Hst.
  destruct (invs_exec _ _ _ inv_initial inv_sole_initial Hex) as [Hinv Hsole].
  destruct (Hsole rid) as [_ Hrd]. split.
  - pose proof (published_shape_exec acts s rid Hex) as Hp.
    unfold published_shape in Hp. rewrite Hr, Hst in Hp.
    destruct Hp as (l & -> & Hres). rewrite fragments_complete. assumption.
  - intros i h Hh Hrid Hso. specialize (Hrd i h r Hh Hrid Hr Hso).
    unfold reader_shape in Hrd. destruct (finished (h_pc h)).
    + destruct Hrd as (_ & Hc & Hres & _). split.
      * intros _. exact (Hres Hst).
      * intros H0. congruence.
    + destruct Hrd as (Hc & Hrel & _ & _). split.
      * intros Hd. apply done_event_counts in Hd. lia.
      * intros _. unfold relay_shape in Hrel. rewrite Hst in Hrel.
        destruct Hrel as (q & rest & Hq & Hl & Hres). exists q, rest.
        rewrite Hrid in *. auto.
Qed.


(** ** A stream that reads alone ends *)

Lemma sole_reader_step_back a s s' rid :
  step a s = Some s' -> sole_reader s' rid -> sole_reader s rid.
Proof.
  intros Hs Hso i j hi hj Hi Hj Ri Rj.
  destruct (step_handlers_stable _ _ _ _ _ Hs Hi) as (hi' & Hi' & Ri').
  destruct (step_handlers_stable _ _ _ _ _ Hs Hj) as (hj' & Hj' & Rj').
  eapply (Hso i j); eauto; congruence.
Qed.

Lemma sole_reader_exec_back acts s s' rid :
  exec acts s = Some s' -> sole_reader s' rid -> sole_reader s rid.
Proof.
  revert s. induction acts as [|a acts IH]; intros s; simpl.
  - intros [= <-]. auto.
  - destruct (step a s) as [s1|] eqn:Hs; [|discriminate]. simpl.
    intros Hex Hso. eapply sole_reader_step_back; eauto.
Qed.

(** With a terminal record and a reader that has not finished, the relay
    queue of the request is there and ends with the terminal marker. *)
Lemma relay_backlog_terminal s rid r dr :
  terminal_status (status r) -> relay_shape s rid r dr ->
  exists q l, stream_chunks s !! rid = Some q /\
              chunk_queues s !! q = Some l /\
              relay_backlog s rid = length l /\ 1 <= length l.
Proof.
  unfold relay_shape, relay_backlog. intros [Ht|Ht]; rewrite Ht.
  - intros (q & rest & Hq & Hl & _). exists q, ((CText <$> rest) ++ [CNone]).
    rewrite Hq, Hl. simpl. rewrite length_app. simpl. repeat split; auto. lia.
  - intros (q & rest & msg & Hq & Hl & _).
    exists q, ((CText <$> rest) ++ [CError msg]).
    rewrite Hq, Hl. simpl. rewrite length_app. simpl. repeat split; auto. lia.
Qed.

Lemma remaining_wait_relay s h q l :
  stream_chunks s !! h_rid h = Some q -> chunk_queues s !! q = Some l ->
  remaining s (wait_relay s h) = 1 + length l.
Proof.
  intros Hq Hl. unfold wait_relay. rewrite Hq. unfold remaining. simpl.
  rewrite Hl. reflexivity.
Qed.

(** One resumption of the reader brings it closer to its end. *)
Lemma handler_run_progress s h r :
  inv s -> status_tracker s !! h_rid h = Some r ->
  terminal_status (status r) -> reader_shape s h r ->
  h_pc h <> HDone ->
  exists h' s', handler_run h s = Some (h', s') /\
                remaining s' h' < remaining s h.
Proof.
  intros Hinv Hr Ht Hsh Hnd. unfold handler_run. rewrite ?Hr.
  unfold reader_shape in Hsh.
  destruct (h_pc h) eqn:Hpc; simpl in Hsh; try congruence.
  1-5: destruct Hsh as (_ & Hrel & Hd & _);
    destruct (relay_backlog_terminal s _ r _ Ht Hrel) as (q & l & Hq & Hl & Hb & Hlen).
  - eexists _, _. split; [reflexivity|]. unfold remaining. simpl. rewrite Hpc. lia.
  - destruct (h_variant h);
      destruct Ht as [Hst|Hst]; rewrite Hst;
      eexists _, _; (split; [reflexivity|]);
      rewrite ?(remaining_wait_relay s h q l Hq Hl);
      unfold remaining; simpl; rewrite Hpc; lia.
  - destruct Ht as [Hst|Hst]; rewrite Hst;
      eexists _, _; (split; [reflexivity|]);
      rewrite ?(remaining_wait_relay s h q l Hq Hl);
      unfold remaining; simpl; rewrite Hpc; lia.
  - eexists _, _. split; [reflexivity|].
    rewrite (remaining_wait_relay s h q l Hq Hl).
    unfold remaining. rewrite Hpc. lia.
  - pose proof (Hd chunk_queue eq_refl) as Hq'. rewrite Hq in Hq'.
    inversion Hq'; subst chunk_queue. rewrite Hl.
    destruct l as [|c rest]; [simpl in Hlen; lia|].
    assert (Hlt : q < length (chunk_queues s)) by (eapply lookup_lt_Some; eauto).
    destruct (h_variant h); destruct c;
      eexists _, _; (split; [reflexivity|]);
      unfold remaining; simpl; rewrite Hpc, Hl;
      rewrite ?list_lookup_insert_eq by assumption; simpl; lia.
  - eexists _, _. split; [reflexivity|]. unfold remaining. simpl. rewrite Hpc. lia.
Qed.

Lemma remaining_set_handlers s hs h :
  remaining (set_handlers hs s) h = remaining s h.
Proof. reflexivity. Qed.

Lemma stream_resume_progress s i h r :
  inv s -> handlers s !! i = Some h ->
  status_tracker s !! h_rid h = Some r ->
  terminal_status (status r) -> reader_shape s h r ->
  h_pc h <> HDone ->
  exists s' h', stream_resume i s = Some s' /\
                handlers s' !! i = Some h' /\ h_rid h' = h_rid h /\
                status_tracker s' !! h_rid h = Some r /\
                remaining s' h' < remaining s h.
Proof.
  intros Hinv Hh Hr Ht Hsh Hnd.
  destruct (handler_run_progress s h r Hinv Hr Ht Hsh Hnd) as (h' & s1 & Hrun & Hlt).
  pose proof (handler_run_frame _ _ _ _ Hrun) as (_ & Hst & _ & _ & Hhs).
  exists (set_handlers (<[i := h']> (handlers s1)) s1), h'.
  unfold stream_resume. rewrite Hh. simpl. rewrite Hrun. simpl.
  split; [reflexivity|]. split.
  { apply list_lookup_insert_eq. rewrite Hhs. eapply lookup_lt_Some; eauto. }
  split; [eapply handler_run_rid; eauto|]. split; [congruence|].
  rewrite remaining_set_handlers. assumption.
Qed.

(** A step that is not a resumption of the reader leaves it where it is. *)
Lemma other_step_keeps_reader a s s' i h r :
  inv s -> inv_sole s ->
  step a s = Some s' -> a <> StreamResume i ->
  handlers s !! i = Some h ->
  status_tracker s !! h_rid h = Some r -> terminal_status (status r) ->
  sole_reader s' (h_rid h) ->
  handlers s' !! i = Some h /\
  status_tracker s' !! h_rid h = Some r /\
  remaining s' h = remaining s h.
Proof.
  intros Hinv Hsole Hs Hne Hh Hr Ht Hso.
  assert (Hso0 : sole_reader s (h_rid h)) by (eapply sole_reader_step_back; eauto).
  assert (Hun : touched a s <> Some (h_rid h)).
  { intros Hto. destruct a; simpl in Hs, Hto.
    - inversion Hto; subst. rewrite Hr in Hs. discriminate.
    - inversion Hto; subst. rewrite Hr in Hs. discriminate.
    - inversion Hto; subst. inversion Hs; subst. unfold get_stream in Hso.
      rewrite Hr in Hso. simpl in Hso.
      pose proof (lookup_lt_Some _ _ _ Hh) as Hlt.
      assert (i = length (handlers s)); [|lia].
      eapply (Hso i (length (handlers s)) h
                (mkHandler MinimalSSE (h_rid h) (HPolling None) []));
        [apply lookup_app_l_Some; exact Hh
        |simpl; rewrite lookup_app_r by lia; rewrite Nat.sub_diag; reflexivity
        |reflexivity|reflexivity].
    - destruct (handlers s !! i0) as [h0|] eqn:Hh0; [|discriminate].
      simpl in Hto. inversion Hto as [Hrid].
      apply Hne. f_equal. eapply (Hso0 i0 i); eauto.
    - destruct (request_queue s) as [|item rest] eqn:Hq; [discriminate|].
      simpl in Hto. inversion Hto as [Hrid].
      destruct (inv_queue_records s Hinv item) as (r' & Hr' & Hst');
        [rewrite Hq; left|].
      rewrite Hrid, Hr in Hr'. inversion Hr'; subst. destruct Ht; congruence.
    - destruct (inv_busy s Hinv _ Hto) as (r' & _ & _ & Hr' & Hst' & _).
      rewrite Hr in Hr'. inversion Hr'; subst. destruct Ht; congruence.
    - destruct (inv_busy s Hinv _ Hto) as (r' & _ & _ & Hr' & Hst' & _).
      rewrite Hr in Hr'. inversion Hr'; subst. destruct Ht; congruence.
    - destruct (inv_busy s Hinv _ Hto) as (r' & _ & _ & Hr' & Hst' & _).
      rewrite Hr in Hr'. inversion Hr'; subst. destruct Ht; congruence.
    - destruct (inv_busy s Hinv _ Hto) as (r' & _ & _ & Hr' & Hst' & _).
      rewrite Hr in Hr'. inversion Hr'; subst. destruct Ht; congruence. }
  pose proof (step_untouched a s s' (h_rid h) Hinv Hs Hun) as Hu.
  pose proof Hu as (H1 & H2 & H3 & _ & H5).
  split; [apply H5; auto|]. split; [congruence|].
  destruct (Hsole (h_rid h)) as [_ Hrd].
  specialize (Hrd i h r Hh eq_refl Hr Hso0).
  unfold reader_shape in Hrd. unfold remaining, relay_backlog. rewrite H2.
  destruct (h_pc h) eqn:Hpc; simpl in Hrd; try reflexivity.
  1-4: destruct (stream_chunks s !! h_rid h) as [q|] eqn:Hq; [|reflexivity];
    rewrite (H3 q eq_refl); reflexivity.
  destruct Hrd as (_ & _ & Hd & _). rewrite (H3 _ (Hd _ eq_refl)). reflexivity.
Qed.

Lemma remaining_done s h : remaining s h = 0 <-> h_pc h = HDone.
Proof.
  unfold remaining. destruct (h_pc h); split; intros H; try discriminate; try lia.
  reflexivity.
Qed.

Lemma sole_reader_bounded acts :
  forall s s' i h r,
    inv s -> inv_sole s -> exec acts s = Some s' ->
    handlers s !! i = Some h ->
    status_tracker s !! h_rid h = Some r -> terminal_status (status r) ->
    sole_reader s' (h_rid h) ->
    exists h', handlers s' !! i = Some h' /\ h_rid h' = h_rid h /\
               status_tracker s' !! h_rid h = Some r /\
               resumptions i acts + remaining s' h' <= remaining s h.
Proof.
  induction acts as [|a acts IH]; intros s s' i h r Hinv Hsole Hex Hh Hr Ht Hso.
  - inversion Hex; subst. exists h. simpl. auto.
  - simpl in Hex. destruct (step a s) as [s1|] eqn:Hs; [|discriminate].
    simpl in Hex.
    pose proof (inv_step _ _ _ Hinv Hs) as Hinv1.
    pose proof (inv_sole_step _ _ _ Hinv Hsole Hs) as Hsole1.
    pose proof (sole_reader_exec_back _ _ _ _ Hex Hso) as Hso1.
    pose proof (sole_reader_step_back _ _ _ _ Hs Hso1) as Hso0.
    assert (Hother : a <> StreamResume i ->
              exists h', handlers s' !! i = Some h' /\ h_rid h' = h_rid h /\
                         status_tracker s' !! h_rid h = Some r /\
                         resumptions i acts + remaining s' h' <= remaining s h).
    { intros Hne.
      destruct (other_step_keeps_reader a s s1 i h r Hinv Hsole Hs Hne Hh Hr Ht Hso1)
        as (Hh1 & Hr1 & Hrem).
      destruct (IH s1 s' i h r Hinv1 Hsole1 Hex Hh1 Hr1 Ht Hso)
        as (h' & Hh' & Hrid & Hr' & Hle).
      exists h'. repeat split; auto. lia. }
    destruct a; try (simpl; apply Hother; discriminate).
    simpl. destruct (decide (i = i0)) as [<-|Hne];
      [|simpl; apply Hother; congruence].
    destruct (Hsole (h_rid h)) as [_ Hrd].
    specialize (Hrd i h r Hh eq_refl Hr Hso0).
    assert (Hnd : h_pc h <> HDone).
    { intros Hd. simpl in Hs. unfold stream_resume in Hs. rewrite Hh in Hs.
      simpl in Hs. unfold handler_run in Hs. rewrite Hd in Hs. discriminate. }
    destruct (stream_resume_progress s i h r Hinv Hh Hr Ht Hrd Hnd)
      as (s1' & h1 & Hs' & Hh1 & Hrid1 & Hr1 & Hlt).
    simpl in Hs. rewrite Hs in Hs'. inversion Hs'; subst s1'.
    rewrite <- Hrid1 in Hr1, Hso.
    destruct (IH s1 s' i h1 r Hinv1 Hsole1 Hex Hh1 Hr1 Ht Hso)
      as (h' & Hh' & Hrid & Hr' & Hle).
    exists h'. rewrite Hrid1 in *. repeat split; auto. lia.
Qed.

Lemma remaining_bound s h r :
  reader_shape s h r -> remaining s h <= 5 + relay_backlog s (h_rid h).
Proof.
  unfold reader_shape, remaining, relay_backlog.
  destruct (h_pc h) eqn:Hpc; simpl; try lia.
  intros (_ & _ & Hd & _). rewrite (Hd _ eq_refl). lia.
Qed.

(** ** Every stream: at most one terminal event *)

(** What a step does to the list of generators: nothing, one more generator
    that has yielded nothing, or one run of the generator resumed. *)
Lemma step_handlers a s s' :
  step a s = Some s' ->
  handlers s' = handlers s \/
  (exists h, handlers s' = handlers s ++ [h] /\
             h_out h = [] /\ before_error_check (h_pc h) = true) \/
  (exists i h h' s1, a = StreamResume i /\ handlers s !! i = Some h /\
                     handler_run h s = Some (h', s1) /\
                     handlers s' = <[i := h']> (handlers s)).
Proof.
  intros Hs. destruct a; simpl in Hs.
  - destruct (status_tracker s !! request_id); [discriminate|].
    inversion Hs; subst. left. unfold post_queue_add.
    destruct (validate QueueRequest body); reflexivity.
  - destruct (status_tracker s !! request_id); [discriminate|].
    inversion Hs; subst. unfold post_chat_completions.
    destruct (validate OpenAIChatRequest body) as [request|]; [|left; reflexivity].
    destruct (dict_get "stream" request) as [[| [|] | | | | |]|];
      simpl; try (left; reflexivity).
    right; left. eexists. split; [reflexivity|]. split; reflexivity.
  - inversion Hs; subst. unfold get_stream.
    destruct (status_tracker s !! request_id); simpl; [|left; reflexivity].
    right; left. eexists. split; [reflexivity|]. split; reflexivity.
  - right; right. unfold stream_resume in Hs.
    destruct (handlers s !! i) as [h0|] eqn:Hh0; [|discriminate]. simpl in Hs.
    destruct (handler_run h0 s) as [[h0' s1]|] eqn:Hrun; [|discriminate].
    simpl in Hs. inversion Hs; subst. simpl.
    pose proof (handler_run_frame _ _ _ _ Hrun) as (_ & _ & _ & _ & Hhs).
    rewrite Hhs. exists i, h0, h0', s1. auto.
  - left. unfold worker_get in Hs.
    destruct (worker s); try discriminate.
    destruct (request_queue s) as [|item rest]; [inversion Hs; subst; reflexivity|].
    destruct (status_tracker s !! qi_request_id item);
      inversion Hs; subst; reflexivity.
  - left. unfold llm_created in Hs.
    destruct (worker s); try discriminate. inversion Hs; subst. reflexivity.
  - left. unfold llm_chunk in Hs.
    destruct (worker s); try discriminate.
    destruct content as [[|x c]|]; try (inversion Hs; subst; reflexivity).
    unfold processing_error in Hs.
    destruct (stream_chunks s !! rid); inversion Hs; subst; reflexivity.
  - left. unfold llm_finished, processing_error in Hs.
    destruct (worker s); try discriminate.
    destruct (stream_chunks s !! rid); inversion Hs; subst; reflexivity.
  - left. unfold llm_raised, processing_error in Hs.
    destruct (worker s); try discriminate;
      destruct (stream_chunks s !! rid); inversion Hs; subst; reflexivity.
Qed.

(** A step that is not a resumption of the generator leaves it as it is. *)
Lemma step_keeps_handler a s s' i h :
  step a s = Some s' -> a <> StreamResume i ->
  handlers s !! i = Some h -> handlers s' !! i = Some h.
Proof.
  intros Hs Hne Hh.
  destruct (step_handlers a s s' Hs)
    as [->|[(h0 & -> & _)|(j & h0 & h0' & s1 & -> & _ & _ & ->)]].
  - assumption.
  - apply lookup_app_l_Some. assumption.
  - rewrite list_lookup_insert_ne; [assumption|]. congruence.
Qed.

(** The record of a request that is over is never written again. *)
Lemma terminal_record_step a s s' rid r :
  inv s -> step a s = Some s' ->
  status_tracker s !! rid = Some r -> terminal_status (status r) ->
  status_tracker s' !! rid = Some r.
Proof.
  intros Hinv Hs Hr Ht.
  destruct (decide (touched a s = Some rid)) as [Hto|Hun].
  - destruct a; simpl in Hs, Hto.
    + inversion Hto; subst. rewrite Hr in Hs. discriminate.
    + inversion Hto; subst. rewrite Hr in Hs. discriminate.
    + inversion Hs; subst. unfold get_stream.
      destruct (status_tracker s !! request_id); assumption.
    + apply stream_resume_frame in Hs as (_ & -> & _). assumption.
    + destruct (request_queue s) as [|item rest] eqn:Hq; [discriminate|].
      simpl in Hto. inversion Hto as [Hrid].
      destruct (inv_queue_records s Hinv item) as (r' & Hr' & Hst');
        [rewrite Hq; left|].
      rewrite Hrid, Hr in Hr'. inversion Hr'; subst. destruct Ht; congruence.
    + destruct (inv_busy s Hinv _ Hto) as (r' & _ & _ & Hr' & Hst' & _).
      rewrite Hr in Hr'. inversion Hr'; subst. destruct Ht; congruence.
    + destruct (inv_busy s Hinv _ Hto) as (r' & _ & _ & Hr' & Hst' & _).
      rewrite Hr in Hr'. inversion Hr'; subst. destruct Ht; congruence.
    + destruct (inv_busy s Hinv _ Hto) as (r' & _ & _ & Hr' & Hst' & _).
      rewrite Hr in Hr'. inversion Hr'; subst. destruct Ht; congruence.
    + destruct (inv_busy s Hinv _ Hto) as (r' & _ & _ & Hr' & Hst' & _).
      rewrite Hr in Hr'. inversion Hr'; subst. destruct Ht; congruence.
  - destruct (step_untouched a s s' rid Hinv Hs Hun) as (H1 & _). congruence.
Qed.

Lemma terminal_record_exec acts s s' rid r :
  inv s -> exec acts s = Some s' ->
  status_tracker s !! rid = Some r -> terminal_status (status r) ->
  status_tracker s' !! rid = Some r.
Proof.
  revert s. induction acts as [|a acts IH]; intros s Hinv; simpl.
  - intros [= <-]. auto.
  - destruct (step a s) as [s1|] eqn:Hs; [|discriminate]. simpl.
    intros Hex Hr Ht. apply (IH s1); eauto using inv_step, terminal_record_step.
Qed.

(** One run of a generator whose record is there yields a terminal event
    when it passes its terminal yield, and at no other time. *)
Lemma handler_run_terminal_once h s h' s' r :
  status_tracker s !! h_rid h = Some r ->
  count_terminal (h_out h) = (if finished (h_pc h) then 1 else 0) ->
  handler_run h s = Some (h', s') ->
  count_terminal (h_out h') = (if finished (h_pc h') then 1 else 0).
Proof.
  intros Hr Hc Hrun. unfold handler_run, wait_relay in Hrun. rewrite ?Hr in Hrun.
  destruct (h_pc h) eqn:Hpc; simpl in Hc;
    destruct_matches Hrun; inversion Hrun; subst; simpl;
    rewrite count_terminal_app, Hc; reflexivity.
Qed.

Lemma terminal_once_initial : terminal_once initial_state.
Proof. intros i h H. inversion H. Qed.

Lemma terminal_once_step a s s' :
  inv s -> terminal_once s -> step a s = Some s' -> terminal_once s'.
Proof.
  intros Hinv Hto Hs j hj Hj.
  destruct (step_handlers a s s' Hs)
    as [E|[(h0 & E & Hout & Hpc)|(i & h0 & h0' & s1 & -> & Hh0 & Hrun & E)]];
    rewrite E in Hj.
  - apply (Hto j). assumption.
  - apply lookup_app_Some in Hj as [Hj|[_ Hj]]; [apply (Hto j); assumption|].
    apply list_lookup_singleton_Some in Hj as [_ <-].
    rewrite Hout. destruct (h_pc h0); try discriminate; reflexivity.
  - destruct (decide (i = j)) as [->|Hne].
    + rewrite list_lookup_insert_eq in Hj by (eapply lookup_lt_Some; eauto).
      inversion Hj; subst hj.
      destruct (inv_handlers s Hinv j h0 Hh0) as (r & Hr & _).
      eapply handler_run_terminal_once; eauto.
    + rewrite list_lookup_insert_ne in Hj by assumption. apply (Hto j). assumption.
Qed.

Lemma terminal_once_exec acts s s' :
  inv s -> terminal_once s -> exec acts s = Some s' -> terminal_once s'.
Proof.
  revert s. induction acts as [|a acts IH]; intros s Hinv Hto; simpl.
  - intros [= <-]. assumption.
  - destruct (step a s) as [s1|] eqn:Hs; [|discriminate]. simpl.
    apply IH; [eapply inv_step|eapply terminal_once_step]; eauto.
Qed.

(** A generator past its terminal yield yields nothing more. *)
Lemma finished_step a s s' i h :
  step a s = Some s' -> handlers s !! i = Some h -> finished (h_pc h) = true ->
  exists h', handlers s' !! i = Some h' /\ finished (h_pc h') = true /\
             h_out h' = h_out h.
Proof.
  intros Hs Hh Hf.
  destruct (step_handlers a s s' Hs)
    as [E|[(h0 & E & _)|(j & h0 & h0' & s1 & -> & Hh0 & Hrun & E)]];
    rewrite E.
  - exists h. auto.
  - exists h. split; [apply lookup_app_l_Some; assumption|auto].
  - destruct (decide (j = i)) as [->|Hne].
    + rewrite Hh in Hh0. inversion Hh0; subst h0. exists h0'.
      rewrite list_lookup_insert_eq by (eapply lookup_lt_Some; eauto).
      split; [reflexivity|]. unfold handler_run in Hrun.
      destruct (h_pc h); try discriminate. inversion Hrun; subst. simpl.
      rewrite app_nil_r. auto.
    + exists h. rewrite list_lookup_insert_ne by assumption. auto.
Qed.

Lemma finished_exec acts s s' i h :
  exec acts s = Some s' -> handlers s !! i = Some h -> finished (h_pc h) = true ->
  exists h', handlers s' !! i = Some h' /\ finished (h_pc h') = true /\
             h_out h' = h_out h.
Proof.
  revert s h. induction acts as [|a acts IH]; intros s h; simpl.
  - intros [= <-]. eauto.
  - destruct (step a s) as [s1|] eqn:Hs; [|discriminate]. simpl.
    intros Hex Hh Hf.
    destruct (finished_step a s s1 i h Hs Hh Hf) as (h1 & Hh1 & Hf1 & Ho1).
    destruct (IH s1 h1 Hex Hh1 Hf1) as (h' & Hh' & Hf' & Ho').
    exists h'. repeat split; auto. congruence.
Qed.

(** ** A stream that finds the record in "error" ends *)

Lemma handler_run_error_check h s r :
  status_tracker s !! h_rid h = Some r -> status r = Error ->
  before_error_check (h_pc h) = true ->
  exists h', handler_run h s = Some (h', s) /\ h_rid h' = h_rid h /\
             (before_error_check (h_pc h') = true \/ h_pc h' = HDone) /\
             checks_left (h_pc h') < checks_left (h_pc h).
Proof.
  intros Hr Hst Hb. unfold handler_run. rewrite Hr, Hst.
  destruct (h_pc h); try discriminate; [|destruct (h_variant h)|];
    eexists; (split; [reflexivity|]); simpl; auto.
Qed.

Lemma error_check_bounded acts :
  forall s s' i h r,
    inv s -> exec acts s = Some s' ->
    handlers s !! i = Some h ->
    status_tracker s !! h_rid h = Some r -> status r = Error ->
    before_error_check (h_pc h) = true \/ h_pc h = HDone ->
    exists h', handlers s' !! i = Some h' /\ h_rid h' = h_rid h /\
               status_tracker s' !! h_rid h = Some r /\
               (before_error_check (h_pc h') = true \/ h_pc h' = HDone) /\
               resumptions i acts + checks_left (h_pc h') <= checks_left (h_pc h).
Proof.
  induction acts as [|a acts IH]; intros s s' i h r Hinv Hex Hh Hr Hst Hpc.
  - inversion Hex; subst. exists h. simpl. auto.
  - simpl in Hex. destruct (step a s) as [s1|] eqn:Hs; [|discriminate].
    simpl in Hex.
    pose proof (inv_step _ _ _ Hinv Hs) as Hinv1.
    assert (Ht : terminal_status (status r)) by (right; assumption).
    assert (Hother : a <> StreamResume i ->
              exists h', handlers s' !! i = Some h' /\ h_rid h' = h_rid h /\
                         status_tracker s' !! h_rid h = Some r /\
                         (before_error_check (h_pc h') = true \/ h_pc h' = HDone) /\
                         resumptions i acts + checks_left (h_pc h')
                         <= checks_left (h_pc h)).
    { intros Hne.
      pose proof (step_keeps_handler a s s1 i h Hs Hne Hh) as Hh1.
      pose proof (terminal_record_step a s s1 _ r Hinv Hs Hr Ht) as Hr1.
      apply (IH s1 s' i h r Hinv1 Hex Hh1 Hr1 Hst Hpc). }
    destruct a; try (simpl; apply Hother; discriminate).
    simpl. destruct (decide (i = i0)) as [<-|Hne];
      [|simpl; apply Hother; congruence].
    simpl in Hs. unfold stream_resume in Hs. rewrite Hh in Hs. simpl in Hs.
    destruct Hpc as [Hpc|Hpc];
      [|unfold handler_run in Hs; rewrite Hpc in Hs; discriminate].
    destruct (handler_run_error_check h s r Hr Hst Hpc)
      as (h1 & Hrun & Hrid1 & Hpc1 & Hlt).
    rewrite Hrun in Hs. simpl in Hs. inversion Hs; subst s1.
    assert (Hh1 : handlers (set_handlers (<[i := h1]> (handlers s)) s) !! i = Some h1).
    { simpl. apply list_lookup_insert_eq. eapply lookup_lt_Some; eauto. }
    assert (Hr1 : status_tracker (set_handlers (<[i := h1]> (handlers s)) s)
                    !! h_rid h1 = Some r).
    { simpl. rewrite Hrid1. assumption. }
    destruct (IH _ s' i h1 r Hinv1 Hex Hh1 Hr1 Hst Hpc1)
      as (h' & Hh' & Hrid & Hr' & Hpc' & Hle).
    exists h'. rewrite Hrid1 in *. repeat split; auto. lia.
Qed.

(** ** A relay entry is made by the worker only *)

Lemma handler_run_no_entry h s h' s' rid :
  handler_run h s = Some (h', s') ->
  stream_chunks s !! rid = None -> stream_chunks s' !! rid = None.
Proof.
  unfold handler_run. intros H Hn.
  destruct_matches H; inversion H; subst; simpl; try assumption.
  apply lookup_delete_None. right. assumption.
Qed.

Lemma relay_entry_made a s s' rid :
  step a s = Some s' ->
  stream_chunks s !! rid = None -> is_Some (stream_chunks s' !! rid) ->
  exists now item rest, a = WorkerGet now /\ request_queue s = item :: rest /\
                        qi_request_id item = rid.
Proof.
  intros Hs Hn [q Hq]. destruct a; simpl in Hs.
  - exfalso. destruct (status_tracker s !! request_id); [discriminate|].
    inversion Hs; subst. unfold post_queue_add in Hq.
    destruct (validate QueueRequest body); simpl in Hq; congruence.
  - exfalso. destruct (status_tracker s !! request_id); [discriminate|].
    inversion Hs; subst. unfold post_chat_completions in Hq.
    destruct (validate OpenAIChatRequest body) as [request|]; [|congruence].
    destruct (dict_get "stream" request) as [[| [|] | | | | |]|];
      simpl in Hq; congruence.
  - exfalso. inversion Hs; subst. unfold get_stream in Hq.
    destruct (status_tracker s !! request_id); simpl in Hq; congruence.
  - exfalso. unfold stream_resume in Hs.
    destruct (handlers s !! i) as [h|] eqn:Hh; [|discriminate]. simpl in Hs.
    destruct (handler_run h s) as [[h' s1]|] eqn:Hrun; [|discriminate].
    simpl in Hs. inversion Hs; subst. simpl in Hq.
    rewrite (handler_run_no_entry _ _ _ _ _ Hrun Hn) in Hq. discriminate.
  - unfold worker_get in Hs. destruct (worker s); try discriminate.
    destruct (request_queue s) as [|item rest];
      [inversion Hs; subst; congruence|].
    destruct (status_tracker s !! qi_request_id item);
      inversion Hs; subst; simpl in Hq; [|congruence].
    destruct (decide (qi_request_id item = rid)) as [E|Hne].
    + exists now, item, rest. auto.
    + rewrite lookup_insert_ne in Hq by assumption. congruence.
  - exfalso. unfold llm_created in Hs. destruct (worker s); try discriminate.
    inversion Hs; subst. simpl in Hq. congruence.
  - exfalso. unfold llm_chunk in Hs. destruct (worker s); try discriminate.
    destruct content as [[|x c]|]; try (inversion Hs; subst; congruence).
    destruct (stream_chunks s !! rid0); inversion Hs; subst.
    + simpl in Hq. congruence.
    + rewrite processing_error_stream_chunks in Hq. congruence.
  - exfalso. unfold llm_finished in Hs. destruct (worker s); try discriminate.
    destruct (stream_chunks s !! rid0); inversion Hs; subst.
    + simpl in Hq. congruence.
    + rewrite processing_error_stream_chunks in Hq. congruence.
  - exfalso. unfold llm_raised in Hs.
    destruct (worker s); try discriminate; inversion Hs; subst;
      rewrite processing_error_stream_chunks in Hq; congruence.
Qed.

(** Once the request is over and its entry removed, no entry comes back. *)
Lemma no_entry_step a s s' rid r :
  inv s -> step a s = Some s' ->
  status_tracker s !! rid = Some r -> terminal_status (status r) ->
  stream_chunks s !! rid = None -> stream_chunks s' !! rid = None.
Proof.
  intros Hinv Hs Hr Ht Hn.
  destruct (stream_chunks s' !! rid) as [q|] eqn:Hq; [|reflexivity].
  exfalso.
  destruct (relay_entry_made a s s' rid Hs Hn) as (now & item & rest & _ & Hqu & Hrid);
    [eauto|].
  destruct (inv_queue_records s Hinv item) as (r' & Hr' & Hst');
    [rewrite Hqu; left|].
  rewrite Hrid, Hr in Hr'. inversion Hr'; subst. destruct Ht; congruence.
Qed.

Lemma waits_in_vain_step i rid a s s' :
  inv s -> waits_in_vain i rid s -> step a s = Some s' -> waits_in_vain i rid s'.
Proof.
  intros Hinv ((r & Hr & Hst) & Hn & h & Hh & Hrid & Hv & Hpc & Hout) Hs.
  assert (Ht : terminal_status (status r)) by (left; assumption).
  split; [exists r; split; [eapply terminal_record_step; eauto|assumption]|].
  split; [eapply no_entry_step; eauto|].
  destruct (step_handlers a s s' Hs)
    as [E|[(h0 & E & _)|(j & h0 & h0' & s1 & -> & Hh0 & Hrun & E)]];
    rewrite E.
  - exists h. auto 10.
  - exists h. split; [apply lookup_app_l_Some; assumption|auto 10].
  - destruct (decide (j = i)) as [->|Hne].
    + rewrite Hh in Hh0. inversion Hh0; subst h0. exists h0'.
      rewrite list_lookup_insert_eq by (eapply lookup_lt_Some; eauto).
      split; [reflexivity|].
      unfold handler_run, wait_relay in Hrun. rewrite Hrid, Hr, Hv, Hst, Hn in Hrun.
      destruct Hpc as [Hpc|Hpc]; rewrite Hpc in Hrun;
        inversion Hrun; subst; simpl; rewrite Hout; auto 10.
    + exists h. rewrite list_lookup_insert_ne by assumption. auto 10.
Qed.

Lemma waits_in_vain_exec i rid acts s s' :
  inv s -> waits_in_vain i rid s -> exec acts s = Some s' -> waits_in_vain i rid s'.
Proof.
  revert s. induction acts as [|a acts IH]; intros s Hinv Hw; simpl.
  - intros [= <-]. assumption.
  - destruct (step a s) as [s1|] eqn:Hs; [|discriminate]. simpl.
    apply IH; [eapply inv_step|eapply waits_in_vain_step]; eauto.
Qed.

(** C3 (as the code has it).  Every stream of /stream/{id} or of a
    streaming /v1/chat/completions has yielded one terminal event (done /
    finish, or error) when it is past its terminal yield and none before;
    past it the stream yields nothing more, and once ended it cannot be
    resumed.  Take a stream whose request has reached "complete" or "error",
    before or after the stream was opened.  If it is the only stream ever
    opened on that identifier then, whatever the server does from there, its
    generator is resumed at most 5 + (chunks waiting in the relay) times; as
    long as it has not ended it can be resumed (it is never blocked) and has
    yielded at most one terminal event; and once it has ended it has yielded
    exactly one terminal event and cannot be resumed.  If the request is in
    "error" and the generator has not yet made its test for an "error"
    record then, however many streams are open on the identifier, it is
    resumed at most 3 times, can be resumed as long as it has not ended, and
    ends having yielded exactly one terminal event. *)
Theorem C3_stream_ends :
  (forall acts s i h,
      exec acts initial_state = Some s ->
      handlers s !! i = Some h ->
      count_terminal (h_out h) = (if finished (h_pc h) then 1 else 0) /\
      (h_pc h = HDone -> step (StreamResume i) s = None) /\
      (finished (h_pc h) = true ->
       forall acts' s', exec acts' s = Some s' ->
         exists h', handlers s' !! i = Some h' /\ finished (h_pc h') = true /\
                    h_out h' = h_out h)) /\
  (forall acts0 s i h r acts s',
      exec acts0 initial_state = Some s ->
      handlers s !! i = Some h ->
      status_tracker s !! h_rid h = Some r ->
      terminal_status (status r) ->
      exec acts s = Some s' ->
      sole_reader s' (h_rid h) ->
      exists h',
        handlers s' !! i = Some h' /\
        resumptions i acts + remaining s' h' <= 5 + relay_backlog s (h_rid h) /\
        (h_pc h' <> HDone ->
           is_Some (step (StreamResume i) s') /\ count_terminal (h_out h') <= 1) /\
        (h_pc h' = HDone ->
           count_terminal (h_out h') = 1 /\ step (StreamResume i) s' = None)) /\
  (forall acts0 s i h r acts s',
      exec acts0 initial_state = Some s ->
      handlers s !! i = Some h ->
      status_tracker s !! h_rid h = Some r ->
      status r = Error ->
      before_error_check (h_pc h) = true ->
      exec acts s = Some s' ->
      exists h',
        handlers s' !! i = Some h' /\
        resumptions i acts + checks_left (h_pc h') <= checks_left (h_pc h) /\
        checks_left (h_pc h) <= 3 /\
        (h_pc h' <> HDone ->
           is_Some (step (StreamResume i) s') /\ count_terminal (h_out h') = 0) /\
        (h_pc h' = HDone ->
           count_terminal (h_out h') = 1 /\ step (StreamResume i) s' = None)).
Proof.
  assert (Hended : forall s i h, handlers s !! i = Some h -> h_pc h = HDone ->
                                 step (StreamResume i) s = None).
  { intros s i h Hh Hd. simpl. unfold stream_resume. rewrite Hh. simpl.
    unfold handler_run. rewrite Hd. reflexivity. }
  split; [|split].
  - intros acts s i h Hex Hh.
    pose proof (inv_exec _ _ _ inv_initial Hex) as Hinv.
    pose proof (terminal_once_exec _ _ _ inv_initial terminal_once_initial Hex) as Hto.
    split; [apply (Hto i); assumption|]. split; [apply Hended; assumption|].
    intros Hf acts' s' Hex'. eapply finished_exec; eauto.
  - intros acts0 s i h r acts s' Hex0 Hh Hr Ht Hex Hso.
    destruct (invs_exec _ _ _ inv_initial inv_sole_initial Hex0) as [Hinv Hsole].
    destruct (invs_exec _ _ _ Hinv Hsole Hex) as [Hinv' Hsole'].
    pose proof (sole_reader_exec_back _ _ _ _ Hex Hso) as Hso0.
    destruct (sole_reader_bounded acts s s' i h r Hinv Hsole Hex Hh Hr Ht Hso)
      as (h' & Hh' & Hrid & Hr' & Hle).
    destruct (Hsole (h_rid h)) as [_ Hrd].
    specialize (Hrd i h r Hh eq_refl Hr Hso0).
    pose proof (remaining_bound s h r Hrd) as Hb.
    destruct (Hsole' (h_rid h)) as [_ Hrd'].
    specialize (Hrd' i h' r Hh' Hrid Hr' Hso).
    exists h'. split; [assumption|]. split; [lia|]. split.
    + intros Hnd. rewrite <- Hrid in Hr'. split.
      * destruct (stream_resume_progress s' i h' r Hinv' Hh' Hr' Ht Hrd' Hnd)
          as (s2 & _ & Hs2 & _). simpl. rewrite Hs2. eauto.
      * unfold reader_shape in Hrd'. destruct (finished (h_pc h')).
        -- destruct Hrd' as (_ & Hc & _). lia.
        -- destruct Hrd' as (Hc & _). lia.
    + intros Hd. unfold reader_shape in Hrd'. rewrite Hd in Hrd'. simpl in Hrd'.
      split; [apply Hrd'|]. apply (Hended s' i h'); assumption.
  - intros acts0 s i h r acts s' Hex0 Hh Hr Hst Hpc Hex.
    pose proof (inv_exec _ _ _ inv_initial Hex0) as Hinv.
    pose proof (inv_exec _ _ _ Hinv Hex) as Hinv'.
    pose proof (terminal_once_exec _ _ _ inv_initial terminal_once_initial Hex0) as Hto.
    pose proof (terminal_once_exec _ _ _ Hinv Hto Hex) as Hto'.
    destruct (error_check_bounded acts s s' i h r Hinv Hex Hh Hr Hst (or_introl Hpc))
      as (h' & Hh' & Hrid & Hr' & Hpc' & Hle).
    exists h'. split; [assumption|]. split; [assumption|].
    split; [destruct (h_pc h); simpl; lia|].
    pose proof (Hto' i h' Hh') as Hc. split.
    + intros Hnd. destruct Hpc' as [Hpc'|Hpc']; [|contradiction].
      rewrite <- Hrid in Hr'.
      destruct (handler_run_error_check h' s' r Hr' Hst Hpc') as (h2 & Hrun & _).
      split.
      * simpl. unfold stream_resume. rewrite Hh'. simpl. rewrite Hrun. simpl. eauto.
      * rewrite Hc. destruct (h_pc h'); try discriminate; reflexivity.
    + intros Hd. rewrite Hd in Hc. simpl in Hc.
      split; [assumption|]. apply (Hended s' i h'); assumption.
Qed.

(** ** Two streams on one request *)

Lemma stuck_reader_frame i h q s s' :
  stuck_reader i h q s ->
  handlers s' !! i = Some h ->
  chunk_queues s' !! q = Some [] ->
  (forall rid, stream_chunks s' !! rid <> Some q) ->
  stuck_reader i h q s'.
Proof. intros (_ & Hpc & _) H1 H2 H3. repeat split; assumption. Qed.

Lemma stuck_reader_processing_error i h q rid msg now s :
  stuck_reader i h q s -> stuck_reader i h q (processing_error rid msg now s).
Proof.
  intros Hst. pose proof Hst as (Hh & Hpc & Hq & Hn).
  unfold processing_error.
  destruct (stream_chunks s !! rid) as [q0|] eqn:H0;
    (eapply stuck_reader_frame; [exact Hst|exact Hh| |exact Hn]); simpl.
  - rewrite list_lookup_alter_ne; [assumption|]. intros ->. eapply Hn; eauto.
  - assumption.
Qed.

Lemma stuck_reader_step i h q a s s' :
  stuck_reader i h q s -> step a s = Some s' -> stuck_reader i h q s'.
Proof.
  intros Hst Hs. pose proof Hst as (Hh & Hpc & Hq & Hn).
  destruct a; simpl in Hs.
  - destruct (status_tracker s !! request_id); [discriminate|].
    inversion Hs; subst. unfold post_queue_add.
    destruct (validate QueueRequest body); [|assumption].
    eapply stuck_reader_frame; eauto.
  - destruct (status_tracker s !! request_id); [discriminate|].
    inversion Hs; subst. unfold post_chat_completions.
    destruct (validate OpenAIChatRequest body) as [request|]; [|assumption].
    destruct (dict_get "stream" request) as [[| [|] | | | | |]|];
      (eapply stuck_reader_frame; [exact Hst| |exact Hq|exact Hn]);
      simpl; try assumption.
    apply lookup_app_l_Some. assumption.
  - inversion Hs; subst. unfold get_stream.
    destruct (status_tracker s !! request_id); [|assumption].
    eapply stuck_reader_frame; [exact Hst| |exact Hq|exact Hn].
    simpl. apply lookup_app_l_Some. assumption.
  - unfold stream_resume in Hs.
    destruct (handlers s !! i0) as [h0|] eqn:Hh0; [|discriminate]. simpl in Hs.
    destruct (handler_run h0 s) as [[h0' s1]|] eqn:Hrun; [|discriminate].
    simpl in Hs. inversion Hs; subst; clear Hs.
    assert (Hne : i0 <> i).
    { intros ->. rewrite Hh in Hh0. inversion Hh0; subst h0.
      unfold handler_run in Hrun. rewrite Hpc, Hq in Hrun. discriminate. }
    pose proof (handler_run_frame _ _ _ _ Hrun) as (_ & _ & _ & _ & Hhs).
    assert (H1 : chunk_queues s1 !! q = Some [] /\
                 forall rid, stream_chunks s1 !! rid <> Some q).
    { unfold handler_run in Hrun. destruct (h_pc h0) eqn:Hpc0.
      1-4: assert (s1 = s) as -> by
          (destruct_matches Hrun; inversion Hrun; reflexivity); auto.
      - destruct (chunk_queues s !! chunk_queue) as [[|c rest]|] eqn:Hq0;
          try discriminate.
        assert (s1 = set_chunk_queues (<[chunk_queue := rest]> (chunk_queues s)) s)
          as -> by (destruct (h_variant h0), c; inversion Hrun; reflexivity).
        simpl. split; [|assumption].
        rewrite list_lookup_insert_ne; [assumption|]. intros ->. congruence.
      - inversion Hrun; subst. simpl. split; [assumption|].
        intros rid H. apply lookup_delete_Some in H as [_ H]. eapply Hn; eauto.
      - discriminate. }
    destruct H1 as [H1 H2].
    eapply stuck_reader_frame; [exact Hst| |exact H1|exact H2].
    simpl. rewrite list_lookup_insert_ne by assumption. rewrite Hhs. assumption.
  - unfold worker_get in Hs. destruct (worker s); try discriminate.
    destruct (request_queue s) as [|item rest]; [inversion Hs; subst; assumption|].
    pose proof (lookup_lt_Some _ _ _ Hq) as Hlt.
    destruct (status_tracker s !! qi_request_id item); inversion Hs; subst;
      (eapply stuck_reader_frame; [exact Hst|exact Hh| | ]); simpl; auto.
    + apply lookup_app_l_Some. assumption.
    + intros rid. destruct (decide (qi_request_id item = rid)) as [<-|Hd].
      * rewrite lookup_insert_eq. intros [= E]. lia.
      * rewrite lookup_insert_ne by assumption. apply Hn.
  - unfold llm_created in Hs. destruct (worker s); try discriminate.
    inversion Hs; subst. eapply stuck_reader_frame; eauto.
  - unfold llm_chunk in Hs. destruct (worker s); try discriminate.
    destruct content as [[|x c]|]; try (inversion Hs; subst; assumption).
    destruct (stream_chunks s !! rid) as [q0|] eqn:H0; inversion Hs; subst.
    + eapply stuck_reader_frame; [exact Hst|exact Hh| |exact Hn]. simpl.
      rewrite list_lookup_alter_ne; [assumption|]. intros ->. eapply Hn; eauto.
    + apply stuck_reader_processing_error. assumption.
  - unfold llm_finished in Hs. destruct (worker s); try discriminate.
    destruct (stream_chunks s !! rid) as [q0|] eqn:H0; inversion Hs; subst.
    + eapply stuck_reader_frame; [exact Hst|exact Hh| |exact Hn]. simpl.
      rewrite list_lookup_alter_ne; [assumption|]. intros ->. eapply Hn; eauto.
    + apply stuck_reader_processing_error. assumption.
  - unfold llm_raised in Hs. destruct (worker s); try discriminate;
      inversion Hs; subst; apply stuck_reader_processing_error; assumption.
Qed.

Lemma stuck_reader_exec i h q acts s s' :
  stuck_reader i h q s -> exec acts s = Some s' -> stuck_reader i h q s'.
Proof.
  revert s. induction acts as [|a acts IH]; intros s Hst; simpl.
  - intros [= <-]. assumption.
  - destruct (step a s) as [s1|] eqn:Hs; [|discriminate]. simpl.
    apply IH. eapply stuck_reader_step; eauto.
Qed.

(** * Further properties *)

(** ** The arguments of the completion call *)

Lemma string_eqb_decide (a b : string) :
  String.eqb a b = bool_decide (a = b).
Proof.
  destruct (String.eqb_spec a b) as [->|Hne].
  - rewrite bool_decide_eq_true_2; reflexivity.
  - rewrite bool_decide_eq_false_2; auto.
Qed.

Lemma dict_get_set k k' v d :
  dict_get k (dict_set k' v d) = if decide (k = k') then Some v else dict_get k d.
Proof.
  induction d as [|[k0 v0] d IH]; simpl.
  - rewrite string_eqb_decide. destruct (decide (k = k')) as [->|Hne].
    + rewrite bool_decide_eq_true_2; reflexivity.
    + rewrite bool_decide_eq_false_2; auto.
  - destruct (String.eqb_spec k' k0) as [->|Hne0]; simpl.
    + destruct (String.eqb_spec k k0) as [->|Hne].
      * rewrite decide_True; reflexivity.
      * rewrite decide_False; auto.
    + destruct (String.eqb_spec k k0) as [->|Hne].
      * rewrite decide_False; auto.
      * exact IH.
Qed.

Lemma dict_get_forward (request_data : list (string * json)) params :
  forall kwargs k,
    dict_get k
      (foldl (fun kwargs param =>
                match dict_get_default param request_data JNull with
                | JNull => kwargs
                | value => dict_set param value kwargs
                end) kwargs params)
    = if decide (k ∈ params) then
        match dict_get_default k request_data JNull with
        | JNull => dict_get k kwargs
        | value => Some value
        end
      else dict_get k kwargs.
Proof.
  induction params as [|p params IH]; intros kwargs k; cbn [foldl].
  - rewrite decide_False; [reflexivity|]. apply not_elem_of_nil.
  - rewrite IH. clear IH.
    assert (Hset : dict_get k
                (match dict_get_default p request_data JNull with
                 | JNull => kwargs
                 | value => dict_set p value kwargs
                 end)
              = if decide (k = p) then
                  match dict_get_default k request_data JNull with
                  | JNull => dict_get k kwargs
                  | value => Some value
                  end
                else dict_get k kwargs).
    { destruct (decide (k = p)) as [->|Hne].
      - destruct (dict_get_default p request_data JNull);
          rewrite ?dict_get_set, ?decide_True; reflexivity.
      - destruct (dict_get_default p request_data JNull);
          rewrite ?dict_get_set, ?decide_False; auto. }
    destruct (decide (k ∈ params)) as [Hin|Hnin].
    + rewrite decide_True by (right; assumption).
      destruct (dict_get_default k request_data JNull) eqn:E; try reflexivity.
      rewrite Hset. destruct (decide (k = p)); reflexivity.
    + rewrite Hset. destruct (decide (k = p)) as [->|Hne].
      * rewrite decide_True by left. reflexivity.
      * rewrite decide_False; [reflexivity|].
        intros Hin. apply elem_of_cons in Hin as [?|?]; contradiction.
Qed.

(** X1: of the eight optional parameters, [llm_kwargs] holds exactly those
    that the request data holds with a value other than [None], each with
    that value: a parameter that is absent or [None] is not passed to the
    completion call. *)
Theorem X1_optional_params_forwarded request_data p :
  p ∈ optional_params ->
  dict_get p (build_llm_kwargs request_data) =
    match dict_get p request_data with
    | Some JNull | None => None
    | Some v => Some v
    end.
Proof.
  intros Hin. unfold build_llm_kwargs. rewrite dict_get_forward.
  rewrite decide_True by assumption.
  assert (Hbase : dict_get p
            [("model", dict_get_default "model" request_data JNull);
             ("messages", dict_get_default "messages" request_data (JList []));
             ("stream", JBool true);
             ("temperature", dict_get_default "temperature" request_data (JFloat (7 # 10)));
             ("top_p", dict_get_default "top_p" request_data (JFloat 1));
             ("frequency_penalty", dict_get_default "frequency_penalty" request_data (JFloat 0));
             ("presence_penalty", dict_get_default "presence_penalty" request_data (JFloat 0))]
          = None).
  { unfold optional_params in Hin.
    repeat (apply elem_of_cons in Hin as [->|Hin]; [reflexivity|]).
    inversion Hin. }
  unfold dict_get_default. destruct (dict_get p request_data) as [[]|];
    try reflexivity; exact Hbase.
Qed.

Lemma not_optional_base k : k ∈ base_params -> k ∉ optional_params.
Proof.
  unfold base_params, optional_params. intros Hb Ho.
  repeat (apply elem_of_cons in Hb as [->|Hb];
          [repeat (apply elem_of_cons in Ho as [Ho|Ho]; [discriminate|]);
           inversion Ho|]).
  inversion Hb.
Qed.

Lemma build_llm_kwargs_base request_data k :
  k ∉ optional_params ->
  dict_get k (build_llm_kwargs request_data) =
    dict_get k
      [("model", dict_get_default "model" request_data JNull);
       ("messages", dict_get_default "messages" request_data (JList []));
       ("stream", JBool true);
       ("temperature", dict_get_default "temperature" request_data (JFloat (7 # 10)));
       ("top_p", dict_get_default "top_p" request_data (JFloat 1));
       ("frequency_penalty", dict_get_default "frequency_penalty" request_data (JFloat 0));
       ("presence_penalty", dict_get_default "presence_penalty" request_data (JFloat 0))].
Proof.
  intros Hn. unfold build_llm_kwargs. rewrite dict_get_forward.
  rewrite decide_False by assumption. reflexivity.
Qed.

(** X2: whatever the request data, [llm_kwargs] asks for a stream
    ([stream] is [True], the request's own [stream] field is not used), has
    a value for each of its seven base keys, and has no key besides these
    seven and the eight optional parameters: the client tag and the [user]
    field are never passed on. *)
Theorem X2_llm_kwargs_keys request_data :
  dict_get "stream" (build_llm_kwargs request_data) = Some (JBool true) /\
  (forall k, k ∈ base_params -> is_Some (dict_get k (build_llm_kwargs request_data))) /\
  (forall k, k ∉ base_params -> k ∉ optional_params ->
             dict_get k (build_llm_kwargs request_data) = None).
Proof.
  split; [|split].
  - rewrite build_llm_kwargs_base; [reflexivity|].
    apply not_optional_base. unfold base_params.
    eapply (bool_decide_unpack _). vm_compute. exact Logic.I.
  - intros k Hb. rewrite build_llm_kwargs_base by (apply not_optional_base; exact Hb).
    unfold base_params in Hb.
    repeat (apply elem_of_cons in Hb as [->|Hb]; [simpl; eauto|]).
    inversion Hb.
  - intros k Hb Ho. rewrite build_llm_kwargs_base by assumption.
    unfold base_params in Hb. simpl.
    repeat match goal with
           | |- context [String.eqb k ?x] =>
               destruct (String.eqb_spec k x) as [->|_];
               [exfalso; apply Hb; eapply (bool_decide_unpack _); vm_compute;
                exact Logic.I|]
           end.
    reflexivity.
Qed.

(** ** What validation returns *)

Lemma dict_get_cons_ne k k' v d :
  k <> k' -> dict_get k ((k', v) :: d) = dict_get k d.
Proof.
  intros Hne. simpl. destruct (String.eqb_spec k k'); [contradiction|reflexivity].
Qed.

Lemma dict_get_cons_eq k v d : dict_get k ((k, v) :: d) = Some v.
Proof. simpl. rewrite String.eqb_refl. reflexivity. Qed.

Lemma validate_fields_get fs body request f :
  validate_fields fs body = Some request ->
  NoDup (f_name <$> fs) -> f ∈ fs ->
  exists v,
    dict_get (f_name f) request = Some v /\
    ((exists v0, dict_get (f_name f) body = Some v0 /\
                 validate_value (f_type f) v0 = Some v) \/
     (dict_get (f_name f) body = None /\ f_default f = Some v)).
Proof.
  revert request. induction fs as [|g fs IH]; intros request Hv Hnd Hin.
  - inversion Hin.
  - apply validate_fields_cons in Hv as (v & tl & -> & Htl & Hg).
    rewrite fmap_cons in Hnd. apply NoDup_cons in Hnd as [Hnotin Hnd].
    apply elem_of_cons in Hin as [->|Hin].
    + exists v. rewrite dict_get_cons_eq. auto.
    + destruct (IH tl Htl Hnd Hin) as (w & Hw & Hcase).
      exists w. rewrite dict_get_cons_ne; [auto|].
      intros E. apply Hnotin. rewrite <- E. apply list_elem_of_fmap. eauto.
Qed.


Lemma QueueRequest_distinct_names : distinct_names QueueRequest.
Proof.
  unfold distinct_names. eapply (bool_decide_unpack _). vm_compute. exact Logic.I.
Qed.


(** ** The life of a record *)

Lemma processing_error_status_tracker rid msg now s :
  status_tracker (processing_error rid msg now s)
  = alter (mark_error now msg) rid (status_tracker s).
Proof. unfold processing_error. destruct (stream_chunks s !! rid); reflexivity. Qed.

(** What one step does to a record. *)
Lemma record_step a s s' rid r :
  inv s -> step a s = Some s' -> status_tracker s !! rid = Some r ->
  exists r', status_tracker s' !! rid = Some r' /\
    (r' = r \/
     (status r = Queued /\ exists now, r' = mark_processing now r) \/
     (status r = Processing /\
      ((exists now full, r' = mark_complete now full r) \/
       (exists now msg, r' = mark_error now msg r)))).
Proof.
  intros Hinv Hs Hr.
  destruct (decide (touched a s = Some rid)) as [Hto|Hun].
  - destruct a; simpl in Hs, Hto.
    + inversion Hto; subst. rewrite Hr in Hs. discriminate.
    + inversion Hto; subst. rewrite Hr in Hs. discriminate.
    + inversion Hs; subst. exists r. split; [|left; reflexivity].
      unfold get_stream. destruct (status_tracker s !! request_id); assumption.
    + apply stream_resume_frame in Hs as (_ & -> & _). eauto.
    + destruct (request_queue s) as [|item rest] eqn:Hq; [discriminate|].
      simpl in Hto. inversion Hto as [Hrid].
      destruct (inv_queue_records s Hinv item) as (r' & Hr' & Hst');
        [rewrite Hq; left|].
      rewrite Hrid, Hr in Hr'. inversion Hr'; subst r'.
      unfold worker_get in Hs. destruct (worker s); try discriminate.
      rewrite Hq, Hrid, Hr in Hs. inversion Hs; subst. simpl.
      exists (mark_processing now r). rewrite lookup_insert_eq.
      split; [reflexivity|]. right; left. eauto.
    + unfold llm_created in Hs. destruct (worker s); try discriminate.
      inversion Hs; subst. eauto.
    + destruct (inv_busy s Hinv _ Hto) as (r' & _ & _ & Hr' & Hst' & _).
      rewrite Hr in Hr'. inversion Hr'; subst r'.
      unfold llm_chunk in Hs. destruct (worker s); try discriminate.
      simpl in Hto. inversion Hto; subst rid0.
      destruct content as [[|x c]|]; try (inversion Hs; subst; eauto; fail).
      destruct (stream_chunks s !! rid); inversion Hs; subst; [simpl; eauto|].
      rewrite processing_error_status_tracker, lookup_alter_eq, Hr. simpl.
      eexists. split; [reflexivity|]. right; right. eauto.
    + destruct (inv_busy s Hinv _ Hto) as (r' & _ & _ & Hr' & Hst' & _).
      rewrite Hr in Hr'. inversion Hr'; subst r'.
      unfold llm_finished in Hs. destruct (worker s); try discriminate.
      simpl in Hto. inversion Hto; subst rid0.
      destruct (stream_chunks s !! rid); inversion Hs; subst.
      * simpl. unfold update_record. simpl. rewrite lookup_alter_eq. simpl.
        rewrite Hr. simpl. eexists. split; [reflexivity|]. right; right. eauto.
      * rewrite processing_error_status_tracker, lookup_alter_eq, Hr. simpl.
        eexists. split; [reflexivity|]. right; right. eauto.
    + destruct (inv_busy s Hinv _ Hto) as (r' & _ & _ & Hr' & Hst' & _).
      rewrite Hr in Hr'. inversion Hr'; subst r'.
      unfold llm_raised in Hs.
      destruct (worker s); try discriminate; simpl in Hto; inversion Hto; subst rid0;
        inversion Hs; subst;
        rewrite processing_error_status_tracker, lookup_alter_eq, Hr; simpl;
        (eexists; split; [reflexivity|]; right; right; eauto).
  - destruct (step_untouched a s s' rid Hinv Hs Hun) as (H1 & _).
    exists r. split; [congruence|left; reflexivity].
Qed.

(** X4: a record is never removed.  From any state the server reaches and
    along any continuation, the record of a request is still there; its
    state has only moved forward (queued, processing, then complete or
    error); its client tag, creation time and entry position are what they
    were; and once the request is complete or in error the whole record
    stays as it is. *)
Theorem X4_record_lifecycle acts0 s acts s' rid r :
  exec acts0 initial_state = Some s ->
  exec acts s = Some s' ->
  status_tracker s !! rid = Some r ->
  exists r',
    get_request_status rid s' = Some r' /\
    status_le (status r) (status r') = true /\
    client_id r' = client_id r /\
    created_at r' = created_at r /\
    queue_entered_position r' = queue_entered_position r /\
    (terminal_status (status r) -> r' = r).
Proof.
  intros Hex0 Hex Hr. unfold get_request_status.
  pose proof (inv_exec _ _ _ inv_initial Hex0) as Hinv. clear Hex0.
  revert s r Hinv Hex Hr.
  induction acts as [|a acts IH]; intros s r Hinv Hex Hr; simpl in Hex.
  - inversion Hex; subst. exists r. split; [assumption|].
    split; [destruct (status r); reflexivity|]. auto.
  - destruct (step a s) as [s1|] eqn:Hs; [|discriminate]. simpl in Hex.
    destruct (record_step a s s1 rid r Hinv Hs Hr) as (r1 & Hr1 & Hcase).
    destruct (IH s1 r1 (inv_step _ _ _ Hinv Hs) Hex Hr1)
      as (r' & Hr' & Hle & Hc & Hcr & Hq & Hterm).
    exists r'. split; [assumption|].
    destruct Hcase as [->|[(Hst & now & ->)|(Hst & [(now & full & ->)|(now & msg & ->)])]];
      simpl in *.
    + auto.
    + rewrite Hst. repeat split; auto.
      intros [E|E]; congruence.
    + rewrite Hst. repeat split; auto.
      * destruct (status r'); try discriminate; reflexivity.
      * intros [E|E]; congruence.
    + rewrite Hst. repeat split; auto.
      * destruct (status r'); try discriminate; reflexivity.
      * intros [E|E]; congruence.
Qed.

(** ** The making of a relay entry *)


(** ** What /queue/status reports *)






(** ** The fields of a record *)

(** A record is made by an admission only. *)
Lemma record_made a s s' rid r :
  inv s -> step a s = Some s' ->
  status_tracker s !! rid = None -> status_tracker s' !! rid = Some r ->
  exists cid now,
    r = mkRequestStatus Queued cid now None None None None (Some (qsize s + 1)).
Proof.
  intros Hinv Hs Hn Hr.
  destruct (decide (touched a s = Some rid)) as [Hto|Hun].
  - destruct a; simpl in Hs, Hto.
    + inversion Hto; subst. rewrite Hn in Hs. inversion Hs; subst.
      unfold post_queue_add in Hr.
      destruct (validate QueueRequest body) as [request|];
        [|simpl in Hr; congruence].
      unfold add_to_queue in Hr. simpl in Hr. rewrite lookup_insert_eq in Hr.
      inversion Hr; subst. eauto.
    + inversion Hto; subst. rewrite Hn in Hs. inversion Hs; subst.
      unfold post_chat_completions in Hr.
      destruct (validate OpenAIChatRequest body) as [request|];
        [|simpl in Hr; congruence].
      assert (Hr' : status_tracker (fst (enqueue rid now "openai_compat" request s))
                      !! rid = Some r).
      { destruct (dict_get "stream" request) as [[| [|] | | | | |]|]; exact Hr. }
      simpl in Hr'. rewrite lookup_insert_eq in Hr'. inversion Hr'; subst. eauto.
    + exfalso. inversion Hs; subst. unfold get_stream in Hr.
      destruct (status_tracker s !! request_id); simpl in Hr; congruence.
    + exfalso. apply stream_resume_frame in Hs as (_ & Ht & _). congruence.
    + exfalso. destruct (request_queue s) as [|item rest] eqn:Hq; [discriminate|].
      simpl in Hto. inversion Hto as [Hrid].
      destruct (inv_queue_records s Hinv item) as (r' & Hr' & _);
        [rewrite Hq; left|]. congruence.
    + exfalso. destruct (inv_busy s Hinv _ Hto) as (r' & _ & _ & Hr' & _). congruence.
    + exfalso. destruct (inv_busy s Hinv _ Hto) as (r' & _ & _ & Hr' & _). congruence.
    + exfalso. destruct (inv_busy s Hinv _ Hto) as (r' & _ & _ & Hr' & _). congruence.
    + exfalso. destruct (inv_busy s Hinv _ Hto) as (r' & _ & _ & Hr' & _). congruence.
  - exfalso. destruct (step_untouched a s s' rid Hinv Hs Hun) as (H1 & _). congruence.
Qed.

Lemma record_shape_step a s s' :
  inv s ->
  (forall rid r, status_tracker s !! rid = Some r -> record_shape r) ->
  step a s = Some s' ->
  forall rid r, status_tracker s' !! rid = Some r -> record_shape r.
Proof.
  intros Hinv Hall Hs rid r Hr.
  destruct (status_tracker s !! rid) as [r0|] eqn:Hr0.
  - pose proof (Hall rid r0 Hr0) as [Hp Hsh].
    destruct (record_step a s s' rid r0 Hinv Hs Hr0) as (r' & Hr' & Hcase).
    rewrite Hr in Hr'. inversion Hr'; subst r'. unfold record_shape.
    destruct Hcase as [->|[(Hst & now & ->)|(Hst & [(now & full & ->)|(now & msg & ->)])]];
      [split; assumption|..]; rewrite Hst in Hsh; simpl;
      (split; [assumption|]); destruct Hsh as (H1 & H2 & H3 & H4); eauto 10.
  - destruct (record_made a s s' rid r Hinv Hs Hr0 Hr) as (cid & now & ->).
    split; simpl; eauto.
Qed.

(** X7: in every state the server reaches a record has the fields of its
    state: the entry position always; no start time, end time, result or
    error while "queued"; a start time and nothing more while "processing";
    start time, end time and result, and no error, when "complete"; start
    time, end time and error message, and no result, when "error". *)
Theorem X7_record_fields acts s rid r :
  exec acts initial_state = Some s ->
  get_request_status rid s = Some r ->
  record_shape r.
Proof.
  unfold get_request_status. intros Hex. revert rid r.
  assert (H0 : forall rid r, status_tracker initial_state !! rid = Some r ->
                             record_shape r).
  { intros rid r H. simpl in H. rewrite lookup_empty in H. discriminate. }
  pose proof inv_initial as Hinv. revert Hinv H0 Hex.
  generalize initial_state as s0. revert s.
  induction acts as [|a acts IH]; intros s s0 Hinv H0 Hex; simpl in Hex.
  - inversion Hex; subst. assumption.
  - destruct (step a s0) as [s1|] eqn:Hs; [|discriminate]. simpl in Hex.
    apply (IH s s1); eauto using inv_step, record_shape_step.
Qed.

(** ** Reported positions *)










(** ** The batch runner's request *)

Lemma validate_value_number v :
  is_number v = true -> is_Some (validate_value TFloat v).
Proof. destruct v; try discriminate; cbn; eauto. Qed.

(** X9: the payload [submit_to_queue] of the batch runner builds is always
    admitted by /queue/add, when the model identifier and the two texts are
    strings, the sampling parameters found in [params] are numbers and a
    [max_tokens] found there and truthy is an integer: the answer is
    "queued" with the queue position, and the record carries the batch
    runner's client tag. *)
Theorem X9_batch_payload_admitted rid now model_id params system_prompt content s :
  (forall k v, k ∈ ["temperature"; "top_p"; "frequency_penalty"; "presence_penalty"] ->
               dict_get k params = Some v -> is_number v = true) ->
  (forall v, dict_get "max_tokens" params = Some v -> truthy v = true ->
             exists z, v = JInt z) ->
  let out := submit_to_queue rid now model_id params system_prompt content s in
  snd out = Some (mkQueueResponse Queued rid (qsize s + 1)) /\
  exists r, status_tracker (fst out) !! rid = Some r /\
            status r = Queued /\
            client_id r = "tlc_playground_batch_runner".
Proof.
  intros Hnum Hmax. unfold submit_to_queue.
  assert (Hdef : forall k d, k ∈ ["temperature"; "top_p"; "frequency_penalty";
                                  "presence_penalty"] ->
                 is_number d = true ->
                 is_Some (validate_value TFloat (dict_get_default k params d))).
  { intros k d Hk Hd. unfold dict_get_default.
    destruct (dict_get k params) as [v|] eqn:E; apply validate_value_number; eauto. }
  assert (Hok : forall f, f ∈ QueueRequest ->
            field_ok (submit_payload model_id params system_prompt content) f).
  { intros f Hf. unfold submit_payload, field_ok.
    destruct (truthy (dict_get_default "max_tokens" params JNull)) eqn:Htr.
    - assert (Hz : exists z, dict_get_default "max_tokens" params JNull = JInt z).
      { unfold dict_get_default in *.
        destruct (dict_get "max_tokens" params) as [v|]; [|discriminate]. eauto. }
      destruct Hz as [z ->]. unfold QueueRequest in Hf.
      repeat (apply elem_of_cons in Hf as [->|Hf]); try (inversion Hf; fail);
        cbn [f_name f_type f_default dict_set dict_get String.eqb Ascii.eqb Bool.eqb];
        try (cbn; eauto; fail);
        apply Hdef; try reflexivity;
        eapply (bool_decide_unpack _); vm_compute; exact Logic.I.
    - unfold QueueRequest in Hf.
      repeat (apply elem_of_cons in Hf as [->|Hf]); try (inversion Hf; fail);
        cbn [f_name f_type f_default dict_get String.eqb Ascii.eqb Bool.eqb];
        try (cbn; eauto; fail);
        apply Hdef; try reflexivity;
        eapply (bool_decide_unpack _); vm_compute; exact Logic.I. }
  destruct (validate_fields_accept QueueRequest _ Hok) as [request Hv].
  destruct (post_queue_add_accepted rid now
              (JObj (submit_payload model_id params system_prompt content))
              s request Hv) as (c & Hc & E).
  cbv zeta. rewrite E. split; [reflexivity|].
  eexists. split; [apply enqueue_record|]. split; [reflexivity|]. simpl.
  destruct (validate_fields_get _ _ _ (Field "client_id" TStr None) Hv
              QueueRequest_distinct_names ltac:(left))
    as (v & Hget & [(v0 & Hb & Hval)|[_ Hd]]); [|discriminate].
  cbn [f_name f_type] in *. rewrite Hc in Hget. inversion Hget; subst v.
  assert (Hv0 : v0 = JStr "tlc_playground_batch_runner").
  { unfold submit_payload in Hb.
    destruct (truthy (dict_get_default "max_tokens" params JNull));
      cbn in Hb; congruence. }
  subst v0. cbn in Hval. congruence.
Qed.

(** ** What the batch runner reads from its stream *)

Lemma stream_from_queue_done pre :
  Forall (fun e => plain e = true) pre ->
  forall acc n,
    stream_from_queue (pre ++ [EvDone]) acc n
    = Some (acc +:+ join (chunk_texts pre), n + length (chunk_texts pre)).
Proof.
  induction 1 as [|ev pre Hev _ IH]; intros acc n; simpl.
  - rewrite append_nil_r. f_equal. f_equal. lia.
  - destruct ev; try discriminate; simpl; rewrite IH.
    + reflexivity.
    + rewrite append_assoc. f_equal. f_equal. lia.
Qed.

Lemma stream_from_queue_error pre m :
  Forall (fun e => plain e = true) pre ->
  forall acc n, stream_from_queue (pre ++ [EvError m]) acc n = None.
Proof.
  induction 1 as [|ev pre Hev _ IH]; intros acc n; simpl; [reflexivity|].
  destruct ev; try discriminate; apply IH.
Qed.

Lemma minimal_shape_run h s h' s' r :
  h_variant h = MinimalSSE -> status_tracker s !! h_rid h = Some r ->
  minimal_shape h -> handler_run h s = Some (h', s') -> minimal_shape h'.
Proof.
  intros Hv Hr (H1 & H2 & Hsh) Hrun.
  unfold handler_run, wait_relay in Hrun. rewrite Hv, Hr in Hrun.
  destruct (h_pc h) eqn:Hpc; try congruence; simpl in Hsh;
    destruct_matches Hrun; inversion Hrun; subst; clear Hrun;
    unfold minimal_shape; simpl;
    (split; [discriminate|]); (split; [discriminate|]);
    rewrite ?app_nil_r; try assumption;
    try (apply Forall_app; split; [assumption|repeat constructor]; fail);
    eexists _, _; (split; [reflexivity|]); (split; [assumption|]); eauto.
Qed.

Lemma handler_run_variant h s h' s' :
  handler_run h s = Some (h', s') -> h_variant h' = h_variant h.
Proof.
  destruct h as [v rid pc out]. unfold handler_run, wait_relay. simpl. intros H.
  destruct_matches H; inversion H; subst; reflexivity.
Qed.

(** The generator a step adds, when it adds one. *)
Lemma step_new_handler a s s' :
  step a s = Some s' ->
  length (handlers s') = length (handlers s) \/
  exists rid,
    handlers s' = handlers s ++ [mkHandler OpenAISSE rid HStart []] \/
    handlers s' = handlers s ++ [mkHandler MinimalSSE rid (HPolling None) []].
Proof.
  intros Hs. destruct a; simpl in Hs.
  - destruct (status_tracker s !! request_id); [discriminate|].
    inversion Hs; subst. left. unfold post_queue_add.
    destruct (validate QueueRequest body); reflexivity.
  - destruct (status_tracker s !! request_id); [discriminate|].
    inversion Hs; subst. unfold post_chat_completions.
    destruct (validate OpenAIChatRequest body) as [request|]; [|left; reflexivity].
    destruct (dict_get "stream" request) as [[| [|] | | | | |]|];
      simpl; try (left; reflexivity).
    right. eexists. left. reflexivity.
  - inversion Hs; subst. unfold get_stream.
    destruct (status_tracker s !! request_id); simpl; [|left; reflexivity].
    right. eexists. right. reflexivity.
  - left. unfold stream_resume in Hs.
    destruct (handlers s !! i) as [h1|]; [|discriminate]. simpl in Hs.
    destruct (handler_run h1 s) as [[h1' s2]|] eqn:Hrun; [|discriminate].
    simpl in Hs. inversion Hs; subst. simpl.
    pose proof (handler_run_frame _ _ _ _ Hrun) as (_ & _ & _ & _ & Hhs).
    rewrite length_insert, Hhs. reflexivity.
  - left. unfold worker_get in Hs. destruct (worker s); try discriminate.
    destruct (request_queue s) as [|item rest]; [inversion Hs; subst; reflexivity|].
    destruct (status_tracker s !! qi_request_id item);
      inversion Hs; subst; reflexivity.
  - left. unfold llm_created in Hs. destruct (worker s); try discriminate.
    inversion Hs; subst. reflexivity.
  - left. unfold llm_chunk in Hs. destruct (worker s); try discriminate.
    destruct content as [[|x c]|]; try (inversion Hs; subst; reflexivity).
    unfold processing_error in Hs.
    destruct (stream_chunks s !! rid); inversion Hs; subst; reflexivity.
  - left. unfold llm_finished, processing_error in Hs.
    destruct (worker s); try discriminate.
    destruct (stream_chunks s !! rid); inversion Hs; subst; reflexivity.
  - left. unfold llm_raised, processing_error in Hs.
    destruct (worker s); try discriminate;
      destruct (stream_chunks s !! rid); inversion Hs; subst; reflexivity.
Qed.

Lemma minimal_shape_step a s s' :
  inv s ->
  (forall i h, handlers s !! i = Some h -> h_variant h = MinimalSSE -> minimal_shape h) ->
  step a s = Some s' ->
  forall i h, handlers s' !! i = Some h -> h_variant h = MinimalSSE -> minimal_shape h.
Proof.
  intros Hinv Hall Hs j hj Hj Hvj.
  destruct (step_handlers a s s' Hs)
    as [E|[(h0 & E & _)|(i & h0 & h0' & s1 & -> & Hh0 & Hrun & E)]].
  - rewrite E in Hj. eapply Hall; eauto.
  - destruct (step_new_handler a s s' Hs) as [Hlen|(rid & [E'|E'])].
    + rewrite E, length_app in Hlen. simpl in Hlen. lia.
    + rewrite E' in Hj.
      apply lookup_app_Some in Hj as [Hj|[_ Hj]]; [eapply Hall; eauto|].
      apply list_lookup_singleton_Some in Hj as [_ <-]. discriminate.
    + rewrite E' in Hj.
      apply lookup_app_Some in Hj as [Hj|[_ Hj]]; [eapply Hall; eauto|].
      apply list_lookup_singleton_Some in Hj as [_ <-].
      split; [discriminate|]. split; [discriminate|]. constructor.
  - rewrite E in Hj. destruct (decide (i = j)) as [->|Hne].
    + rewrite list_lookup_insert_eq in Hj by (eapply lookup_lt_Some; eauto).
      inversion Hj; subst hj.
      destruct (inv_handlers s Hinv j h0 Hh0) as (r & Hr & _).
      pose proof (handler_run_variant _ _ _ _ Hrun) as Hv.
      apply (minimal_shape_run h0 s h0' s1 r);
        [congruence|assumption|eapply Hall; eauto; congruence|assumption].
    + rewrite list_lookup_insert_ne in Hj by assumption. eapply Hall; eauto.
Qed.

Lemma count_terminal_none_error out :
  count_terminal out = 0 -> Forall (fun ev => is_error_event ev = false) out.
Proof.
  induction out as [|ev out IH]; [constructor|].
  unfold count_terminal. rewrite filter_cons.
  destruct (decide (is_terminal ev = true)) as [Ht|Ht]; [discriminate|].
  intros H. constructor; [|apply IH; exact H].
  destruct ev; simpl in *; try reflexivity; exfalso; apply Ht; reflexivity.
Qed.

(** The run that takes the only stream of a "complete" request past its
    terminal yield yields the done event. *)
Lemma handler_run_no_error h s h' s' r :
  status_tracker s !! h_rid h = Some r -> status r = Complete ->
  reader_shape s h r -> finished (h_pc h) = false ->
  handler_run h s = Some (h', s') ->
  Forall (fun ev => is_error_event ev = false) (h_out h').
Proof.
  intros Hr Hst Hsh Hf Hrun. unfold reader_shape in Hsh. rewrite Hf in Hsh.
  destruct Hsh as (Hc & Hrel & Hd & _).
  pose proof (count_terminal_none_error _ Hc) as Hno.
  unfold relay_shape in Hrel. rewrite Hst in Hrel.
  destruct Hrel as (q & rest & Hq & Hl & _).
  unfold handler_run, wait_relay in Hrun. rewrite ?Hr, ?Hst, ?Hq in Hrun.
  destruct (h_pc h) eqn:Hpc; try discriminate.
  - inversion Hrun; subst. simpl. apply Forall_app. split; [assumption|].
    repeat constructor.
  - destruct (h_variant h); inversion Hrun; subst; simpl;
      (apply Forall_app; split; [assumption|repeat constructor]).
  - inversion Hrun; subst; simpl.
    apply Forall_app; split; [assumption|repeat constructor].
  - inversion Hrun; subst; simpl.
    apply Forall_app; split; [assumption|repeat constructor].
  - pose proof (Hd chunk_queue eq_refl) as Hq'. rewrite Hq in Hq'.
    inversion Hq'; subst chunk_queue. rewrite Hl in Hrun.
    destruct rest as [|c rest]; simpl in Hrun;
      destruct (h_variant h); inversion Hrun; subst; simpl;
      (apply Forall_app; split; [assumption|repeat constructor]).
Qed.

Lemma no_error_on_complete_step a s s' :
  inv s -> inv_sole s -> terminal_once s -> no_error_on_complete s ->
  step a s = Some s' -> no_error_on_complete s'.
Proof.
  intros Hinv Hsole Hto Hno Hs j hj r Hj Hr Hso Hst.
  destruct (finished (h_pc hj)) eqn:Hf.
  2: { apply count_terminal_none_error.
       rewrite (terminal_once_step a s s' Hinv Hto Hs j hj Hj), Hf. reflexivity. }
  assert (Hold : forall h0, handlers s !! j = Some h0 -> h_rid h0 = h_rid hj ->
                   finished (h_pc h0) = true -> h_out hj = h_out h0 ->
                   Forall (fun ev => is_error_event ev = false) (h_out hj)).
  { intros h0 Hh0 Hrid Hf0 Hout. rewrite Hout.
    assert (Hso0 : sole_reader s (h_rid h0)).
    { rewrite Hrid. eapply sole_reader_step_back; eauto. }
    destruct (inv_handlers s Hinv j h0 Hh0) as (r0 & Hr0 & _).
    destruct (Hsole (h_rid h0)) as [_ Hrd].
    specialize (Hrd j h0 r0 Hh0 eq_refl Hr0 Hso0).
    unfold reader_shape in Hrd. rewrite Hf0 in Hrd. destruct Hrd as (Ht & _).
    pose proof (terminal_record_step a s s' _ r0 Hinv Hs Hr0 Ht) as Hr0'.
    rewrite Hrid, Hr in Hr0'. inversion Hr0'; subst r0.
    apply (Hno j h0 r Hh0 Hr0 Hso0 Hst). }
  destruct (step_handlers a s s' Hs)
    as [E|[(h0 & E & Hout & Hpc)|(i & h0 & h0' & s1 & -> & Hh0 & Hrun & E)]];
    rewrite E in Hj.
  - apply (Hold hj); auto.
  - apply lookup_app_Some in Hj as [Hj|[_ Hj]]; [apply (Hold hj); auto|].
    apply list_lookup_singleton_Some in Hj as [_ <-].
    rewrite Hout. constructor.
  - destruct (decide (i = j)) as [->|Hne].
    + rewrite list_lookup_insert_eq in Hj by (eapply lookup_lt_Some; eauto).
      inversion Hj; subst hj.
      pose proof (handler_run_rid _ _ _ _ Hrun) as Hrid.
      destruct (finished (h_pc h0)) eqn:Hf0.
      * apply (Hold h0); auto.
        unfold handler_run in Hrun.
        destruct (h_pc h0); try discriminate. inversion Hrun; subst. simpl.
        apply app_nil_r.
      * assert (Hso0 : sole_reader s (h_rid h0)).
        { rewrite <- Hrid. eapply sole_reader_step_back; eauto. }
        apply stream_resume_frame in Hs as (_ & Htr & _).
        rewrite Htr, Hrid in Hr.
        destruct (Hsole (h_rid h0)) as [_ Hrd].
        specialize (Hrd j h0 r Hh0 eq_refl Hr Hso0).
        eapply handler_run_no_error; eauto.
    + rewrite list_lookup_insert_ne in Hj by assumption. apply (Hold hj); auto.
Qed.

(** X10: what the batch runner reads.  When the stream the batch runner
    opened on its request is the only one on that identifier and is past
    its terminal yield, [stream_from_queue] over the events of the stream returns, for a
    "complete" request, the result stored in the record, with the number of
    chunk events as its token count, and, for a request in "error", its
    error return. *)
Theorem X10_batch_runner_output acts s i h r :
  exec acts initial_state = Some s ->
  handlers s !! i = Some h ->
  h_variant h = MinimalSSE ->
  finished (h_pc h) = true ->
  status_tracker s !! h_rid h = Some r ->
  sole_reader s (h_rid h) ->
  (status r = Complete ->
     exists text, result r = Some text /\
       stream_from_queue (h_out h) "" 0
       = Some (text, length (chunk_texts (h_out h)))) /\
  (status r = Error -> stream_from_queue (h_out h) "" 0 = None).
Proof.
  intros Hex Hh Hv Hpc Hr Hso.
  assert (Hall : inv s /\ inv_sole s /\ terminal_once s /\ no_error_on_complete s /\
                 forall i h, handlers s !! i = Some h -> h_variant h = MinimalSSE ->
                             minimal_shape h).
  { clear Hh Hv Hpc Hr Hso.
    assert (H0 : no_error_on_complete initial_state).
    { intros j hj rj H. inversion H. }
    assert (H1 : forall i h, handlers initial_state !! i = Some h ->
                   h_variant h = MinimalSSE -> minimal_shape h).
    { intros j hj H. inversion H. }
    pose proof inv_initial as Hi. pose proof inv_sole_initial as Hs0.
    pose proof terminal_once_initial as Ht0.
    revert Hi Hs0 Ht0 H0 H1 Hex. generalize initial_state as s0. revert s.
    induction acts as [|a acts IH]; intros s s0 Hi Hs0 Ht0 H0 H1 Hex; simpl in Hex.
    - inversion Hex; subst. auto.
    - destruct (step a s0) as [s1|] eqn:Hs; [|discriminate]. simpl in Hex.
      apply (IH s s1);
        eauto using inv_step, inv_sole_step, terminal_once_step,
                    no_error_on_complete_step, minimal_shape_step. }
  destruct Hall as (Hinv & Hsole & Hto & Hno & Hmin).
  destruct (Hmin i h Hh Hv) as (_ & _ & Hsh). rewrite Hpc in Hsh.
  destruct Hsh as (pre & ev & Hout & Hpre & Hev).
  destruct (Hsole (h_rid h)) as [_ Hrd].
  specialize (Hrd i h r Hh eq_refl Hr Hso).
  unfold reader_shape in Hrd. rewrite Hpc in Hrd.
  destruct Hrd as (_ & _ & Hres & Herr).
  split.
  - intros Hst. exists (join (chunk_texts (h_out h))). split; [auto|].
    pose proof (Hno i h r Hh Hr Hso Hst) as Hne. rewrite Hout in Hne |- *.
    apply Forall_app in Hne as [_ Hne]. inversion Hne as [|? ? Hev' _]; subst.
    destruct Hev as [->|[m ->]]; [|discriminate].
    rewrite stream_from_queue_done by assumption.
    rewrite chunk_texts_app. simpl. rewrite app_nil_r. reflexivity.
  - intros Hst. specialize (Herr Hst). rewrite Hout in Herr |- *.
    apply Forall_app in Herr as [_ Herr]. inversion Herr as [|? ? Hev' _]; subst.
    destruct Hev as [->|[m ->]]; [discriminate|].
    apply stream_from_queue_error. assumption.
Qed.

End Server.

(** * Closed examples

    The runs and bodies above, with numerals read as decimals. *)

#[global] Existing Instance decimal_lexers.

Lemma C8_admission_position_witness :
  resp_queue_position (mkQueueResponse Queued "a" 1) = 1 /\
  resp_queue_position (mkQueueResponse Queued "b" 2) = 2 /\
  resp_queue_position (mkQueueResponse Queued "c" 3) = 3.
Proof.
  apply (proj2 C8_admission_position
           "a" "t0" body_empty_messages "b" "t1" body_odd_message
           "c" "t2" (body_of "ui" [hello_message]) initial_state);
    reflexivity.
Defined.

Lemma C5_validation_witness :
  post_queue_add "a" "t0" body_number_tag initial_state = (initial_state, None) /\
  post_queue_add "a" "t0" body_null_temperature initial_state
    = (initial_state, None) /\
  snd (post_queue_add "a" "t0" body_converted initial_state)
    = Some (mkQueueResponse Queued "a" 1).
Proof.
  destruct C5_validation as (Hiff & Hrej & Hadm).
  split; [|split].
  - apply Hrej. right; right; right; left.
    exists (JInt 5). split; [reflexivity|]. intros c. discriminate.
  - apply (Hiff "a" "t0" body_null_temperature initial_state).
    exists (Field "temperature" TFloat (Some (JFloat (7 # 10)))).
    split; [unfold QueueRequest; do 3 right; left|].
    intros [x Hx]. vm_compute in Hx. discriminate.
  - apply (Hadm "a" "t0" _ "ui" "m" [[("foo", JInt 1)]] initial_state);
      try reflexivity.
    intros f Hin _. unfold QueueRequest in Hin.
    repeat (apply elem_of_cons in Hin as [->|Hin]); try (inversion Hin; fail);
      unfold field_ok; vm_compute; eauto.
Defined.

(** C5 as stated fails: a request with an empty message list is admitted,
    and so is, after it, a request whose one message is an object with none
    of the keys of a message. *)
Lemma C5_empty_message_list_admitted :
  let s' := fst (post_queue_add "a" "t0" body_empty_messages initial_state) in
  (snd (post_queue_add "a" "t0" body_empty_messages initial_state)
     = Some (mkQueueResponse Queued "a" 1) /\
   qsize s' = 1 /\
   total_received (queue_stats s') = 1 /\
   is_Some (status_tracker s' !! "a")) /\
  let s'' := fst (post_queue_add "b" "t1" body_odd_message s') in
  snd (post_queue_add "b" "t1" body_odd_message s')
    = Some (mkQueueResponse Queued "b" 2) /\
  qsize s'' = 2 /\
  total_received (queue_stats s'') = 2 /\
  is_Some (status_tracker s'' !! "b").
Proof.
  vm_compute. repeat split; eauto.
Qed.

Lemma C7_position_updates_witness :
  handler_run (mkHandler OpenAISSE "b" (HPolling (Some 1)) [CmtQueuePosition 1])
              (state_after run_two_polls)
  = Some (mkHandler OpenAISSE "b" (HPolling (Some 1)) [CmtQueuePosition 1],
          state_after run_two_polls).
Proof.
  refine (proj1 (proj1 (C7_position_updates
            (mkHandler OpenAISSE "b" (HPolling (Some 1)) [CmtQueuePosition 1])
            (state_after run_two_polls)
            (mkRequestStatus Queued "ui" "t2" None None None None (Some 1))
            (Some 1) _ _ _) _) _); vm_compute; reflexivity.
Defined.

(** C7 as stated fails for /stream: two tests of the loop that see the same
    queue depth yield two position events. *)
Lemma C7_stream_repeats_position :
  exists s h,
    exec run_two_polls initial_state = Some s /\
    handlers s !! 0 = Some h /\
    h_variant h = MinimalSSE /\
    h_rid h = "b" /\
    h_out h = [EvPosition 1; EvPosition 1].
Proof.
  eexists _, _. split; [vm_compute; reflexivity|].
  split; [reflexivity|]. repeat split; reflexivity.
Qed.

Lemma C9_nonstreaming_wait_witness :
  exists resp, nonstream_wait 0 (stuck_queued 3002) = Some resp.
Proof.
  apply (proj2 C9_nonstreaming_wait 0%Q (stuck_queued 3002)).
  - vm_compute. reflexivity.
  - vm_compute. lia.
Defined.

Lemma C1_single_processing_witness :
  current_request_id (queue_stats (state_after run_in_flight)) = Some "a" /\
  exists r, status_tracker (state_after run_in_flight) !! "a" = Some r /\
            status r = Processing.
Proof.
  split; [reflexivity|].
  apply (proj1 (proj2 (C1_single_processing run_in_flight
                         (state_after run_in_flight) eq_refl)) "a").
  reflexivity.
Defined.

Lemma C4_completion_failure_witness :
  exists s' q l r,
    step (LlmRaised "Connection refused" "t3") (state_after run_in_flight) = Some s' /\
    stream_chunks (state_after run_in_flight) !! "a" = Some q /\
    chunk_queues (state_after run_in_flight) !! q = Some l /\
    chunk_queues s' !! q = Some (l ++ [CError "Connection refused"]) /\
    status_tracker s' !! "a" = Some r /\
    status r = Error /\ error r = Some "Connection refused" /\
    completed_at r = Some "t3" /\
    total_errors (queue_stats s') =
      total_errors (queue_stats (state_after run_in_flight)) + 1 /\
    current_request_id (queue_stats s') = None /\
    worker s' = WIdle /\
    request_queue s' = request_queue (state_after run_in_flight) /\
    (forall now', is_Some (step (WorkerGet now') s')).
Proof.
  apply (C4_completion_failure run_in_flight (state_after run_in_flight) "a");
    reflexivity.
Defined.

Lemma C2_fifo_witness :
  exists ra, status_tracker (state_after (run_in_flight ++ [LlmRaised "refused" "t3"; WorkerGet "t4"])) !! "a" = Some ra /\
             (status ra = Complete \/ status ra = Error).
Proof.
  eapply (C2_fifo (run_in_flight ++ [LlmRaised "refused" "t3"; WorkerGet "t4"])
                  (state_after (run_in_flight ++ [LlmRaised "refused" "t3"; WorkerGet "t4"]))
                  "a" "b"
                  (mkRequestStatus Processing "ui" "t1" (Some "t4") None None None (Some 2))).
  - vm_compute. reflexivity.
  - exists [], [], []. reflexivity.
  - vm_compute. reflexivity.
  - simpl. discriminate.
Defined.

Lemma C10_relay_entry_lifetime_witness :
  is_Some (stream_chunks (state_after run_unattended) !! "a").
Proof.
  apply (proj2 (proj2 C10_relay_entry_lifetime) run_unattended
           (state_after run_unattended) "a"
           (mkRequestStatus Complete "ui" "t0" (Some "t1") (Some "t4")
              (Some "Hello world") None (Some 1))).
  - vm_compute. reflexivity.
  - vm_compute. reflexivity.
  - left. reflexivity.
  - intros i h Hh. vm_compute in Hh. destruct i; discriminate.
Defined.

Lemma C6_fragments_concatenate_witness :
  Some "Hello world"
  = Some (join (fragments (published run_unattended initial_state "a"))).
Proof.
  refine (proj1 (C6_fragments_concatenate run_unattended
           (state_after run_unattended) "a"
           (mkRequestStatus Complete "ui" "t0" (Some "t1") (Some "t4")
              (Some "Hello world") None (Some 1)) _ _ _)).
  - vm_compute. reflexivity.
  - vm_compute. reflexivity.
  - reflexivity.
Defined.

(** C6 as stated fails when two streams read one request: the stream that
    receives the done event has yielded only the fragments it took itself. *)
Lemma C6_two_readers_split_fragments :
  exists s h r,
    exec run_two_readers initial_state = Some s /\
    handlers s !! 1 = Some h /\
    h_rid h = "a" /\
    h_out h = [EvChunk " world"; EvDone] /\
    status_tracker s !! "a" = Some r /\
    status r = Complete /\
    result r = Some "Hello world" /\
    join (chunk_texts (h_out h)) <> "Hello world".
Proof.
  eexists _, _, _. split; [vm_compute; reflexivity|].
  split; [vm_compute; reflexivity|].
  split; [reflexivity|]. split; [reflexivity|].
  split; [vm_compute; reflexivity|].
  split; [reflexivity|]. split; [reflexivity|]. vm_compute. discriminate.
Qed.

Lemma C3_stream_ends_witness :
  (exists h, handlers (state_after run_two_readers) !! 0 = Some h /\
             count_terminal (h_out h) = 0) /\
  (exists h',
     handlers (state_after (run_late_reader ++ run_late_reader_drains)) !! 0 = Some h' /\
     h_pc h' = HDone /\ count_terminal (h_out h') = 1) /\
  (exists h',
     handlers (state_after (run_two_readers_error ++ run_two_readers_error_end)) !! 0
       = Some h' /\
     h_pc h' = HDone /\ count_terminal (h_out h') = 1) /\
  (exists h',
     handlers (state_after (run_two_readers_error ++ run_two_readers_error_end)) !! 1
       = Some h' /\
     h_pc h' = HDone /\ count_terminal (h_out h') = 1).
Proof.
  destruct C3_stream_ends as (Hevery & Hsole & Herror).
  split; [|split; [|split]].
  - exists (mkHandler MinimalSSE "a" (HDraining 0) [EvChunk "Hello"]).
    split; [vm_compute; reflexivity|].
    apply (Hevery run_two_readers (state_after run_two_readers) 0
             (mkHandler MinimalSSE "a" (HDraining 0) [EvChunk "Hello"]));
      vm_compute; reflexivity.
  - destruct (Hsole run_late_reader (state_after run_late_reader) 0
                (mkHandler MinimalSSE "a" (HPolling None) [])
                (mkRequestStatus Complete "ui" "t0" (Some "t1") (Some "t4")
                   (Some "Hello world") None (Some 1))
                run_late_reader_drains
                (state_after (run_late_reader ++ run_late_reader_drains)))
      as (h' & Hh' & _ & _ & Hdone).
    + vm_compute. reflexivity.
    + vm_compute. reflexivity.
    + vm_compute. reflexivity.
    + left. reflexivity.
    + vm_compute. reflexivity.
    + intros i j hi hj Hi Hj _ _. vm_compute in Hi, Hj.
      destruct i as [|[|i]]; try discriminate; destruct j as [|[|j]]; try discriminate;
        reflexivity.
    + exists h'. split; [exact Hh'|].
      vm_compute in Hh'. inversion Hh'; subst h'. split; [reflexivity|].
      apply Hdone. reflexivity.
  - destruct (Herror run_two_readers_error (state_after run_two_readers_error) 0
                (mkHandler MinimalSSE "a" (HPolling None) [])
                (mkRequestStatus Error "ui" "t0" (Some "t1") (Some "t2")
                   None (Some "boom") (Some 1))
                run_two_readers_error_end
                (state_after (run_two_readers_error ++ run_two_readers_error_end)))
      as (h' & Hh' & _ & _ & _ & Hdone); try (vm_compute; reflexivity).
    exists h'. split; [exact Hh'|].
    vm_compute in Hh'. inversion Hh'; subst h'. split; [reflexivity|].
    apply Hdone. reflexivity.
  - destruct (Herror run_two_readers_error (state_after run_two_readers_error) 1
                (mkHandler MinimalSSE "a" (HPolling None) [])
                (mkRequestStatus Error "ui" "t0" (Some "t1") (Some "t2")
                   None (Some "boom") (Some 1))
                run_two_readers_error_end
                (state_after (run_two_readers_error ++ run_two_readers_error_end)))
      as (h' & Hh' & _ & _ & _ & Hdone); try (vm_compute; reflexivity).
    exists h'. split; [exact Hh'|].
    vm_compute in Hh'. inversion Hh'; subst h'. split; [reflexivity|].
    apply Hdone. reflexivity.
Defined.

(** C3 as stated fails.  With two streams on one request, the one that
    does not take the end marker has yielded no terminal event when the
    request is complete, and in every continuation it stays as it is and
    cannot be resumed.  A third stream, opened on the request once it is
    complete and the second stream has removed the relay entry, never ends
    either: in every continuation it has yielded nothing and has not ended. *)
Lemma C3_second_stream_hangs :
  (exists s h r,
     exec run_two_readers initial_state = Some s /\
     handlers s !! 0 = Some h /\
     h_rid h = "a" /\
     status_tracker s !! "a" = Some r /\
     status r = Complete /\
     count_terminal (h_out h) = 0 /\
     forall acts s',
       exec acts s = Some s' ->
       handlers s' !! 0 = Some h /\ step (StreamResume 0) s' = None) /\
  (exists s0 s r,
     exec run_two_readers initial_state = Some s0 /\
     status_tracker s0 !! "a" = Some r /\
     status r = Complete /\
     handlers s0 !! 2 = None /\
     step (GetStream "a") s0 = Some s /\
     forall acts s',
       exec acts s = Some s' ->
       exists h', handlers s' !! 2 = Some h' /\ h_rid h' = "a" /\
                  h_out h' = [] /\ h_pc h' <> HDone).
Proof.
  split.
  - exists (state_after run_two_readers),
           (mkHandler MinimalSSE "a" (HDraining 0) [EvChunk "Hello"]),
           (mkRequestStatus Complete "ui" "t0" (Some "t1") (Some "t4")
              (Some "Hello world") None (Some 1)).
    split; [vm_compute; reflexivity|].
    split; [vm_compute; reflexivity|].
    split; [reflexivity|].
    split; [vm_compute; reflexivity|].
    split; [reflexivity|]. split; [reflexivity|].
    intros acts s' Hex.
    assert (Hst : stuck_reader 0 (mkHandler MinimalSSE "a" (HDraining 0) [EvChunk "Hello"])
                    0 (state_after run_two_readers)).
    { split; [vm_compute; reflexivity|]. split; [reflexivity|].
      split; [vm_compute; reflexivity|].
      intros rid H. vm_compute in H. discriminate. }
    destruct (stuck_reader_exec _ _ _ _ _ _ Hst Hex) as (Hh & Hpc & Hq & _).
    split; [assumption|]. simpl. unfold stream_resume. rewrite Hh. simpl.
    unfold handler_run. simpl. rewrite Hq. reflexivity.
  - exists (state_after run_two_readers), (state_after run_late_second_reader),
           (mkRequestStatus Complete "ui" "t0" (Some "t1") (Some "t4")
              (Some "Hello world") None (Some 1)).
    split; [vm_compute; reflexivity|].
    split; [vm_compute; reflexivity|].
    split; [reflexivity|].
    split; [vm_compute; reflexivity|].
    split; [vm_compute; reflexivity|].
    intros acts s' Hex.
    assert (Hinv : inv (state_after run_late_second_reader)).
    { apply (inv_exec run_late_second_reader initial_state); [apply inv_initial|].
      vm_compute. reflexivity. }
    assert (Hw : waits_in_vain 2 "a" (state_after run_late_second_reader)).
    { split; [eexists; split; [vm_compute; reflexivity|reflexivity]|].
      split; [vm_compute; reflexivity|].
      exists (mkHandler MinimalSSE "a" (HPolling None) []).
      split; [vm_compute; reflexivity|]. auto 10. }
    destruct (waits_in_vain_exec _ _ _ _ _ Hinv Hw Hex)
      as (_ & _ & h' & Hh' & Hrid & _ & Hpc & Hout).
    exists h'. repeat split; auto.
    destruct Hpc as [Hpc|Hpc]; rewrite Hpc; discriminate.
Qed.
Lemma X1_optional_params_forwarded_witness :
  dict_get "max_tokens" (build_llm_kwargs data_with_cap) = Some (JInt 100) /\
  dict_get "seed" (build_llm_kwargs data_with_cap) = None.
Proof.
  split.
  - rewrite (X1_optional_params_forwarded data_with_cap "max_tokens");
      [reflexivity|]. eapply (bool_decide_unpack _). vm_compute. exact Logic.I.
  - rewrite (X1_optional_params_forwarded data_with_cap "seed");
      [reflexivity|]. eapply (bool_decide_unpack _). vm_compute. exact Logic.I.
Defined.

Lemma X2_llm_kwargs_keys_witness :
  dict_get "user" (build_llm_kwargs data_with_cap) = None /\
  dict_get "client_id" (build_llm_kwargs data_with_cap) = None.
Proof.
  split; apply (proj2 (proj2 (X2_llm_kwargs_keys data_with_cap)));
    unfold base_params, optional_params; intros H;
    repeat (apply elem_of_cons in H as [H|H]; [discriminate|]); inversion H.
Defined.


Lemma X4_record_lifecycle_witness :
  exists r', get_request_status "a" (state_after run_unattended) = Some r' /\
             status_le Queued (status r') = true /\
             client_id r' = "ui" /\ created_at r' = "t0".
Proof.
  destruct (X4_record_lifecycle (take 1 run_unattended)
              (state_after (take 1 run_unattended))
              (drop 1 run_unattended) (state_after run_unattended) "a"
              (mkRequestStatus Queued "ui" "t0" None None None None (Some 1)))
    as (r' & Hr' & Hle & Hc & Hcr & _); try (vm_compute; reflexivity).
  exists r'. auto.
Defined.



Lemma X7_record_fields_witness :
  record_shape (mkRequestStatus Complete "ui" "t0" (Some "t1") (Some "t4")
                  (Some "Hello world") None (Some 1)).
Proof.
  apply (X7_record_fields run_unattended (state_after run_unattended) "a");
    vm_compute; reflexivity.
Defined.


Lemma X9_batch_payload_admitted_witness :
  snd (submit_to_queue "a" "t0" "m"
         [("temperature", JFloat (1 # 2)); ("max_tokens", JInt 256)]
         "Be brief." "Hello" initial_state)
  = Some (mkQueueResponse Queued "a" 1).
Proof.
  apply (X9_batch_payload_admitted "a" "t0" "m"
           [("temperature", JFloat (1 # 2)); ("max_tokens", JInt 256)]
           "Be brief." "Hello" initial_state).
  - intros k v Hk.
    repeat (apply elem_of_cons in Hk as [->|Hk]); try (inversion Hk; fail);
      vm_compute; intros H; inversion H; reflexivity.
  - vm_compute. intros v H _. inversion H. eauto.
Defined.

Lemma X10_batch_runner_output_witness :
  stream_from_queue
    [EvChunk "Hello"; EvChunk " world"; EvDone] "" 0
  = Some ("Hello world", 2).
Proof.
  destruct (X10_batch_runner_output (run_late_reader ++ run_late_reader_drains)
              (state_after (run_late_reader ++ run_late_reader_drains)) 0
              (mkHandler MinimalSSE "a" HDone [EvChunk "Hello"; EvChunk " world"; EvDone])
              (mkRequestStatus Complete "ui" "t0" (Some "t1") (Some "t4")
                 (Some "Hello world") None (Some 1)))
    as [Hc _].
  - vm_compute. reflexivity.
  - vm_compute. reflexivity.
  - reflexivity.
  - reflexivity.
  - vm_compute. reflexivity.
  - intros i j hi hj Hi Hj _ _. vm_compute in Hi, Hj.
    destruct i as [|[|i]]; try discriminate; destruct j as [|[|j]]; try discriminate;
      reflexivity.
  - destruct (Hc eq_refl) as (text & Hres & Hout).
    simpl in Hres. inversion Hres; subst text. exact Hout.
Defined.
